(** * Flow-graph editing core of the process mapper (FlowChart component)

    A shallow embedding of the graph-editing logic of the canvas component:
    the logical numbering of nodes ([renumberByFlowSequence]), the connection
    rules applied to user-drawn and re-attached connectors ([onConnect],
    [onReconnect]), the incremental merge of AI-proposed changes
    ([generateIncrementalFlow]) and the undo history ([saveToHistory], [undo],
    [redo]); further the edits made by hand (deleting nodes and connectors,
    [handleMidStepInsertion]), the layout ([getLayoutedElements]) and the
    logical id proposed for a new step ([getNextLogicalId]).

    Conventions of the embedding.
    - A JavaScript property holding a string or [undefined] is an
      [option string]; [a || d] on such a value is [js_or].
    - A connector port is a [Handle]: React Flow passes [null] for a node that
      has a single anonymous port, objects built without the property read
      [undefined], and [===] tells the two apart.
    - The ids of nodes are ordinary strings used as keys of plain objects;
      names inherited from [Object.prototype] are not used as ids.
    - Numbers that only carry pixel coordinates are rationals; no definition
      below inspects them.
    - Purely cosmetic properties of nodes and connectors ([style],
      [markerEnd], [labelStyle], ...) are constants of the source and are
      left out of the records. *)

From Stdlib Require Import QArith.
From stdpp Require Import base list strings gmap pretty.

Close Scope Q_scope.

(** ** JavaScript values *)

(** [o || d] for a string-or-undefined [o]: the empty string is falsy. *)
Definition js_or (o : option string) (d : string) : string :=
  match o with
  | Some s => if decide (s = "") then d else s
  | None => d
  end.

(** [!!b] for a boolean-or-undefined flag. *)
Definition truthy (o : option bool) : bool :=
  match o with
  | Some b => b
  | None => false
  end.

Inductive Handle :=
  | HUndefined
  | HNull
  | HId (name : string).

Global Instance Handle_eq_dec : EqDecision Handle.
Proof. solve_decision. Defined.

(** ** Data model *)

Record Position := { px : Q; py : Q }.

Record NodeData := {
  label : option string;
  data_id : string;
  logical_id : option string;
  owner : option string;
  system : option string;
  manualOrAutomated : option string;
  data_type : option string;
  user_modified : option bool
}.

Record Node := {
  id : string;
  type : string;
  position : Position;
  targetPosition : option string;
  sourcePosition : option string;
  data : NodeData
}.

Record Edge := {
  edge_id : string;
  source : string;
  target : string;
  sourceHandle : Handle;
  targetHandle : Handle;
  edge_label : option string
}.

(** [{ ...node.data, logical_id: l }] *)
Definition set_logical_id (l : option string) (d : NodeData) : NodeData :=
  {| label := label d; data_id := data_id d; logical_id := l;
     owner := owner d; system := system d;
     manualOrAutomated := manualOrAutomated d; data_type := data_type d;
     user_modified := user_modified d |}.

(** [{ ...node, data: d }] *)
Definition set_data (d : NodeData) (n : Node) : Node :=
  {| id := id n; type := type n; position := position n;
     targetPosition := targetPosition n; sourcePosition := sourcePosition n;
     data := d |}.

Definition with_logical_id (l : option string) (n : Node) : Node :=
  set_data (set_logical_id l (data n)) n.

(** ** Logical numbering *)

(** The four node types that are never numbered. *)
Definition keeps_logical_id (nodeType : string) : bool :=
  bool_decide (nodeType = "start") || bool_decide (nodeType = "end")
  || bool_decide (nodeType = "decision") || bool_decide (nodeType = "merge").

(** The body shared by the traversal and by the pass over the remaining
    nodes: the copy of [node] that is pushed, and the next counter. *)
Definition assign_logical_id (counter : nat) (node : Node) : Node * nat :=
  if keeps_logical_id (type node)
  then (with_logical_id (Some (js_or (logical_id (data node)) "")) node,
        counter)
  else (with_logical_id (Some ("1.1.1." +:+ pretty counter)) node, S counter).

Record Traversal := {
  visited : gset string;
  updatedNodes : list Node;
  counter : nat
}.

Definition push_node (nodeId : option string) (node : Node) (st : Traversal)
  : Traversal :=
  let '(node', c) := assign_logical_id (counter st) node in
  {| visited := match nodeId with
                | Some i => {[i]} ∪ visited st
                | None => visited st
                end;
     updatedNodes := updatedNodes st ++ [node'];
     counter := c |}.

Definition build_nodeMap (nodes : list Node) : gmap string Node :=
  foldl (λ m node, <[id node := node]> m) ∅ nodes.

Definition build_adjacency (edges : list Edge) : gmap string (list string) :=
  foldl (λ adj edge,
           <[source edge :=
               default [] (adj !! source edge) ++ [target edge]]> adj)
        ∅ edges.

(** [traverseFlow]: the recursion of the source, with the depth of the
    recursion bounded by [fuel]. Every nested call visits a node that was not
    visited before, so a depth above the number of nodes is never reached
    (see [traverseFlow_fuel] and [renumberWithFuel_enough]). *)
Fixpoint traverseFlow (fuel : nat) (nodeMap : gmap string Node)
    (adjacency : gmap string (list string)) (nodeId : string)
    (st : Traversal) : Traversal :=
  match fuel with
  | 0 => st
  | S fuel' =>
      if decide (nodeId ∈ visited st) then st
      else match nodeMap !! nodeId with
           | None => st
           | Some node =>
               foldl (λ s nextNodeId,
                        traverseFlow fuel' nodeMap adjacency nextNodeId s)
                     (push_node (Some nodeId) node st)
                     (default [] (adjacency !! nodeId))
           end
  end.

Definition renumberWithFuel (fuel : nat) (nodes : list Node)
    (edges : list Edge) : list Node :=
  match nodes with
  | [] => nodes
  | first :: _ =>
      let nodeMap := build_nodeMap nodes in
      let incomingEdges : gset string := list_to_set (target <$> edges) in
      let startNodes := filter (λ node, id node ∉ incomingEdges) nodes in
      let actualStartNodes :=
        match startNodes with [] => [first] | _ => startNodes end in
      let adjacency := build_adjacency edges in
      let traversed :=
        foldl (λ s startNode,
                 traverseFlow fuel nodeMap adjacency (id startNode) s)
              {| visited := ∅; updatedNodes := []; counter := 1 |}
              actualStartNodes in
      let final :=
        foldl (λ s node,
                 if decide (id node ∈ visited s) then s
                 else push_node None node s)
              traversed nodes in
      updatedNodes final
  end.

Definition renumberByFlowSequence (nodes : list Node) (edges : list Edge)
  : list Node :=
  renumberWithFuel (S (length nodes)) nodes edges.

(** ** Numbering: the order of the output and its counters *)

(** The pushes of the source, one after the other, on a list of nodes. *)
Fixpoint number_from (c : nat) (l : list Node) : list Node * nat :=
  match l with
  | [] => ([], c)
  | n :: l' =>
      let '(n', c') := assign_logical_id c n in
      let '(r, c'') := number_from c' l' in
      (n' :: r, c'')
  end.

Definition is_numbered (n : Node) : bool := negb (keeps_logical_id (type n)).

Definition count_numbered (l : list Node) : nat :=
  length (filter (λ n, is_numbered n = true) l).

(** ** The order of the visits *)

(** The traversal seen on ids alone: [walk] is [traverseFlow] on the list of
    the ids visited so far, in the order of the visits. It depends on the
    nodes only through the set [keys] of their ids. *)
Section Walk.
Variable keys : gset string.
Variable adjacency : gmap string (list string).

Fixpoint walk (fuel : nat) (nodeId : string) (seen : list string)
  : list string :=
  match fuel with
  | 0 => seen
  | S fuel' =>
      if decide (nodeId ∈ seen) then seen
      else if decide (nodeId ∈ keys) then
        foldl (λ acc nextNodeId, walk fuel' nextNodeId acc)
              (seen ++ [nodeId]) (default [] (adjacency !! nodeId))
      else seen
  end.

Definition walks (fuel : nat) (starts : list string) (seen : list string)
  : list string :=
  foldl (λ acc start, walk fuel start acc) seen starts.

(** The number of ids that can still be visited. *)
Definition unseen (seen : list string) : nat :=
  size (keys ∖ list_to_set seen).

(** An id that can still be visited. *)
Definition fresh (seen : list string) (y : string) : Prop :=
  y ∈ keys ∧ y ∉ seen.
End Walk.

Definition has_incoming (edges : list Edge) (i : string) : Prop :=
  i ∈ target <$> edges.

Global Instance has_incoming_dec edges i : Decision (has_incoming edges i).
Proof. unfold has_incoming. apply _. Defined.

(** [actualStartNodes] *)
Definition actual_starts (nodes : list Node) (edges : list Edge) : list Node :=
  let startNodes := filter (λ node, ¬ has_incoming edges (id node)) nodes in
  match startNodes with
  | [] => take 1 nodes
  | _ => startNodes
  end.

Definition visit_order (fuel : nat) (nodes : list Node) (edges : list Edge)
  : list string :=
  walks (dom (build_nodeMap nodes)) (build_adjacency edges) fuel
        (id <$> actual_starts nodes edges) [].

(** The nodes in the order in which they are pushed: the visited ones, each
    as the node map holds it, then the others in their stored order. *)
Definition arrange (fuel : nat) (nodes : list Node) (edges : list Edge)
  : list Node :=
  let order := visit_order fuel nodes edges in
  omap (λ i, build_nodeMap nodes !! i) order
  ++ filter (λ node, id node ∉ order) nodes.

(** What the traversal has done when it has visited the ids [seen]. *)
Definition represents (nodeMap : gmap string Node) (seen : list string)
    (st : Traversal) : Prop :=
  visited st = list_to_set seen
  ∧ updatedNodes st = (number_from 1 (omap (λ i, nodeMap !! i) seen)).1
  ∧ counter st = (number_from 1 (omap (λ i, nodeMap !! i) seen)).2.

(** ** The calls of the traversal *)

(** [traverseFlow] again, with a record of who made each call that visited a
    node: [None] for a call from the loop over the start nodes, [Some p] for
    a call made while visiting the successors of [p]. The record is not part
    of the source; dropping it gives [traverseFlow] back
    (see [traverseFlow_calls_state]). *)
Fixpoint traverseFlow_calls (fuel : nat) (nodeMap : gmap string Node)
    (adjacency : gmap string (list string)) (caller : option string)
    (nodeId : string) (st : Traversal * list (option string * string))
  : Traversal * list (option string * string) :=
  match fuel with
  | 0 => st
  | S fuel' =>
      if decide (nodeId ∈ visited st.1) then st
      else match nodeMap !! nodeId with
           | None => st
           | Some node =>
               foldl (λ s nextNodeId,
                        traverseFlow_calls fuel' nodeMap adjacency
                          (Some nodeId) nextNodeId s)
                     (push_node (Some nodeId) node st.1,
                      st.2 ++ [(caller, nodeId)])
                     (default [] (adjacency !! nodeId))
           end
  end.

(** The calls made by [renumberByFlowSequence nodes edges]. *)
Definition traversal_calls (nodes : list Node) (edges : list Edge)
  : list (option string * string) :=
  (foldl (λ s startNode,
            traverseFlow_calls (S (length nodes)) (build_nodeMap nodes)
              (build_adjacency edges) None (id startNode) s)
         ({| visited := ∅; updatedNodes := []; counter := 1 |}, [])
         (actual_starts nodes edges)).2.

(** [c] was visited by a call made while visiting the successors of [p]. *)
Definition called_from (nodes : list Node) (edges : list Edge)
    (p c : string) : Prop :=
  (Some p, c) ∈ traversal_calls nodes edges.

(** [a] stands before [b] in [l]. *)
Definition before {A} (a b : A) (l : list A) : Prop :=
  ∃ i j, l !! i = Some a ∧ l !! j = Some b ∧ i < j.

(** What holds of the record of calls at every point of the traversal: the
    visited set is the set of the ids pushed, the calls were recorded in the
    order of the pushes, and every nested call went from a node pushed
    earlier to one of its successors. *)
Definition calls_ok (adjacency : gmap string (list string))
    (s : Traversal * list (option string * string)) : Prop :=
  visited s.1 = list_to_set (id <$> updatedNodes s.1)
  ∧ s.2.*2 = id <$> updatedNodes s.1
  ∧ ∀ p c, (Some p, c) ∈ s.2 →
      before p c (id <$> updatedNodes s.1)
      ∧ c ∈ default [] (adjacency !! p).

Definition caller_ok (adjacency : gmap string (list string))
    (caller : option string) (x : string)
    (s : Traversal * list (option string * string)) : Prop :=
  ∀ p, caller = Some p →
    p ∈ id <$> updatedNodes s.1 ∧ x ∈ default [] (adjacency !! p).

(** ** Connection rules *)

(** The [params] of [onConnect] and the [newConnection] of [onReconnect]. *)
Record Connection := {
  c_source : string;
  c_target : string;
  c_sourceHandle : Handle;
  c_targetHandle : Handle
}.

Inductive Verdict :=
  | NodeNotFound                (* silent [return]: an endpoint is not a node *)
  | Rejected (errorMessage : string)
  | Valid.

Global Instance Verdict_eq_dec : EqDecision Verdict.
Proof. solve_decision. Defined.

(** [nodes.find(n => n.id === i)] *)
Definition find_node (nodes : list Node) (i : string) : option Node :=
  snd <$> list_find (λ n, id n = i) nodes.

Definition sourceOutgoing (edges : list Edge) (i : string) : nat :=
  length (filter (λ e, source e = i) edges).

Definition targetIncoming (edges : list Edge) (i : string) : nat :=
  length (filter (λ e, target e = i) edges).

(** The [isValid]/[errorMessage] pair of the source: [None] while [isValid]
    is true, the last message assigned otherwise. *)
Definition flag (cond : bool) (message : string) (v : option string)
  : option string :=
  if cond then Some message else v.

(** The first group of rules of [onConnect], on the type of the source. *)
Definition onConnect_source_rules (sourceType : string) (out inc : nat)
    (v : option string) : option string :=
  if decide (sourceType = "start") then
    flag (bool_decide (1 ≤ out))
         "Start node can only have one outgoing connection"
         (flag (bool_decide (0 < inc))
               "Start node cannot have incoming connections" v)
  else if decide (sourceType = "end") then
    Some "End node cannot have outgoing connections"
  else if decide (sourceType = "default") then
    flag (bool_decide (1 ≤ out))
         "Process step can only have one outgoing connection" v
  else if decide (sourceType = "decision") then
    flag (bool_decide (3 ≤ out))
         "Decision node can have maximum 3 outgoing connections" v
  else v.

(** The second group of rules of [onConnect], on the type of the target. *)
Definition onConnect_target_rules (targetType : string) (inc : nat)
    (v : option string) : option string :=
  if decide (targetType = "start") then
    Some "Start node cannot have incoming connections"
  else if decide (targetType = "end") then v
  else if decide (targetType = "default") then
    flag (bool_decide (1 ≤ inc))
         "Process step can only have one incoming connection" v
  else if decide (targetType = "decision") then
    flag (bool_decide (1 ≤ inc))
         "Decision node can only have one incoming connection" v
  else v.

(** [onConnect] up to its last [return] before the connector is added. *)
Definition onConnect_check (nodes : list Node) (edges : list Edge)
    (params : Connection) : Verdict :=
  match find_node nodes (c_source params),
        find_node nodes (c_target params) with
  | Some sourceNode, Some targetNode =>
      let out := sourceOutgoing edges (c_source params) in
      let inc := targetIncoming edges (c_target params) in
      let existingConnection :=
        list_find (λ e, source e = c_source params ∧ target e = c_target params
                        ∧ sourceHandle e = c_sourceHandle params
                        ∧ targetHandle e = c_targetHandle params) edges in
      if bool_decide (is_Some existingConnection) then
        Rejected "Connection already exists at this anchor point"
      else
        let sourceHandleUsed :=
          existsb (λ e, bool_decide (source e = c_source params
                                     ∧ sourceHandle e = c_sourceHandle params))
                  edges in
        let targetHandleUsed :=
          existsb (λ e, bool_decide (target e = c_target params
                                     ∧ targetHandle e = c_targetHandle params))
                  edges in
        if sourceHandleUsed then
          Rejected "This connector point is already in use"
        else if targetHandleUsed then
          Rejected "This connector point is already in use"
        else
          match onConnect_target_rules (type targetNode) inc
                  (onConnect_source_rules (type sourceNode) out inc None) with
          | Some errorMessage => Rejected errorMessage
          | None => Valid
          end
  | _, _ => NodeNotFound
  end.

(** The rules of [onReconnect], counted on the connectors other than the one
    being moved. *)
Definition onReconnect_source_rules (sourceType : string) (out : nat)
    (v : option string) : option string :=
  if decide (sourceType = "start") then
    flag (bool_decide (1 ≤ out))
         "Start node can only have one outgoing connection" v
  else if decide (sourceType = "end") then
    Some "End node cannot have outgoing connections"
  else if decide (sourceType = "default") then
    flag (bool_decide (1 ≤ out))
         "Process step can only have one outgoing connection" v
  else if decide (sourceType = "decision") then
    flag (bool_decide (3 ≤ out))
         "Decision node can have maximum 3 outgoing connections" v
  else v.

Definition onReconnect_target_rules (targetType : string) (inc : nat)
    (v : option string) : option string :=
  if decide (targetType = "start") then
    Some "Start node cannot have incoming connections"
  else if decide (targetType = "default") then
    flag (bool_decide (1 ≤ inc))
         "Process step can only have one incoming connection" v
  else if decide (targetType = "decision") then
    flag (bool_decide (1 ≤ inc))
         "Decision node can only have one incoming connection" v
  else v.

Definition onReconnect_check (nodes : list Node) (edges : list Edge)
    (oldEdge : Edge) (newConnection : Connection) : Verdict :=
  match find_node nodes (c_source newConnection),
        find_node nodes (c_target newConnection) with
  | Some sourceNode, Some targetNode =>
      let otherEdges := filter (λ e, edge_id e ≠ edge_id oldEdge) edges in
      let out := sourceOutgoing otherEdges (c_source newConnection) in
      let inc := targetIncoming otherEdges (c_target newConnection) in
      match onReconnect_target_rules (type targetNode) inc
              (onReconnect_source_rules (type sourceNode) out None) with
      | Some errorMessage => Rejected errorMessage
      | None => Valid
      end
  | _, _ =>
      Rejected "Invalid reconnection: source or target node not found"
  end.

(** ** History *)

Record Snapshot := {
  snap_nodes : list Node;
  snap_edges : list Edge;
  timestamp : Z
}.

Record History := {
  history : list Snapshot;
  historyIndex : Z
}.

Definition initial_history : History := {| history := []; historyIndex := -1 |}.

(** [l.slice(0, stop)]: a negative [stop] counts from the end. *)
Definition slice0 {A} (l : list A) (stop : Z) : list A :=
  if decide (stop < 0)%Z
  then take (Z.to_nat (Z.of_nat (length l) + stop)) l
  else take (Z.to_nat stop) l.

(** [arr.shift()] *)
Definition shift {A} (l : list A) : list A := drop 1 l.

Definition saveToHistory (now : Z) (newNodes : list Node)
    (newEdges : list Edge) (h : History) : History :=
  let newState :=
    {| snap_nodes := newNodes; snap_edges := newEdges; timestamp := now |} in
  let newHistory := slice0 (history h) (historyIndex h + 1) ++ [newState] in
  if decide (50 < length newHistory)
  then {| history := shift newHistory; historyIndex := historyIndex h |}
  else {| history := newHistory; historyIndex := (historyIndex h + 1)%Z |}.

(** The cursor points into the history (or before its first snapshot, when
    there is none), and the history holds at most 50 snapshots. *)
Definition history_ok (h : History) : Prop :=
  (-1 ≤ historyIndex h < Z.of_nat (length (history h)))%Z
  ∧ length (history h) ≤ 50.

(** ** The canvas: nodes, connectors, history and the error banner *)

Record Canvas := {
  nodes : list Node;
  edges : list Edge;
  hist : History;
  errorMessage : string;
  showError : bool
}.

Definition showErrorMessage (message : string) (cv : Canvas) : Canvas :=
  {| nodes := nodes cv; edges := edges cv; hist := hist cv;
     errorMessage := message; showError := true |}.

(** [history[newIndex]] put back on the canvas. The callers pass an index
    inside the history (see [history_ok]), so the lookup does not fail. *)
Definition restore (newIndex : Z) (cv : Canvas) : Canvas :=
  match history (hist cv) !! Z.to_nat newIndex with
  | Some state =>
      {| nodes := snap_nodes state; edges := snap_edges state;
         hist := {| history := history (hist cv); historyIndex := newIndex |};
         errorMessage := errorMessage cv; showError := showError cv |}
  | None => cv
  end.

Definition undo (cv : Canvas) : Canvas :=
  if decide (0 < historyIndex (hist cv))%Z
  then restore (historyIndex (hist cv) - 1) cv
  else cv.

Definition redo (cv : Canvas) : Canvas :=
  if decide (historyIndex (hist cv)
             < Z.of_nat (length (history (hist cv))) - 1)%Z
  then restore (historyIndex (hist cv) + 1) cv
  else cv.

(** The label given to a connector drawn by hand. *)
Definition onConnect_label (sourceType : string) (params : Connection)
  : string :=
  if decide (sourceType = "decision")
  then (if decide (c_targetHandle params = HId "top") then "Yes" else "No")
  else "".

Section Library.
(** [addEdge] and [reconnectEdge] are functions of the React Flow library;
    the canvas only passes its connectors through them. *)
Variable addEdge : Connection → string → list Edge → list Edge.
Variable reconnectEdge : Edge → Connection → list Edge → list Edge.

Definition onConnect (now : Z) (params : Connection) (cv : Canvas) : Canvas :=
  match onConnect_check (nodes cv) (edges cv) params with
  | NodeNotFound => cv
  | Rejected message => showErrorMessage message cv
  | Valid =>
      let sourceType :=
        from_option type "" (find_node (nodes cv) (c_source params)) in
      let newEdges :=
        addEdge params (onConnect_label sourceType params) (edges cv) in
      let renumberedNodes := renumberByFlowSequence (nodes cv) newEdges in
      {| nodes := renumberedNodes; edges := newEdges;
         hist := saveToHistory now renumberedNodes newEdges (hist cv);
         errorMessage := errorMessage cv; showError := showError cv |}
  end.

(** [onReconnect], with the deferred renumbering run right after the
    connectors are replaced; as in the source the renumbering and the
    snapshot read the connectors captured before the replacement. *)
Definition onReconnect (now : Z) (oldEdge : Edge) (newConnection : Connection)
    (cv : Canvas) : Canvas :=
  match onReconnect_check (nodes cv) (edges cv) oldEdge newConnection with
  | Valid =>
      let currentNodes := nodes cv in
      let currentEdges := edges cv in
      let renumberedNodes := renumberByFlowSequence currentNodes currentEdges in
      {| nodes := renumberedNodes;
         edges := reconnectEdge oldEdge newConnection (edges cv);
         hist := saveToHistory now renumberedNodes currentEdges (hist cv);
         errorMessage := errorMessage cv; showError := showError cv |}
  | Rejected message => showErrorMessage message cv
  | NodeNotFound => cv
  end.
End Library.

(** ** Layout *)

Section Layout.
(** The layered layout is computed by the dagre library: from the sizes
    given to the nodes and the connectors given as pairs, it returns the
    centre of every node. *)
Variable dagre : list (string * (Q * Q)) → list (string * string) →
                 string → Position.

Definition node_size (nodeType : string) : Q * Q :=
  if decide (nodeType = "decision") then (140, 100)%Q
  else if decide (nodeType = "merge") then (120, 100)%Q
  else if decide (nodeType = "start" ∨ nodeType = "end") then (120, 80)%Q
  else (180, 120)%Q.

Definition node_offset (nodeType : string) : Q * Q :=
  if decide (nodeType = "decision") then (70, 50)%Q
  else if decide (nodeType = "merge") then (60, 50)%Q
  else if decide (nodeType = "start" ∨ nodeType = "end") then (60, 40)%Q
  else (90, 60)%Q.

(** The port given to the [k]-th connector leaving a decision node. *)
Definition decision_handle (k : nat) : string :=
  default "right" (["right"; "top"; "bottom"] !! k).

Definition edgesWithHandles (nodes : list Node) (edges : list Edge)
  : list Edge :=
  imap (λ i edge,
          match find_node nodes (source edge) with
          | Some sourceNode =>
              if decide (type sourceNode = "decision"
                         ∧ sourceOutgoing edges (source edge) ≤ 3)
              then {| edge_id := edge_id edge; source := source edge;
                      target := target edge;
                      sourceHandle :=
                        HId (decision_handle
                               (sourceOutgoing (take i edges) (source edge)));
                      targetHandle := targetHandle edge;
                      edge_label := edge_label edge |}
              else edge
          | None => edge
          end) edges.

Definition getLayoutedElements (nodes : list Node) (edges : list Edge)
  : list Node * list Edge :=
  let sizes := (λ node, (id node, node_size (type node))) <$> nodes in
  let placed := edgesWithHandles nodes edges in
  let pairs := (λ edge, (source edge, target edge)) <$> placed in
  ((λ node,
      let nodeWithPosition := dagre sizes pairs (id node) in
      let '(offsetX, offsetY) := node_offset (type node) in
      {| id := id node; type := type node;
         position := {| px := Qminus (px nodeWithPosition) offsetX;
                        py := Qminus (py nodeWithPosition) offsetY |};
         targetPosition := Some "left"; sourcePosition := Some "right";
         data := data node |}) <$> nodes,
   placed).
End Layout.

(** ** Incremental merge of proposed changes *)

Record NodeSpec := {
  ns_id : option string;
  ns_type : option string;
  ns_position : option Position;
  ns_label : option string;
  ns_logical_id : option string;
  ns_owner : option string;
  ns_system : option string;
  ns_manualOrAutomated : option string
}.

Record EdgeSpec := {
  es_id : option string;
  es_source : string;
  es_target : string;
  es_condition : option string
}.

Inductive Change :=
  | add_node (node : NodeSpec)
  | update_node (node : NodeSpec)
  | add_edge (edge : EdgeSpec)
  | other_change.               (* any other [type]: no branch is taken *)

(** The arguments of the [console.warn] for a skipped connector. *)
Record OrphanEdge := {
  orphan_source : string;
  orphan_target : string;
  sourceExists : bool;
  targetExists : bool
}.

(** The sources of fresh values: the [n]-th call of [uuidv4] and of
    [Math.random]. *)
Record Oracle := {
  uuidv4 : nat → string;
  Math_random : nat → Q
}.

(** The working copies [updatedNodes] and [updatedEdges] of a batch, the
    warnings logged so far and the number of fresh values drawn. *)
Record Merge := {
  m_nodes : list Node;
  m_edges : list Edge;
  m_warnings : list OrphanEdge;
  m_calls : nat
}.

(** [given || uuidv4()] *)
Definition id_or_uuid (o : Oracle) (given : option string) (calls : nat)
  : string * nat :=
  match given with
  | Some s => if decide (s = "") then (uuidv4 o calls, S calls) else (s, calls)
  | None => (uuidv4 o calls, S calls)
  end.

Definition react_flow_type (t : option string) : string :=
  if decide (t = Some "decision") then "decision"
  else if decide (t = Some "start") then "start"
  else if decide (t = Some "end") then "end"
  else if decide (t = Some "merge") then "merge"
  else "default".

Definition new_node (o : Oracle) (spec : NodeSpec) (calls : nat) : Node * nat :=
  let '(node_id, c1) := id_or_uuid o (ns_id spec) calls in
  let '(pos, c2) :=
    match ns_position spec with
    | Some p => (p, c1)
    | None =>
        ({| px := Qplus (Qmult (Math_random o c1) 400) 100;
            py := Qplus (Qmult (Math_random o (S c1)) 300) 100 |}, S (S c1))
    end in
  let '(inner_id, c3) := id_or_uuid o (ns_id spec) c2 in
  ({| id := node_id;
      type := react_flow_type (ns_type spec);
      position := pos;
      targetPosition := None; sourcePosition := None;
      data := {| label := ns_label spec;
                 data_id := inner_id;
                 logical_id := Some (js_or (ns_logical_id spec) "");
                 owner := Some (js_or (ns_owner spec) "TBD");
                 system := Some (js_or (ns_system spec) "TBD");
                 manualOrAutomated :=
                   Some (js_or (ns_manualOrAutomated spec) "manual");
                 data_type := Some (js_or (ns_type spec) "default");
                 user_modified := Some false |} |}, c3).

(** [node.data.label = l] *)
Definition set_label (l : option string) (n : Node) : Node :=
  set_data {| label := l; data_id := data_id (data n);
              logical_id := logical_id (data n); owner := owner (data n);
              system := system (data n);
              manualOrAutomated := manualOrAutomated (data n);
              data_type := data_type (data n);
              user_modified := user_modified (data n) |} n.

(** [updatedNodes.findIndex(n => n.id === given)] *)
Definition findIndex (nodes : list Node) (given : option string) : option nat :=
  match given with
  | Some i => fst <$> list_find (λ n, id n = i) nodes
  | None => None
  end.

Definition has_node (nodes : list Node) (i : string) : bool :=
  existsb (λ n, bool_decide (id n = i)) nodes.

(** One round of the [changes.forEach] of [generateIncrementalFlow]. *)
Definition apply_change (o : Oracle) (m : Merge) (change : Change) : Merge :=
  match change with
  | add_node spec =>
      let '(newNode, calls) := new_node o spec (m_calls m) in
      {| m_nodes := m_nodes m ++ [newNode]; m_edges := m_edges m;
         m_warnings := m_warnings m; m_calls := calls |}
  | update_node spec =>
      match findIndex (m_nodes m) (ns_id spec) with
      | Some nodeIndex =>
          match m_nodes m !! nodeIndex with
          | Some node =>
              if truthy (user_modified (data node)) then m
              else {| m_nodes := <[nodeIndex := set_label (ns_label spec) node]>
                                   (m_nodes m);
                      m_edges := m_edges m; m_warnings := m_warnings m;
                      m_calls := m_calls m |}
          | None => m
          end
      | None => m
      end
  | add_edge spec =>
      let sourceExists := has_node (m_nodes m) (es_source spec) in
      let targetExists := has_node (m_nodes m) (es_target spec) in
      if sourceExists && targetExists then
        let isDecisionNode :=
          bool_decide (type <$> find_node (m_nodes m) (es_source spec)
                       = Some "decision") in
        let '(new_id, calls) := id_or_uuid o (es_id spec) (m_calls m) in
        let newEdge :=
          {| edge_id := new_id; source := es_source spec;
             target := es_target spec;
             sourceHandle := HUndefined; targetHandle := HUndefined;
             edge_label :=
               Some (if isDecisionNode
                     then js_or (es_condition spec) "Yes/No" else "") |} in
        {| m_nodes := m_nodes m; m_edges := m_edges m ++ [newEdge];
           m_warnings := m_warnings m; m_calls := calls |}
      else
        {| m_nodes := m_nodes m; m_edges := m_edges m;
           m_warnings := m_warnings m ++
             [{| orphan_source := es_source spec;
                 orphan_target := es_target spec;
                 sourceExists := sourceExists;
                 targetExists := targetExists |}];
           m_calls := m_calls m |}
  | other_change => m
  end.

Definition apply_changes (o : Oracle) (changes : list Change) (m : Merge)
  : Merge :=
  foldl (apply_change o) m changes.

(** The state of a live session: the canvas, the warnings logged and the
    fresh values drawn so far. *)
Record Live := {
  canvas : Canvas;
  logged : list OrphanEdge;
  calls : nat
}.

Section Incremental.
Variable dagre : list (string * (Q * Q)) → list (string * string) →
                 string → Position.
Variable o : Oracle.

(** [generateIncrementalFlow] from the point where the answer of the
    service has arrived with its list of [changes]. *)
Definition generateIncrementalFlow (now : Z) (changes : list Change)
    (s : Live) : Live :=
  match changes with
  | [] => s
  | _ =>
      let m := apply_changes o changes
                 {| m_nodes := nodes (canvas s); m_edges := edges (canvas s);
                    m_warnings := logged s; m_calls := calls s |} in
      let '(layoutedNodes, layoutedEdges) :=
        getLayoutedElements dagre (m_nodes m) (m_edges m) in
      {| canvas :=
           {| nodes := layoutedNodes; edges := layoutedEdges;
              hist := saveToHistory now layoutedNodes layoutedEdges
                        (hist (canvas s));
              errorMessage := errorMessage (canvas s);
              showError := showError (canvas s) |};
         logged := m_warnings m;
         calls := m_calls m |}
  end.

(** Successive batches, each with the time at which it is applied. *)
Definition generateIncrementalFlows (batches : list (Z * list Change))
    (s : Live) : Live :=
  foldl (λ s b, generateIncrementalFlow b.1 b.2 s) s batches.
End Incremental.

(** ** Scenarios used by the examples *)

(** A sequence of history operations on the canvas. *)
Inductive HistoryOp :=
  | Push (now : Z) (newNodes : list Node) (newEdges : list Edge)
  | Undo
  | Redo.

Definition history_step (cv : Canvas) (op : HistoryOp) : Canvas :=
  match op with
  | Push now newNodes newEdges =>
      {| nodes := newNodes; edges := newEdges;
         hist := saveToHistory now newNodes newEdges (hist cv);
         errorMessage := errorMessage cv; showError := showError cv |}
  | Undo => undo cv
  | Redo => redo cv
  end.

Definition initial_canvas : Canvas :=
  {| nodes := []; edges := []; hist := initial_history;
     errorMessage := ""; showError := false |}.

Definition run_history (ops : list HistoryOp) : Canvas :=
  foldl history_step initial_canvas ops.

(** A node as the toolbar creates it, and a connector as it is stored (a
    port without a name is stored as [undefined]). *)
Definition toolbar_node (i t : string) (l : option string) : Node :=
  {| id := i; type := t; position := {| px := 100%Q; py := 100%Q |};
     targetPosition := None; sourcePosition := None;
     data := {| label := Some i; data_id := i; logical_id := l;
                owner := Some "TBD"; system := Some "TBD";
                manualOrAutomated := Some "manual"; data_type := Some t;
                user_modified := None |} |}.

Definition connector (i s : string) (sh : Handle) (t : string) (th : Handle)
  : Edge :=
  {| edge_id := i; source := s; target := t; sourceHandle := sh;
     targetHandle := th; edge_label := Some "" |}.

(** [{ ...node, data: { ...node.data, logical_id: undefined } }]: a node with
    its logical id blanked, to compare nodes on all their other fields. *)
Definition without_logical_id (n : Node) : Node := with_logical_id None n.

(** Two nodes with the same id. *)
Definition twin_nodes : list Node :=
  [toolbar_node "a" "default" (Some "1.1.1.1");
   set_label (Some "second") (toolbar_node "a" "start" (Some ""))].

(** A decision node that carries a logical id of its own, between a start
    node and two process steps. *)
Definition gateway_nodes : list Node :=
  [toolbar_node "a" "default" (Some "1.1.1.1");
   toolbar_node "s" "start" (Some "");
   toolbar_node "b" "default" (Some "1.1.1.3");
   toolbar_node "d" "decision" (Some "1.1.1.2")].

Definition gateway_edges : list Edge :=
  [connector "e1" "s" HUndefined "d" (HId "left");
   connector "e2" "d" (HId "right") "b" HUndefined;
   connector "e3" "d" (HId "top") "a" HUndefined].

Definition example_oracle : Oracle :=
  {| uuidv4 := λ n, "uuid-" +:+ pretty n; Math_random := λ _, 0.5%Q |}.

Definition example_dagre : list (string * (Q * Q)) → list (string * string) →
                           string → Position :=
  λ _ _ _, {| px := 0%Q; py := 0%Q |}.

Definition connection (s : string) (sh : Handle) (t : string) (th : Handle)
  : Connection :=
  {| c_source := s; c_target := t;
     c_sourceHandle := sh; c_targetHandle := th |}.

(** A proposed connector reuses an existing one: same anchor points, or the
    same port on one side. *)
Definition same_anchor (p : Connection) (e : Edge) : Prop :=
  source e = c_source p ∧ target e = c_target p
  ∧ sourceHandle e = c_sourceHandle p ∧ targetHandle e = c_targetHandle p.

Definition source_handle_taken (p : Connection) (e : Edge) : Prop :=
  source e = c_source p ∧ sourceHandle e = c_sourceHandle p.

Definition target_handle_taken (p : Connection) (e : Edge) : Prop :=
  target e = c_target p ∧ targetHandle e = c_targetHandle p.

(** Start, a process step and a merge node; the step already feeds the
    merge node through its top port. *)
Definition merge_nodes : list Node :=
  [toolbar_node "s" "start" (Some "");
   toolbar_node "p" "default" (Some "1.1.1.1");
   toolbar_node "m" "merge" (Some "")].

Definition merge_edges : list Edge :=
  [connector "e1" "p" HUndefined "m" (HId "top")].

(** A decision with two of its three exits in use. *)
Definition decision_nodes : list Node :=
  [toolbar_node "d" "decision" (Some "");
   toolbar_node "p1" "default" (Some "1.1.1.1");
   toolbar_node "p2" "default" (Some "1.1.1.2")].

Definition decision_edges : list Edge :=
  [connector "e1" "d" (HId "right") "p1" HUndefined;
   connector "e2" "d" (HId "top") "p2" HUndefined].

(** A start node that already has its one outgoing connector. *)
Definition start_nodes : list Node :=
  [toolbar_node "s" "start" (Some "");
   toolbar_node "a" "default" (Some "1.1.1.1");
   toolbar_node "b" "default" (Some "1.1.1.2")].

Definition start_edges : list Edge :=
  [connector "e1" "s" HUndefined "a" HUndefined].

Definition bare_spec (i : string) (l : string) : NodeSpec :=
  {| ns_id := Some i; ns_type := None; ns_position := None; ns_label := Some l;
     ns_logical_id := None; ns_owner := None; ns_system := None;
     ns_manualOrAutomated := None |}.

Definition working (ns : list Node) (es : list Edge) : Merge :=
  {| m_nodes := ns; m_edges := es; m_warnings := []; m_calls := 0 |}.

(** ** Reachability *)

(** One step of the traversal: from a node along one of its connectors. *)
Definition edge_step (nodes : list Node) (edges : list Edge)
    (x y : string) : Prop :=
  x ∈ id <$> nodes ∧ ∃ e, e ∈ edges ∧ source e = x ∧ target e = y.

(** [y] is a node that can be reached from one of the start nodes, passing
    only through nodes. *)
Definition reachable (nodes : list Node) (edges : list Edge) (y : string)
  : Prop :=
  y ∈ id <$> nodes
  ∧ ∃ s, s ∈ id <$> actual_starts nodes edges
         ∧ rtc (edge_step nodes edges) s y.

(** ** The limits of the connection rules *)

(** The number of connectors a node of each type may send out and take in,
    as [onConnect] and [onReconnect] compare the counts with them; no limit
    where no rule compares. *)
Definition max_outgoing (nodeType : string) : option nat :=
  if decide (nodeType = "start") then Some 1
  else if decide (nodeType = "end") then Some 0
  else if decide (nodeType = "default") then Some 1
  else if decide (nodeType = "decision") then Some 3
  else None.

Definition max_incoming (nodeType : string) : option nat :=
  if decide (nodeType = "start") then Some 0
  else if decide (nodeType = "default") then Some 1
  else if decide (nodeType = "decision") then Some 1
  else None.

Definition within (count : nat) (limit : option nat) : Prop :=
  match limit with Some most => count ≤ most | None => True end.

(** Every node has no more connectors than its type allows. *)
Definition degree_ok (nodes : list Node) (edges : list Edge) : Prop :=
  ∀ n, n ∈ nodes →
    within (sourceOutgoing edges (id n)) (max_outgoing (type n))
    ∧ within (targetIncoming edges (id n)) (max_incoming (type n)).

(** Every connector joins two nodes of the canvas. *)
Definition no_dangling (nodes : list Node) (edges : list Edge) : Prop :=
  ∀ e, e ∈ edges → source e ∈ id <$> nodes ∧ target e ∈ id <$> nodes.

(** ** Editing the canvas by hand *)

(** [setNodes(newNodes); setEdges(newEdges); saveToHistory(newNodes, newEdges)],
    the way every edit below ends. *)
Definition commit (now : Z) (newNodes : list Node) (newEdges : list Edge)
    (cv : Canvas) : Canvas :=
  {| nodes := newNodes; edges := newEdges;
     hist := saveToHistory now newNodes newEdges (hist cv);
     errorMessage := errorMessage cv; showError := showError cv |}.


(** [handleEdgeDelete], from the editor of a connector's label. *)
Definition handleEdgeDelete (now : Z) (selectedEdge : option Edge)
    (cv : Canvas) : Canvas :=
  match selectedEdge with
  | Some selectedEdge =>
      let newEdges :=
        filter (λ edge, edge_id edge ≠ edge_id selectedEdge) (edges cv) in
      let renumberedNodes := renumberByFlowSequence (nodes cv) newEdges in
      commit now renumberedNodes newEdges cv
  | None => cv
  end.

(** [handleEdgeClick] with the delete tool; its other branches change the
    selection and the insertion target only. *)
Definition handleEdgeClick (now : Z) (selectedTool : string) (edge : Edge)
    (cv : Canvas) : Canvas :=
  if decide (selectedTool = "delete") then
    let newEdges := filter (λ e, edge_id e ≠ edge_id edge) (edges cv) in
    let renumberedNodes := renumberByFlowSequence (nodes cv) newEdges in
    commit now renumberedNodes newEdges cv
  else cv.

(** [deleteSelectedEdges], with the ids of the selected connectors. *)
Definition deleteSelectedEdges (now : Z) (selectedEdges : list string)
    (cv : Canvas) : Canvas :=
  if decide (0 < length selectedEdges) then
    let newEdges :=
      filter (λ edge, edge_id edge ∉ selectedEdges) (edges cv) in
    let renumberedNodes := renumberByFlowSequence (nodes cv) newEdges in
    commit now renumberedNodes newEdges cv
  else cv.

(** ** Inserting a node into a connector *)

(** [{ ...node, position: p }] *)
Definition set_position (p : Position) (n : Node) : Node :=
  {| id := id n; type := type n; position := p;
     targetPosition := targetPosition n; sourcePosition := sourcePosition n;
     data := data n |}.

(** A connector as [handleMidStepInsertion] builds it: no handles and no
    label. *)
Definition step_edge (i s t : string) : Edge :=
  {| edge_id := i; source := s; target := t; sourceHandle := HUndefined;
     targetHandle := HUndefined; edge_label := None |}.

(** [handleMidStepInsertion]; [now1] and [now2] are the two readings of
    [Date.now()] that go into the ids of the new connectors. *)
Definition handleMidStepInsertion (now1 now2 : Z) (newNode : Node)
    (targetEdge : option Edge) (nodes : list Node) (edges : list Edge)
  : list Node * list Edge :=
  match targetEdge with
  | None => (nodes, edges)
  | Some targetEdge =>
      match find_node nodes (source targetEdge),
            find_node nodes (target targetEdge) with
      | Some sourceNode, Some targetNode =>
          let newNodeWithPosition :=
            set_position
              {| px := Qdiv (Qplus (px (position sourceNode))
                                   (px (position targetNode))) 2;
                 py := Qdiv (Qplus (py (position sourceNode))
                                   (py (position targetNode))) 2 |}
              newNode in
          let filteredEdges :=
            filter (λ e, edge_id e ≠ edge_id targetEdge) edges in
          let edge1 :=
            step_edge ("e-" +:+ pretty now1 +:+ "-1")
                      (source targetEdge) (id newNode) in
          let edge2 :=
            step_edge ("e-" +:+ pretty now2 +:+ "-2")
                      (id newNode) (target targetEdge) in
          let newNodes := nodes ++ [newNodeWithPosition] in
          let newEdges := filteredEdges ++ [edge1; edge2] in
          let renumberedNodes := renumberByFlowSequence newNodes newEdges in
          (renumberedNodes, newEdges)
      | _, _ => (nodes, edges)
      end
  end.

(** ** Closure of the visits *)

(** What a call of the traversal leaves behind: every node visited since
    [seen] has all its successors among the keys visited. *)
Definition closed_from (keys : gset string)
    (adjacency : gmap string (list string)) (seen result : list string)
  : Prop :=
  ∀ z y, z ∈ result → z ∉ seen → y ∈ default [] (adjacency !! z) →
         y ∈ keys → y ∈ result.

(** ** The logical id proposed for a new step *)

(** [s.split(c)] for a separator of one character. *)
Fixpoint split_on (c : Ascii.ascii) (s : string) : list string :=
  match s with
  | EmptyString => [EmptyString]
  | String a rest =>
      if Ascii.eqb a c then EmptyString :: split_on c rest
      else match split_on c rest with
           | part :: parts => String a part :: parts
           | [] => [String a EmptyString]
           end
  end.

(** The character [.] *)
Definition dot : Ascii.ascii := Ascii.ascii_of_nat 46.

(** [x.toString()] for the result of [parseInt]: an integer that JavaScript
    holds exactly, or NaN. *)
Definition number_toString (x : option Z) : string :=
  match x with
  | Some k => pretty k
  | None => "NaN"
  end.

(** One round of the loop of [getNextLogicalId]: [a > b] on strings compares
    them character by character. *)
Definition higher_id (maxId : string) (node : Node) : string :=
  match logical_id (data node) with
  | Some logicalId =>
      if bool_decide (logicalId ≠ "") && String.prefix "1.1.1." logicalId
         && String.ltb maxId logicalId
      then logicalId else maxId
  | None => maxId
  end.

Section NextLogicalId.
(** [parseInt] is a built-in of the language; [None] stands for NaN. *)
Variable parseInt : string → option Z.

(** The lines of [getNextLogicalId] after its loop. *)
Definition increment_last (maxId : string) : string :=
  let parts := split_on dot maxId in
  if decide (4 ≤ length parts) then
    let lastNum := parseInt (default "" (last parts)) in
    String.concat "."
      (<[length parts - 1 := number_toString (Z.add 1 <$> lastNum)]> parts)
  else "1.1.1.1".

Definition getNextLogicalId (existingNodes : list Node) : string :=
  if decide (length existingNodes = 0) then "1.1.1.1"
  else increment_last (foldl higher_id "1.1.1.0" existingNodes).
End NextLogicalId.

(** [parseInt] on the strings that hold decimal digits only, or that do not
    start with a digit. *)
Definition decimal_digit (a : Ascii.ascii) : option Z :=
  let n := Ascii.nat_of_ascii a in
  if bool_decide (48 ≤ n ≤ 57) then Some (Z.of_nat (n - 48)) else None.

Fixpoint decimal_digits (acc : option Z) (s : string) : option Z :=
  match s with
  | EmptyString => acc
  | String a rest =>
      match decimal_digit a with
      | Some d => decimal_digits (Some (10 * default 0 acc + d)%Z) rest
      | None => acc
      end
  end.

Definition decimal_parseInt (s : string) : option Z := decimal_digits None s.

(** The logical ids that start with [1.1.1.] are [1.1.1.k] with [k] up to
    [bound]. *)
Definition numbers_below (bound : nat) (nodes : list Node) : Prop :=
  ∀ n l, n ∈ nodes → logical_id (data n) = Some l →
         String.prefix "1.1.1." l = true →
         ∃ k, k ≤ bound ∧ l = "1.1.1." +:+ pretty k.

(** Ten process steps in a row, numbered as the renumbering numbers them. *)
Definition ten_steps : list Node :=
  (λ k, toolbar_node ("n" +:+ pretty k) "default"
          (Some ("1.1.1." +:+ pretty k))) <$> seq 1 10.

(** ** Well-formed canvases *)

(** The canvas is well formed: distinct node ids, no dangling connector,
    and every node within the limits of its type. *)
Definition well_formed (nodes : list Node) (edges : list Edge) : Prop :=
  NoDup (id <$> nodes) ∧ no_dangling nodes edges ∧ degree_ok nodes edges.

(** What the canvas relies on from [addEdge]: it returns the connectors
    unchanged, or with one connector appended that joins the end points of
    the connection. *)
Definition appends_connection
    (addEdge : Connection → string → list Edge → list Edge) : Prop :=
  ∀ params l es,
    addEdge params l es = es
    ∨ ∃ e, addEdge params l es = es ++ [e]
           ∧ source e = c_source params ∧ target e = c_target params.

(** [addEdge] for a connection between anonymous handles. *)
Definition plain_addEdge (params : Connection) (l : string) (es : list Edge)
  : list Edge :=
  es ++ [{| edge_id := "xy-edge__" +:+ c_source params +:+ "-"
                       +:+ c_target params;
            source := c_source params; target := c_target params;
            sourceHandle := HUndefined; targetHandle := HUndefined;
            edge_label := Some l |}].

(** ** Deleting the selection *)



(** * Properties *)

Lemma assign_logical_id_id c n : id (assign_logical_id c n).1 = id n.
Proof. unfold assign_logical_id. by destruct (keeps_logical_id _). Qed.

Lemma assign_logical_id_type c n : type (assign_logical_id c n).1 = type n.
Proof. unfold assign_logical_id. by destruct (keeps_logical_id _). Qed.

Lemma assign_logical_id_counter c n :
  (assign_logical_id c n).2 = if is_numbered n then S c else c.
Proof.
  unfold assign_logical_id, is_numbered. by destruct (keeps_logical_id _).
Qed.

Lemma number_from_app c l1 l2 :
  number_from c (l1 ++ l2) =
  ((number_from c l1).1 ++ (number_from (number_from c l1).2 l2).1,
   (number_from (number_from c l1).2 l2).2).
Proof.
  revert c. induction l1 as [|n l1 IH]; intros c; simpl.
  - by destruct (number_from c l2).
  - destruct (assign_logical_id c n) as [n' c'] eqn:Hn.
    rewrite (IH c'). destruct (number_from c' l1) as [r c'']. simpl.
    by destruct (number_from c'' l2).
Qed.

Lemma number_from_counter c l :
  (number_from c l).2 = c + count_numbered l.
Proof.
  revert c. induction l as [|n l IH]; intros c; simpl.
  - unfold count_numbered. simpl. lia.
  - pose proof (assign_logical_id_counter c n) as Hc.
    destruct (assign_logical_id c n) as [n' c'] eqn:Hn. simpl in Hc.
    specialize (IH c'). destruct (number_from c' l) as [r c'']. simpl in *.
    unfold count_numbered in *. rewrite filter_cons.
    destruct (is_numbered n); subst c'; case_decide; simpl; try done; lia.
Qed.

Lemma number_from_length c l : length (number_from c l).1 = length l.
Proof.
  revert c. induction l as [|n l IH]; intros c; simpl; [done|].
  destruct (assign_logical_id c n) as [n' c'].
  specialize (IH c'). destruct (number_from c' l). simpl in *. by f_equal.
Qed.

Lemma number_from_lookup c l i n' :
  (number_from c l).1 !! i = Some n' →
  ∃ n, l !! i = Some n ∧
       n' = (assign_logical_id (c + count_numbered (take i l)) n).1.
Proof.
  revert c i. induction l as [|n l IH]; intros c i; simpl; [done|].
  pose proof (assign_logical_id_counter c n) as Hc.
  destruct (assign_logical_id c n) as [m c'] eqn:Hn. simpl in Hc.
  destruct (number_from c' l) as [r c''] eqn:Hr. simpl.
  destruct i as [|i]; simpl.
  - intros [= <-]. exists n. split; [done|].
    unfold count_numbered. simpl. by rewrite Nat.add_0_r, Hn.
  - intros Hi. specialize (IH c' i). rewrite Hr in IH.
    destruct (IH Hi) as (n0 & Hl & ->). exists n0. split; [done|].
    f_equal. f_equal. unfold count_numbered. rewrite filter_cons.
    destruct (is_numbered n); subst c'; case_decide; simpl; try done; lia.
Qed.

Lemma number_from_ids c l : id <$> (number_from c l).1 = id <$> l.
Proof.
  revert c. induction l as [|n l IH]; intros c; simpl; [done|].
  pose proof (assign_logical_id_id c n) as Hi.
  destruct (assign_logical_id c n) as [n' c'].
  specialize (IH c'). destruct (number_from c' l). simpl in *. by f_equal.
Qed.

(** ** The traversal and the order of the visits *)

Lemma push_node_represents nodeMap seen st x n :
  represents nodeMap seen st → nodeMap !! x = Some n →
  represents nodeMap (seen ++ [x]) (push_node (Some x) n st).
Proof.
  intros (Hv & Hu & Hc) Hx. unfold represents, push_node.
  rewrite omap_app. simpl. rewrite Hx. simpl.
  rewrite number_from_app. simpl. rewrite <- Hc.
  destruct (assign_logical_id (counter st) n) as [n' c]. simpl.
  split; [|by rewrite Hu]. rewrite Hv, list_to_set_snoc_L. apply (comm_L (∪)).
Qed.

Lemma traverseFlow_represents nodeMap adjacency fuel x seen st :
  represents nodeMap seen st →
  represents nodeMap (walk (dom nodeMap) adjacency fuel x seen)
             (traverseFlow fuel nodeMap adjacency x st).
Proof.
  revert x seen st. induction fuel as [|fuel IH]; intros x seen st Hr; [done|].
  simpl. assert (x ∈ visited st ↔ x ∈ seen) as Hin.
  { destruct Hr as [-> _]. apply elem_of_list_to_set. }
  destruct (decide (x ∈ visited st)) as [Hv|Hv],
    (decide (x ∈ seen)) as [Hs|Hs]; try tauto; try done.
  destruct (nodeMap !! x) as [n|] eqn:Hx.
  - rewrite decide_True by (apply elem_of_dom; eauto).
    pose proof (push_node_represents nodeMap seen st x n Hr Hx) as Hr'.
    revert Hr'. generalize (push_node (Some x) n st). generalize (seen ++ [x]).
    induction (default [] (adjacency !! x)) as [|y ys IHys];
      intros seen' st' Hr'; simpl; [done|].
    apply IHys. by apply IH.
  - rewrite decide_False; [done|]. rewrite elem_of_dom, Hx. by intros [? ?].
Qed.

Lemma traverseFlow_starts nodeMap adjacency fuel starts seen st :
  represents nodeMap seen st →
  represents nodeMap
    (walks (dom nodeMap) adjacency fuel (id <$> starts) seen)
    (foldl (λ s startNode, traverseFlow fuel nodeMap adjacency (id startNode) s)
           st starts).
Proof.
  revert seen st.
  induction starts as [|n starts IH]; intros seen st Hr; [done|].
  simpl. apply IH. by apply traverseFlow_represents.
Qed.

Lemma push_node_None n st :
  visited (push_node None n st) = visited st
  ∧ updatedNodes (push_node None n st)
    = updatedNodes st ++ [(assign_logical_id (counter st) n).1]
  ∧ counter (push_node None n st) = (assign_logical_id (counter st) n).2.
Proof. unfold push_node. by destruct (assign_logical_id (counter st) n). Qed.

Lemma remaining_nodes_pushed l st :
  let final := foldl (λ s node, if decide (id node ∈ visited s) then s
                                else push_node None node s) st l in
  let rest := filter (λ node, id node ∉ visited st) l in
  visited final = visited st
  ∧ updatedNodes final = updatedNodes st ++ (number_from (counter st) rest).1
  ∧ counter final = (number_from (counter st) rest).2.
Proof.
  revert st. induction l as [|n l IH]; intros st; simpl.
  - by rewrite app_nil_r.
  - rewrite filter_cons. destruct (decide (id n ∈ visited st)) as [Hin|Hin].
    + rewrite decide_False by tauto. apply IH.
    + rewrite decide_True by done. simpl.
      destruct (IH (push_node None n st)) as (Hv & Hu & Hc).
      destruct (push_node_None n st) as (Hv' & Hu' & Hc').
      rewrite Hv, Hu, Hc, Hv', Hu', Hc'.
      destruct (assign_logical_id (counter st) n) as [n' c]. simpl.
      destruct (number_from c (filter (λ node, id node ∉ visited st) l))
        as [r c'] eqn:Hr. simpl.
      split; [done|]. split; [|done]. by rewrite <- app_assoc.
Qed.

Lemma actual_starts_cons first rest edges :
  actual_starts (first :: rest) edges
  = let startNodes :=
      filter (λ node, id node ∉ (list_to_set (target <$> edges) : gset string))
             (first :: rest) in
    match startNodes with
    | [] => [first]
    | _ => startNodes
    end.
Proof.
  unfold actual_starts.
  rewrite (list_filter_iff
             (λ node, ¬ has_incoming edges (id node))
             (λ node, id node ∉ (list_to_set (target <$> edges)
                                 : gset string))).
  - done.
  - intros n. unfold has_incoming. by rewrite elem_of_list_to_set.
Qed.

(** The output of the renumbering: the nodes, arranged in the order of the
    pushes, numbered one after the other from 1. *)
Lemma renumberWithFuel_arrange fuel nodes edges :
  renumberWithFuel fuel nodes edges
  = (number_from 1 (arrange fuel nodes edges)).1.
Proof.
  destruct nodes as [|first rest]; [done|].
  unfold renumberWithFuel, arrange, visit_order.
  rewrite actual_starts_cons.
  set (nodes := first :: rest).
  set (starts := match filter _ nodes with [] => [first] | _ => _ end).
  set (nodeMap := build_nodeMap nodes).
  set (adjacency := build_adjacency edges).
  set (init := {| visited := ∅; updatedNodes := []; counter := 1 |}).
  assert (represents nodeMap [] init) as H0 by done.
  pose proof (traverseFlow_starts nodeMap adjacency fuel starts [] init H0)
    as (Hv & Hu & Hc).
  set (order := walks (dom nodeMap) adjacency fuel (id <$> starts) []) in *.
  set (traversed := foldl _ init starts) in *.
  destruct (remaining_nodes_pushed nodes traversed) as (_ & Hfinal & _).
  rewrite Hfinal, Hu, Hc.
  rewrite (list_filter_iff (λ node, id node ∉ visited traversed)
             (λ node, id node ∉ order))
    by (intros n; by rewrite Hv, elem_of_list_to_set).
  by rewrite number_from_app.
Qed.

(** ** Lists *)

Lemma filter_none {A} (P : A → Prop) `{∀ x, Decision (P x)} (l : list A) :
  Forall (λ x, ¬ P x) l → filter P l = [].
Proof.
  induction 1 as [|x l Hx _ IH]; [done|].
  by rewrite filter_cons, decide_False.
Qed.

Lemma filter_all {A} (P : A → Prop) `{∀ x, Decision (P x)} (l : list A) :
  Forall P l → filter P l = l.
Proof.
  induction 1 as [|x l Hx _ IH]; [done|].
  by rewrite filter_cons, decide_True, IH.
Qed.

Lemma filter_fmap_id {A B} (f : A → B) (P : B → Prop) `{∀ y, Decision (P y)}
    (l : list A) :
  f <$> filter (λ x, P (f x)) l = filter P (f <$> l).
Proof.
  induction l as [|x l IH]; [done|]. csimpl. rewrite !filter_cons.
  destruct (decide (P (f x))); csimpl; by rewrite IH.
Qed.

Lemma omap_lookup_own {A B} (f : B → option A) (g : A → B) (l : list A) :
  Forall (λ x, f (g x) = Some x) l → omap f (g <$> l) = l.
Proof.
  induction 1 as [|x l Hx _ IH]; [done|]. csimpl. by rewrite Hx, IH.
Qed.

(** ** Properties of the order of the visits *)

Section WalkFacts.
Variable keys : gset string.
Variable adjacency : gmap string (list string).

Abbreviation walk := (walk keys adjacency).
Abbreviation walks := (walks keys adjacency).
Abbreviation unseen := (unseen keys).

Lemma walk_S fuel x seen :
  walk (S fuel) x seen
  = if decide (x ∈ seen) then seen
    else if decide (x ∈ keys) then
      walks fuel (default [] (adjacency !! x)) (seen ++ [x])
    else seen.
Proof. done. Qed.

Lemma walks_cons fuel x starts seen :
  walks fuel (x :: starts) seen = walks fuel starts (walk fuel x seen).
Proof. done. Qed.

Lemma walks_app fuel l1 l2 seen :
  walks fuel (l1 ++ l2) seen = walks fuel l2 (walks fuel l1 seen).
Proof. apply foldl_app. Qed.

(** The ids visited by the calls on [starts], given what one call does. *)
Lemma walks_extends_from fuel (P : string → Prop) :
  (∀ x seen, P x → ∃ w, walk fuel x seen = seen ++ w
                        ∧ Forall (λ y, P y ∧ fresh keys seen y) w ∧ NoDup w) →
  ∀ starts seen, Forall P starts →
    ∃ w, walks fuel starts seen = seen ++ w
         ∧ Forall (λ y, P y ∧ fresh keys seen y) w ∧ NoDup w.
Proof.
  intros Hone starts. induction starts as [|x starts IH]; intros seen Hst.
  - exists []. rewrite app_nil_r. split; [done|]. split; constructor.
  - apply Forall_cons in Hst as [Hx Hst]. rewrite walks_cons.
    destruct (Hone x seen Hx) as (w1 & -> & Hw1 & Hnd1).
    destruct (IH (seen ++ w1) Hst) as (w2 & -> & Hw2 & Hnd2).
    exists (w1 ++ w2). rewrite app_assoc. split; [done|]. split.
    + apply Forall_app. split; [done|].
      eapply Forall_impl; [exact Hw2|]. intros y (? & ? & Hy).
      split; [done|]. split; [done|]. rewrite elem_of_app in Hy. tauto.
    + apply NoDup_app. split; [done|]. split; [|done].
      intros y Hy1 Hy2. rewrite Forall_forall in Hw2.
      destruct (Hw2 y Hy2) as (_ & _ & Hy). rewrite elem_of_app in Hy. tauto.
Qed.

Lemma walk_extends_any fuel (P : string → Prop) :
  (∀ s l y, adjacency !! s = Some l → y ∈ l → P y) →
  ∀ x seen, P x →
    ∃ w, walk fuel x seen = seen ++ w
         ∧ Forall (λ y, P y ∧ fresh keys seen y) w ∧ NoDup w.
Proof.
  intros HP.
  assert (∀ seen : list string,
            ∃ w, seen = seen ++ w
                 ∧ Forall (λ y, P y ∧ fresh keys seen y) w ∧ NoDup w) as Hnone.
  { intros seen. exists []. rewrite app_nil_r.
    split; [done|]. split; constructor. }
  induction fuel as [|fuel IH]; intros x seen Hx; [apply Hnone|].
  - rewrite walk_S.
    destruct (decide (x ∈ seen)) as [Hin|Hin]; [apply Hnone|].
    destruct (decide (x ∈ keys)) as [Hk|Hk]; [|apply Hnone].
    assert (Forall P (default [] (adjacency !! x))) as Hsucc.
    { destruct (adjacency !! x) as [l|] eqn:E; simpl; [|done].
      apply Forall_forall. intros y Hy. by eapply HP. }
    destruct (walks_extends_from fuel P IH _ (seen ++ [x]) Hsucc)
      as (w & -> & Hw & Hnd).
    exists (x :: w). rewrite <- app_assoc. split; [done|].
    rewrite Forall_forall in Hw. split.
    + apply Forall_cons. split; [done|]. apply Forall_forall.
      intros y Hy. destruct (Hw y Hy) as (? & ? & Hy').
      split; [done|]. split; [done|]. rewrite elem_of_app in Hy'. tauto.
    + apply NoDup_cons. split; [|done]. intros Hy.
      destruct (Hw x Hy) as (_ & _ & Hy'). apply Hy'.
      rewrite elem_of_app, list_elem_of_singleton. tauto.
Qed.

Lemma walk_extends fuel x seen :
  ∃ w, walk fuel x seen = seen ++ w ∧ Forall (fresh keys seen) w ∧ NoDup w.
Proof.
  destruct (walk_extends_any fuel (λ _, True) (λ _ _ _ _ _, I) x seen I)
    as (w & Hw & Hf & Hnd).
  exists w. split; [done|]. split; [|done].
  eapply Forall_impl; [exact Hf|]. by intros y [_ ?].
Qed.

Lemma walks_extends fuel starts seen :
  ∃ w, walks fuel starts seen = seen ++ w
       ∧ Forall (fresh keys seen) w ∧ NoDup w.
Proof.
  destruct (walks_extends_from fuel (λ _, True)
              (walk_extends_any fuel (λ _, True) (λ _ _ _ _ _, I)) starts seen)
    as (w & Hw & Hf & Hnd).
  { by apply Forall_forall. }
  exists w. split; [done|]. split; [|done].
  eapply Forall_impl; [exact Hf|]. by intros y [_ ?].
Qed.

Lemma walk_skip fuel x seen : x ∈ seen ∨ x ∉ keys → walk fuel x seen = seen.
Proof.
  intros H. destruct fuel as [|fuel]; [done|]. rewrite walk_S.
  destruct (decide (x ∈ seen)); [done|]. rewrite decide_False; [done|tauto].
Qed.

Section Successors.
(** A property of every id that some node lists as a successor. *)
Variable Q : string → Prop.
Hypothesis Q_successors :
  ∀ s l y, adjacency !! s = Some l → y ∈ l → Q y.

Lemma successors_Q x : Forall Q (default [] (adjacency !! x)).
Proof.
  destruct (adjacency !! x) as [l|] eqn:E; simpl; [|done].
  apply Forall_forall. intros y Hy. by eapply Q_successors.
Qed.

(** A visit puts the id first; everything after it is a successor of some
    node. *)
Lemma walk_visit fuel x seen :
  x ∉ seen → x ∈ keys →
  ∃ w, walk (S fuel) x seen = seen ++ x :: w
       ∧ Forall (λ y, Q y ∧ fresh keys (seen ++ [x]) y) w ∧ NoDup w.
Proof.
  intros Hin Hk. rewrite walk_S, decide_False, decide_True by done.
  destruct (walks_extends_from fuel Q (walk_extends_any fuel Q Q_successors)
              (default [] (adjacency !! x)) (seen ++ [x]) (successors_Q x))
    as (w & -> & Hw & Hnd).
  exists w. by rewrite <- app_assoc.
Qed.

Context `{∀ y, Decision (Q y)}.

(** When every start is free of [Q] (no node lists it as a successor), the
    starts that matter can be read off the order of the visits: they are
    the visited ids free of [Q], and starting from those gives the same
    order again. *)
Lemma walks_from_roots fuel starts seen :
  Forall (λ s, ¬ Q s) starts →
  ∃ w, walks (S fuel) starts seen = seen ++ w
       ∧ walks (S fuel) (filter (λ y, ¬ Q y) w) seen = seen ++ w.
Proof.
  revert seen. induction starts as [|s starts IH]; intros seen Hst.
  - exists []. by rewrite app_nil_r.
  - apply Forall_cons in Hst as [Hs Hst]. rewrite walks_cons.
    destruct (decide (s ∈ seen)) as [Hin|Hin];
      [rewrite walk_skip by tauto; by apply IH|].
    destruct (decide (s ∈ keys)) as [Hk|Hk];
      [|rewrite walk_skip by tauto; by apply IH].
    destruct (walk_visit fuel s seen Hin Hk) as (w1 & Hw1 & HQ & _).
    rewrite Hw1. destruct (IH (seen ++ s :: w1) Hst) as (w2 & Hw2 & Hre).
    exists (s :: w1 ++ w2).
    rewrite Hw2, <- app_assoc. split; [done|].
    rewrite filter_cons, decide_True, filter_app by done.
    rewrite (filter_none (λ y, ¬ Q y) w1)
      by (eapply Forall_impl; [exact HQ|]; intros y [? _]; tauto).
    rewrite app_nil_l, walks_cons, Hw1, Hre. by rewrite <- app_assoc.
Qed.
End Successors.

Lemma walks_prefix fuel starts seen x :
  x ∈ seen → x ∈ walks fuel starts seen.
Proof.
  intros Hx. destruct (walks_extends fuel starts seen) as (w & -> & _).
  apply elem_of_app. by left.
Qed.

(** With any fuel at all, every start that is a key gets visited. *)
Lemma walks_visits_starts fuel starts seen s :
  s ∈ starts → s ∈ keys → s ∈ walks (S fuel) starts seen.
Proof.
  revert seen. induction starts as [|x starts IH]; intros seen Hs Hk.
  - by apply elem_of_nil in Hs.
  - rewrite walks_cons. apply elem_of_cons in Hs as [->|Hs]; [|by apply IH].
    apply walks_prefix. destruct (decide (x ∈ seen)) as [Hin|Hin].
    + by rewrite walk_skip by tauto.
    + destruct (walk_visit (λ _, True) (λ _ _ _ _ _, I) fuel x seen Hin Hk)
        as (w & -> & _).
      apply elem_of_app. right. apply list_elem_of_here.
Qed.

Lemma walk_NoDup fuel x seen : NoDup seen → NoDup (walk fuel x seen).
Proof.
  intros Hnd. destruct (walk_extends fuel x seen) as (w & -> & Hw & Hndw).
  apply NoDup_app. split; [done|]. split; [|done].
  intros y Hy Hy'. rewrite Forall_forall in Hw. by destruct (Hw y Hy').
Qed.

Lemma walks_NoDup fuel starts seen :
  NoDup seen → NoDup (walks fuel starts seen).
Proof.
  intros Hnd. destruct (walks_extends fuel starts seen) as (w & -> & Hw & Hndw).
  apply NoDup_app. split; [done|]. split; [|done].
  intros y Hy Hy'. rewrite Forall_forall in Hw. by destruct (Hw y Hy').
Qed.

(** *** Enough fuel *)

Lemma unseen_le seen : unseen seen ≤ size keys.
Proof.
  apply subseteq_size. intros y. rewrite elem_of_difference. tauto.
Qed.

Lemma unseen_app seen w : unseen (seen ++ w) ≤ unseen seen.
Proof.
  apply subseteq_size. rewrite list_to_set_app_L. intros y.
  rewrite !elem_of_difference, elem_of_union. tauto.
Qed.

Lemma unseen_visit seen x :
  x ∈ keys → x ∉ seen → unseen (seen ++ [x]) < unseen seen.
Proof.
  intros Hk Hin. apply subset_size. rewrite list_to_set_app_L.
  split.
  { intros y. rewrite !elem_of_difference, elem_of_union. tauto. }
  intros Hsub. specialize (Hsub x).
  rewrite !elem_of_difference, elem_of_union, !elem_of_list_to_set in Hsub.
  rewrite list_elem_of_singleton in Hsub. tauto.
Qed.

Lemma walks_fuel_from f :
  (∀ x seen, unseen seen < f → walk f x seen = walk (S f) x seen) →
  ∀ starts seen, unseen seen < f →
    walks f starts seen = walks (S f) starts seen.
Proof.
  intros Hone starts. induction starts as [|x starts IH]; intros seen Hlt;
    [done|].
  rewrite !walks_cons, <- (Hone x seen Hlt). apply IH.
  destruct (walk_extends f x seen) as (w & -> & _).
  pose proof (unseen_app seen w). lia.
Qed.

Lemma walk_fuel_S f x seen :
  unseen seen < f → walk f x seen = walk (S f) x seen.
Proof.
  revert x seen. induction f as [|f IH]; intros x seen Hlt; [lia|].
  rewrite (walk_S (S f)), (walk_S f).
  destruct (decide (x ∈ seen)) as [Hin|Hin]; [done|].
  destruct (decide (x ∈ keys)) as [Hk|Hk]; [|done].
  apply (walks_fuel_from f IH).
  pose proof (unseen_visit seen x Hk Hin). lia.
Qed.

Lemma walk_fuel f f' x seen :
  size keys < f → f ≤ f' → walk f x seen = walk f' x seen.
Proof.
  intros Hf Hle. induction Hle as [|f' Hle IH]; [done|].
  rewrite IH. apply walk_fuel_S. pose proof (unseen_le seen). lia.
Qed.

Lemma walks_fuel f f' starts seen :
  size keys < f → size keys < f' →
  walks f starts seen = walks f' starts seen.
Proof.
  intros Hf Hf'. revert seen.
  induction starts as [|x starts IH]; intros seen; [done|].
  rewrite !walks_cons, IH. f_equal.
  destruct (decide (f ≤ f')).
  - by apply walk_fuel.
  - symmetry. apply walk_fuel; [done|lia].
Qed.
End WalkFacts.

(** ** The node map and the adjacency lists *)

Lemma build_nodeMap_snoc l n :
  build_nodeMap (l ++ [n]) = <[id n := n]> (build_nodeMap l).
Proof. unfold build_nodeMap. by rewrite foldl_snoc. Qed.

Lemma build_nodeMap_lookup l x n :
  build_nodeMap l !! x = Some n → id n = x ∧ n ∈ l.
Proof.
  revert n. induction l as [|m l IH] using rev_ind; intros n; [done|].
  rewrite build_nodeMap_snoc, lookup_insert. case_decide as Hx.
  - intros [= <-]. split; [done|]. apply elem_of_app. right.
    apply list_elem_of_here.
  - intros H. destruct (IH n H) as [? ?]. split; [done|].
    apply elem_of_app. by left.
Qed.

Lemma build_nodeMap_dom l :
  dom (build_nodeMap l) = list_to_set (id <$> l).
Proof.
  induction l as [|m l IH] using rev_ind; [done|].
  rewrite build_nodeMap_snoc, dom_insert_L, IH, fmap_app, list_to_set_app_L.
  simpl. rewrite (right_id_L ∅ (∪)). apply (comm_L (∪)).
Qed.

Lemma build_nodeMap_last l1 n l2 :
  id n ∉ id <$> l2 → build_nodeMap (l1 ++ n :: l2) !! id n = Some n.
Proof.
  induction l2 as [|m l2 IH] using rev_ind; intros Hn.
  - by rewrite build_nodeMap_snoc, lookup_insert_eq.
  - rewrite fmap_app, elem_of_app in Hn. simpl in Hn.
    rewrite list_elem_of_singleton in Hn.
    replace (l1 ++ n :: l2 ++ [m]) with ((l1 ++ n :: l2) ++ [m])
      by by rewrite <- app_assoc.
    rewrite build_nodeMap_snoc, lookup_insert_ne
      by (intros E; rewrite E in Hn; tauto).
    apply IH. tauto.
Qed.

Lemma build_nodeMap_unique l n :
  NoDup (id <$> l) → n ∈ l → build_nodeMap l !! id n = Some n.
Proof.
  intros Hnd Hn. apply list_elem_of_split in Hn as (l1 & l2 & ->).
  apply build_nodeMap_last. rewrite fmap_app in Hnd. simpl in Hnd.
  apply NoDup_app in Hnd as (_ & _ & Hnd). by apply NoDup_cons in Hnd as [? _].
Qed.

Lemma size_list_to_set_le (l : list string) :
  size (list_to_set l : gset string) ≤ length l.
Proof.
  induction l as [|x l IH].
  - rewrite list_to_set_nil, size_empty. simpl. lia.
  - rewrite list_to_set_cons, size_union_alt, size_singleton. simpl.
    pose proof (subseteq_size (list_to_set l ∖ {[x]})
                  (list_to_set l : gset string)).
    assert (list_to_set l ∖ {[x]} ⊆ (list_to_set l : gset string)) as Hsub.
    { intros y. rewrite elem_of_difference. tauto. }
    specialize (H Hsub). lia.
Qed.

Lemma build_nodeMap_size l : size (dom (build_nodeMap l)) ≤ length l.
Proof.
  rewrite build_nodeMap_dom. pose proof (size_list_to_set_le (id <$> l)) as H.
  by rewrite length_fmap in H.
Qed.

Lemma build_adjacency_snoc es e :
  build_adjacency (es ++ [e])
  = <[source e := default [] (build_adjacency es !! source e) ++ [target e]]>
      (build_adjacency es).
Proof. unfold build_adjacency. by rewrite foldl_snoc. Qed.

(** The successors of a node: the targets of its connectors, in the order of
    the connectors. *)
Lemma build_adjacency_successors es s :
  default [] (build_adjacency es !! s)
  = target <$> filter (λ e, source e = s) es.
Proof.
  induction es as [|e es IH] using rev_ind; [done|].
  rewrite build_adjacency_snoc, filter_app, fmap_app, filter_cons, filter_nil.
  rewrite lookup_insert. destruct (decide (source e = s)) as [->|Hne]; simpl.
  - by rewrite IH.
  - by rewrite app_nil_r.
Qed.

Lemma build_adjacency_incoming es s l y :
  build_adjacency es !! s = Some l → y ∈ l → has_incoming es y.
Proof.
  intros Hl Hy. pose proof (build_adjacency_successors es s) as H.
  rewrite Hl in H. simpl in H. subst l.
  apply list_elem_of_fmap in Hy as (e & -> & He).
  apply list_elem_of_filter in He as [_ He].
  unfold has_incoming. by apply list_elem_of_fmap_2.
Qed.

(** ** Enough fuel *)

Lemma visit_order_fuel f f' nodes edges :
  length nodes < f → length nodes < f' →
  visit_order f nodes edges = visit_order f' nodes edges.
Proof.
  intros Hf Hf'. unfold visit_order.
  pose proof (build_nodeMap_size nodes).
  apply walks_fuel; lia.
Qed.

Lemma represents_unique nodeMap seen st1 st2 :
  represents nodeMap seen st1 → represents nodeMap seen st2 → st1 = st2.
Proof.
  intros (Hv1 & Hu1 & Hc1) (Hv2 & Hu2 & Hc2).
  destruct st1, st2. simpl in *. congruence.
Qed.

(** On a state reached by the traversal, fuel beyond the number of ids of the
    node map makes no difference to a call. *)
Lemma traverseFlow_fuel nodeMap adjacency f f' x seen st :
  represents nodeMap seen st → size (dom nodeMap) < f → f ≤ f' →
  traverseFlow f nodeMap adjacency x st
  = traverseFlow f' nodeMap adjacency x st.
Proof.
  intros Hr Hf Hle.
  apply (represents_unique nodeMap (walk (dom nodeMap) adjacency f x seen)).
  - by apply traverseFlow_represents.
  - rewrite (walk_fuel _ _ f f') by done. by apply traverseFlow_represents.
Qed.

(** The depth of the recursion never reaches the number of nodes plus one:
    more fuel than that changes nothing. *)
Lemma renumberWithFuel_enough fuel nodes edges :
  length nodes < fuel →
  renumberWithFuel fuel nodes edges = renumberByFlowSequence nodes edges.
Proof.
  intros Hf. unfold renumberByFlowSequence.
  rewrite !renumberWithFuel_arrange. unfold arrange.
  rewrite (visit_order_fuel fuel (S (length nodes))) by lia. done.
Qed.

(** ** The output holds the input nodes *)

Lemma without_logical_id_assign c n :
  without_logical_id (assign_logical_id c n).1 = without_logical_id n.
Proof. unfold assign_logical_id. by destruct (keeps_logical_id _). Qed.

Lemma without_logical_id_fields n n' :
  without_logical_id n' = without_logical_id n →
  id n' = id n ∧ type n' = type n ∧ position n' = position n
  ∧ targetPosition n' = targetPosition n ∧ sourcePosition n' = sourcePosition n
  ∧ label (data n') = label (data n) ∧ data_id (data n') = data_id (data n)
  ∧ owner (data n') = owner (data n) ∧ system (data n') = system (data n)
  ∧ manualOrAutomated (data n') = manualOrAutomated (data n)
  ∧ data_type (data n') = data_type (data n)
  ∧ user_modified (data n') = user_modified (data n).
Proof.
  unfold without_logical_id, with_logical_id, set_data, set_logical_id.
  intros [=]. by repeat split.
Qed.

Lemma number_from_without_logical_id c l :
  without_logical_id <$> (number_from c l).1 = without_logical_id <$> l.
Proof.
  revert c. induction l as [|n l IH]; intros c; simpl; [done|].
  pose proof (without_logical_id_assign c n) as Hn.
  destruct (assign_logical_id c n) as [n' c'].
  specialize (IH c'). destruct (number_from c' l). simpl in *. by f_equal.
Qed.

Lemma visit_order_NoDup fuel nodes edges : NoDup (visit_order fuel nodes edges).
Proof. apply walks_NoDup. constructor. Qed.

Lemma visit_order_keys fuel nodes edges x :
  x ∈ visit_order fuel nodes edges → x ∈ id <$> nodes.
Proof.
  unfold visit_order.
  destruct (walks_extends (dom (build_nodeMap nodes)) (build_adjacency edges)
              fuel (id <$> actual_starts nodes edges) []) as (w & -> & Hw & _).
  simpl. intros Hx. rewrite Forall_forall in Hw.
  destruct (Hw x Hx) as [Hk _].
  by rewrite build_nodeMap_dom, elem_of_list_to_set in Hk.
Qed.

Lemma visited_nodes_ids fuel nodes edges :
  id <$> omap (λ i, build_nodeMap nodes !! i) (visit_order fuel nodes edges)
  = visit_order fuel nodes edges.
Proof.
  assert (Forall (λ x, x ∈ id <$> nodes) (visit_order fuel nodes edges)) as Hk.
  { apply Forall_forall. apply visit_order_keys. }
  induction Hk as [|x l Hx Hl IH]; [done|]. csimpl.
  destruct (build_nodeMap nodes !! x) as [n|] eqn:E.
  - csimpl. apply build_nodeMap_lookup in E as [-> _]. by rewrite IH.
  - apply not_elem_of_dom in E.
    by rewrite build_nodeMap_dom, elem_of_list_to_set in E.
Qed.

Lemma arrange_Permutation fuel nodes edges :
  NoDup (id <$> nodes) → arrange fuel nodes edges ≡ₚ nodes.
Proof.
  intros Hnd. unfold arrange.
  set (order := visit_order fuel nodes edges).
  transitivity (filter (λ n, id n ∈ order) nodes
                ++ filter (λ n, id n ∉ order) nodes);
    [|apply filter_app_complement].
  apply Permutation_app; [|done].
  apply NoDup_Permutation.
  - apply (NoDup_fmap_1 id).
    unfold order. rewrite visited_nodes_ids. apply visit_order_NoDup.
  - apply NoDup_filter. by apply (NoDup_fmap_1 id).
  - intros n. rewrite list_elem_of_omap, list_elem_of_filter. split.
    + intros (x & Hx & Hn). apply build_nodeMap_lookup in Hn as [<- Hn] .
      done.
    + intros [Hx Hn]. exists (id n). split; [done|].
      by apply build_nodeMap_unique.
Qed.

(** C10 as stated fails: of two nodes that share an id only one, the later
    one, is returned. *)
Lemma renumber_merges_shared_ids :
  length twin_nodes = 2
  ∧ renumberByFlowSequence twin_nodes []
    = [set_label (Some "second") (toolbar_node "a" "start" (Some ""))].
Proof. by vm_compute. Qed.

(** C10, amended. When the nodes have pairwise distinct ids, the renumbering
    returns the same nodes, each once, possibly in another order, and each
    with all its fields except [data.logical_id] as they were; the connectors
    are only read. *)
Theorem renumber_keeps_nodes (nodes : list Node) (edges : list Edge)
    (Hids : NoDup (id <$> nodes)) :
  let out := renumberByFlowSequence nodes edges in
  without_logical_id <$> out ≡ₚ without_logical_id <$> nodes
  ∧ length out = length nodes
  ∧ ∀ n', n' ∈ out →
      ∃ n, n ∈ nodes ∧ n' = with_logical_id (logical_id (data n')) n.
Proof.
  intros out.
  assert (without_logical_id <$> out ≡ₚ without_logical_id <$> nodes) as Hp.
  { unfold out, renumberByFlowSequence.
    rewrite renumberWithFuel_arrange, number_from_without_logical_id.
    apply fmap_Permutation. by apply arrange_Permutation. }
  split; [done|]. split.
  - apply Permutation_length in Hp. by rewrite !length_fmap in Hp.
  - intros n' Hn'.
    assert (without_logical_id n' ∈ without_logical_id <$> nodes) as Hin.
    { rewrite <- Hp. by apply list_elem_of_fmap_2. }
    apply list_elem_of_fmap in Hin as (n & Heq & Hn). exists n.
    split; [done|]. destruct n' as [? ? ? ? ? []], n as [? ? ? ? ? []].
    unfold without_logical_id, with_logical_id, set_data, set_logical_id in *.
    simpl in *. by injection Heq as -> -> -> -> -> -> -> -> -> -> -> ->.
Qed.

(** The three nodes around the start node come back, each once. *)
Lemma renumber_keeps_nodes_witness :
  let out := renumberByFlowSequence start_nodes start_edges in
  without_logical_id <$> out ≡ₚ without_logical_id <$> start_nodes
  ∧ length out = 3.
Proof.
  assert (NoDup (id <$> start_nodes)) as Hnd.
  { refine (bool_decide_unpack _ _). vm_compute. exact I. }
  destruct (renumber_keeps_nodes start_nodes start_edges Hnd) as (Hp & Hl & _).
  split; [exact Hp|exact Hl].
Defined.

(** ** Numbers grow along the output *)

Lemma count_numbered_app l1 l2 :
  count_numbered (l1 ++ l2) = count_numbered l1 + count_numbered l2.
Proof. unfold count_numbered. by rewrite filter_app, length_app. Qed.

Lemma count_numbered_take_lt l i j n :
  l !! i = Some n → is_numbered n = true → i < j →
  count_numbered (take i l) < count_numbered (take j l).
Proof.
  intros Hi Hn Hlt.
  assert (take j l = take (S i) l ++ take (j - S i) (drop (S i) l)) as ->.
  { rewrite <- (take_drop (S i) l) at 1.
    rewrite take_app, length_take.
    apply lookup_lt_Some in Hi.
    rewrite take_ge by (rewrite length_take; lia).
    f_equal. f_equal. lia. }
  rewrite (take_S_r l i n Hi), !count_numbered_app.
  assert (count_numbered [n] = 1) as ->; [|lia].
  unfold count_numbered. by rewrite filter_cons, decide_True by done.
Qed.

Lemma logical_id_assign_numbered c n :
  is_numbered n = true →
  logical_id (data (assign_logical_id c n).1) = Some ("1.1.1." +:+ pretty c).
Proof.
  unfold is_numbered, assign_logical_id.
  by destruct (keeps_logical_id (type n)).
Qed.

Lemma is_numbered_assign c n :
  is_numbered (assign_logical_id c n).1 = is_numbered n.
Proof. unfold is_numbered. by rewrite assign_logical_id_type. Qed.

Lemma logical_number_inj (a b : nat) :
  Some ("1.1.1." +:+ pretty a) = Some ("1.1.1." +:+ pretty b) → a = b.
Proof. intros [= H]. by apply (inj pretty). Qed.

(** Among the nodes that are numbered, the one pushed later has the larger
    number. *)
Lemma number_from_increasing c l i j n m :
  (number_from c l).1 !! i = Some n → (number_from c l).1 !! j = Some m →
  is_numbered n = true → is_numbered m = true →
  ∃ a b, logical_id (data n) = Some ("1.1.1." +:+ pretty a)
         ∧ logical_id (data m) = Some ("1.1.1." +:+ pretty b)
         ∧ c ≤ a ∧ c ≤ b ∧ (i < j → a < b) ∧ (j < i → b < a).
Proof.
  intros Hi Hj Hn Hm.
  apply number_from_lookup in Hi as (n0 & Hi & ->).
  apply number_from_lookup in Hj as (m0 & Hj & ->).
  rewrite is_numbered_assign in Hn, Hm.
  exists (c + count_numbered (take i l)), (c + count_numbered (take j l)).
  rewrite !logical_id_assign_numbered by done.
  split; [done|]. split; [done|]. split; [lia|]. split; [lia|]. split.
  - intros Hlt. pose proof (count_numbered_take_lt l i j n0 Hi Hn Hlt). lia.
  - intros Hlt. pose proof (count_numbered_take_lt l j i m0 Hj Hm Hlt). lia.
Qed.

(** ** The calls of the traversal *)

Lemma traverseFlow_calls_state fuel nodeMap adjacency caller x st calls :
  (traverseFlow_calls fuel nodeMap adjacency caller x (st, calls)).1
  = traverseFlow fuel nodeMap adjacency x st.
Proof.
  revert caller x st calls.
  induction fuel as [|fuel IH]; intros caller x st calls; [done|]. simpl.
  destruct (decide (x ∈ visited st)) as [Hv|Hv]; [done|].
  destruct (nodeMap !! x) as [n|]; [|done].
  generalize (push_node (Some x) n st). generalize (calls ++ [(caller, x)]).
  induction (default [] (adjacency !! x)) as [|y ys IHys]; intros calls' st';
    [done|].
  simpl. specialize (IH (Some x) y st' calls').
  destruct (traverseFlow_calls fuel nodeMap adjacency (Some x) y (st', calls'))
    as [st'' calls'']. simpl in IH. subst st''. apply IHys.
Qed.

Lemma traverseFlow_calls_starts fuel nodeMap adjacency starts st calls :
  (foldl (λ s startNode,
            traverseFlow_calls fuel nodeMap adjacency None (id startNode) s)
         (st, calls) starts).1
  = foldl (λ s startNode, traverseFlow fuel nodeMap adjacency (id startNode) s)
          st starts.
Proof.
  revert st calls. induction starts as [|n starts IH]; intros st calls; [done|].
  simpl.
  pose proof (traverseFlow_calls_state fuel nodeMap adjacency None (id n)
                st calls) as H.
  destruct (traverseFlow_calls fuel nodeMap adjacency None (id n) (st, calls))
    as [st' calls']. simpl in H. subst st'. apply IH.
Qed.

Lemma before_app {A} (a b : A) l w : before a b l → before a b (l ++ w).
Proof.
  intros (i & j & Hi & Hj & Hlt). exists i, j.
  split; [by apply lookup_app_l_Some|].
  split; [by apply lookup_app_l_Some|done].
Qed.

Lemma before_snoc {A} (a b : A) l : a ∈ l → before a b (l ++ [b]).
Proof.
  intros Ha. apply list_elem_of_lookup in Ha as [i Hi].
  exists i, (length l). split; [by apply lookup_app_l_Some|].
  split; [|by apply lookup_lt_Some in Hi].
  by rewrite lookup_app_r, Nat.sub_diag.
Qed.

Lemma before_trans {A} (a b c : A) l :
  NoDup l → before a b l → before b c l → before a c l.
Proof.
  intros Hnd (i & j & Hi & Hj & Hij) (j' & k & Hj' & Hk & Hjk).
  assert (j = j') as <- by by eapply NoDup_lookup.
  exists i, k. split; [done|]. split; [done|lia].
Qed.

Section Calls.
Variable nodeMap : gmap string Node.
Variable adjacency : gmap string (list string).
Hypothesis nodeMap_ids : ∀ x n, nodeMap !! x = Some n → id n = x.

Lemma push_node_ids o n st :
  id <$> updatedNodes (push_node o n st) = (id <$> updatedNodes st) ++ [id n].
Proof.
  unfold push_node. pose proof (assign_logical_id_id (counter st) n) as H.
  destruct (assign_logical_id (counter st) n) as [n' c]. simpl in *.
  by rewrite fmap_app, <- H.
Qed.

Lemma push_node_visited x n st :
  visited (push_node (Some x) n st) = {[x]} ∪ visited st.
Proof.
  unfold push_node. by destruct (assign_logical_id (counter st) n).
Qed.

Lemma calls_ok_visit caller x n s :
  calls_ok adjacency s → caller_ok adjacency caller x s →
  nodeMap !! x = Some n →
  calls_ok adjacency (push_node (Some x) n s.1, s.2 ++ [(caller, x)]).
Proof.
  intros (Hv & Hc & He) Hcaller Hx. pose proof (nodeMap_ids x n Hx) as Hid.
  unfold calls_ok. simpl. rewrite push_node_ids, push_node_visited, Hid.
  split; [|split].
  - rewrite Hv, list_to_set_snoc_L. apply (comm_L (∪)).
  - by rewrite fmap_app, Hc.
  - intros p c Hpc. apply elem_of_app in Hpc as [Hpc|Hpc].
    + destruct (He p c Hpc) as [Hb Hs]. split; [by apply before_app|done].
    + apply list_elem_of_singleton in Hpc. injection Hpc as <- ->.
      destruct (Hcaller p eq_refl) as [Hp Hs].
      split; [by apply before_snoc|done].
Qed.

Lemma calls_ok_successors fuel x ys (l0 : list string) s :
  (∀ caller y s',
     calls_ok adjacency s' → caller_ok adjacency caller y s' →
     calls_ok adjacency
       (traverseFlow_calls fuel nodeMap adjacency caller y s')
     ∧ (id <$> updatedNodes s'.1) `prefix_of`
       (id <$> updatedNodes
          (traverseFlow_calls fuel nodeMap adjacency caller y s').1)) →
  calls_ok adjacency s → l0 `prefix_of` (id <$> updatedNodes s.1) →
  x ∈ id <$> updatedNodes s.1 →
  (∀ y, y ∈ ys → y ∈ default [] (adjacency !! x)) →
  let s' := foldl (λ s' y, traverseFlow_calls fuel nodeMap adjacency
                             (Some x) y s') s ys in
  calls_ok adjacency s' ∧ l0 `prefix_of` (id <$> updatedNodes s'.1).
Proof.
  intros IH. revert s.
  induction ys as [|y ys IHys]; intros s Hok Hpre Hx Hys; [by split|].
  simpl. destruct (IH (Some x) y s Hok) as [Hok' Hpre'].
  { intros p [= <-]. split; [done|]. apply Hys. apply list_elem_of_here. }
  apply IHys; [done| | |].
  - by etrans.
  - destruct Hpre' as [w ->]. apply elem_of_app. by left.
  - intros y' Hy'. apply Hys. by apply list_elem_of_further.
Qed.

Lemma traverseFlow_calls_ok fuel caller x s :
  calls_ok adjacency s → caller_ok adjacency caller x s →
  calls_ok adjacency (traverseFlow_calls fuel nodeMap adjacency caller x s)
  ∧ (id <$> updatedNodes s.1) `prefix_of`
    (id <$> updatedNodes
       (traverseFlow_calls fuel nodeMap adjacency caller x s).1).
Proof.
  revert caller x s.
  induction fuel as [|fuel IH]; intros caller x s Hok Hcaller; [done|].
  simpl. destruct (decide (x ∈ visited s.1)) as [Hv|Hv]; [done|].
  destruct (nodeMap !! x) as [n|] eqn:Hx; [|done].
  pose proof (calls_ok_visit caller x n s Hok Hcaller Hx) as Hok1.
  apply (calls_ok_successors fuel x); [done|done| | |done].
  - simpl. rewrite push_node_ids. by apply prefix_app_r.
  - simpl. rewrite push_node_ids, (nodeMap_ids x n Hx).
    apply elem_of_app. right. apply list_elem_of_here.
Qed.

Lemma traverseFlow_calls_starts_ok fuel starts s :
  calls_ok adjacency s →
  calls_ok adjacency (foldl (λ s' startNode,
                     traverseFlow_calls fuel nodeMap adjacency None
                       (id startNode) s') s starts).
Proof.
  revert s. induction starts as [|n starts IH]; intros s Hok; [done|].
  simpl. apply IH. by apply traverseFlow_calls_ok.
Qed.
End Calls.

(** ** Logical ids after the renumbering *)

Lemma renumber_ids nodes edges :
  let order := visit_order (S (length nodes)) nodes edges in
  id <$> renumberByFlowSequence nodes edges
  = order ++ (id <$> filter (λ n, id n ∉ order) nodes).
Proof.
  unfold renumberByFlowSequence.
  rewrite renumberWithFuel_arrange, number_from_ids. unfold arrange.
  by rewrite fmap_app, visited_nodes_ids.
Qed.

Lemma renumber_position nodes edges i n :
  let order := visit_order (S (length nodes)) nodes edges in
  renumberByFlowSequence nodes edges !! i = Some n → id n ∈ order →
  order !! i = Some (id n).
Proof.
  intros order Hi Hin.
  assert ((id <$> renumberByFlowSequence nodes edges) !! i = Some (id n)) as H.
  { by rewrite list_lookup_fmap, Hi. }
  rewrite renumber_ids in H. fold order in H.
  destruct (decide (i < length order)) as [Hlt|Hge].
  - by rewrite lookup_app_l in H.
  - rewrite lookup_app_r in H by lia. apply list_elem_of_lookup_2 in H.
    apply list_elem_of_fmap in H as (m & Hm & Hf).
    apply list_elem_of_filter in Hf as [Hf _]. by rewrite <- Hm in Hf.
Qed.

Lemma traversal_calls_spec nodes edges :
  let order := visit_order (S (length nodes)) nodes edges in
  (traversal_calls nodes edges).*2 = order
  ∧ ∀ p c, called_from nodes edges p c →
      before p c order ∧ ∃ e, e ∈ edges ∧ source e = p ∧ target e = c.
Proof.
  intros order. unfold called_from, traversal_calls.
  set (nodeMap := build_nodeMap nodes).
  set (adjacency := build_adjacency edges).
  set (init := {| visited := ∅; updatedNodes := []; counter := 1 |}).
  set (fuel := S (length nodes)).
  assert (calls_ok adjacency (init, [])) as H0.
  { split; [done|]. split; [done|].
    intros p c Hpc. by apply elem_of_nil in Hpc. }
  pose proof (traverseFlow_calls_starts_ok nodeMap adjacency
                (λ x n H, proj1 (build_nodeMap_lookup nodes x n H))
                fuel (actual_starts nodes edges) (init, []) H0)
    as (_ & Hc & He).
  pose proof (traverseFlow_calls_starts fuel nodeMap adjacency
                (actual_starts nodes edges) init []) as Hst.
  set (final := foldl _ (init, []) (actual_starts nodes edges)) in *.
  assert (id <$> updatedNodes final.1 = order) as Hids.
  { rewrite Hst.
    destruct (traverseFlow_starts nodeMap adjacency fuel
                (actual_starts nodes edges) [] init) as (_ & Hu & _); [done|].
    rewrite Hu, number_from_ids. apply visited_nodes_ids. }
  rewrite Hids in Hc, He. split; [done|].
  intros p c Hpc. destruct (He p c Hpc) as [Hb Hs]. split; [done|].
  unfold adjacency in Hs. rewrite build_adjacency_successors in Hs.
  apply list_elem_of_fmap in Hs as (e & -> & Hf).
  apply list_elem_of_filter in Hf as [<- Hf]. eauto.
Qed.

Lemma called_from_before nodes edges p c :
  tc (called_from nodes edges) p c →
  before p c (visit_order (S (length nodes)) nodes edges).
Proof.
  destruct (traversal_calls_spec nodes edges) as [_ H].
  induction 1 as [p c Hpc|p q c Hpq _ IH].
  - by apply H.
  - eapply before_trans; [apply visit_order_NoDup| |exact IH]. by apply H.
Qed.

Lemma before_elem_of {A} (a b : A) l : before a b l → a ∈ l ∧ b ∈ l.
Proof.
  intros (i & j & Hi & Hj & _).
  split; by eapply list_elem_of_lookup_2.
Qed.

(** C4 as stated fails: a decision node keeps the logical id it came
    with, and a process step is given the same one. *)
Lemma decision_shares_logical_id :
  (λ n, (id n, type n, logical_id (data n)))
    <$> renumberByFlowSequence gateway_nodes gateway_edges
  = [("s", "start", Some ""); ("d", "decision", Some "1.1.1.2");
     ("b", "default", Some "1.1.1.1"); ("a", "default", Some "1.1.1.2")].
Proof. by vm_compute. Qed.

Lemma process_step_is_numbered n : type n = "default" → is_numbered n = true.
Proof. unfold is_numbered. by intros ->. Qed.

(** C4, amended. After the renumbering every numbered node (every node that
    is not a start, end, decision or merge node, so every process step)
    carries ["1.1.1.k"] for a number [k] that no other numbered node carries
    (a start, end, decision or merge node keeps the id it had, which may
    coincide with one of them), and the numbers grow along the output, hence
    along every chain of calls of the traversal: a node reached from another
    one has the larger number. Each such call follows a connector. *)
Theorem logical_ids_unique_and_increasing (nodes : list Node)
    (edges : list Edge) :
  let out := renumberByFlowSequence nodes edges in
  (∀ i j n m,
     out !! i = Some n → out !! j = Some m →
     is_numbered n = true → is_numbered m = true →
     ∃ a b : nat,
       logical_id (data n) = Some ("1.1.1." +:+ pretty a)
       ∧ logical_id (data m) = Some ("1.1.1." +:+ pretty b)
       ∧ 1 ≤ a ∧ (i < j → a < b)
       ∧ (i ≠ j → logical_id (data n) ≠ logical_id (data m)))
  ∧ (∀ p c n m,
       tc (called_from nodes edges) p c →
       n ∈ out → m ∈ out → id n = p → id m = c →
       is_numbered n = true → is_numbered m = true →
       ∃ a b : nat,
         logical_id (data n) = Some ("1.1.1." +:+ pretty a)
         ∧ logical_id (data m) = Some ("1.1.1." +:+ pretty b)
         ∧ a < b)
  ∧ (∀ p c, called_from nodes edges p c →
       ∃ e, e ∈ edges ∧ source e = p ∧ target e = c).
Proof.
  intros out.
  assert (∀ i j n m,
     out !! i = Some n → out !! j = Some m →
     is_numbered n = true → is_numbered m = true →
     ∃ a b : nat,
       logical_id (data n) = Some ("1.1.1." +:+ pretty a)
       ∧ logical_id (data m) = Some ("1.1.1." +:+ pretty b)
       ∧ 1 ≤ a ∧ (i < j → a < b) ∧ (j < i → b < a)) as Hinc.
  { intros i j n m Hi Hj Hn Hm. unfold out, renumberByFlowSequence in Hi, Hj.
    rewrite renumberWithFuel_arrange in Hi, Hj.
    destruct (number_from_increasing _ _ i j n m Hi Hj Hn Hm)
      as (a & b & Ha & Hb & H1 & _ & Hlt & Hgt).
    exists a, b. eauto 10. }
  split; [|split].
  - intros i j n m Hi Hj Hn Hm.
    destruct (Hinc i j n m Hi Hj Hn Hm) as (a & b & Ha & Hb & H1 & Hlt & Hgt).
    exists a, b. split; [done|]. split; [done|]. split; [done|].
    split; [done|]. intros Hne. rewrite Ha, Hb. intros E.
    apply logical_number_inj in E. lia.
  - intros p c n m Hpc Hn Hm Hp Hc Hnn Hnm.
    apply called_from_before in Hpc as Hb.
    destruct (before_elem_of _ _ _ Hb) as [Hpin Hcin].
    apply list_elem_of_lookup in Hn as [i Hi].
    apply list_elem_of_lookup in Hm as [j Hj].
    pose proof (renumber_position nodes edges i n Hi) as Hpi.
    pose proof (renumber_position nodes edges j m Hj) as Hcj.
    simpl in Hpi, Hcj. rewrite Hp in Hpi. rewrite Hc in Hcj.
    specialize (Hpi Hpin). specialize (Hcj Hcin).
    destruct Hb as (i' & j' & Hi' & Hj' & Hlt).
    pose proof (visit_order_NoDup (S (length nodes)) nodes edges) as Hnd.
    assert (i = i') as <- by by eapply NoDup_lookup.
    assert (j = j') as <- by by eapply NoDup_lookup.
    destruct (Hinc i j n m Hi Hj Hnn Hnm) as (a & b & Ha & Hb & _ & Hab & _).
    exists a, b. eauto.
  - intros p c Hpc.
    destruct (traversal_calls_spec nodes edges) as [_ H].
    by destruct (H p c Hpc).
Qed.

(** ** Renumbering twice *)

Lemma js_or_idem o : js_or (Some (js_or o "")) "" = js_or o "".
Proof.
  unfold js_or. destruct o as [s|]; [|done].
  destruct (decide (s = "")) as [->|Hs]; [done|]. by rewrite decide_False.
Qed.

Lemma with_logical_id_twice l l' n :
  with_logical_id l (with_logical_id l' n) = with_logical_id l n.
Proof. done. Qed.

Lemma assign_logical_id_idem c n :
  assign_logical_id c (assign_logical_id c n).1 = assign_logical_id c n.
Proof.
  unfold assign_logical_id.
  destruct (keeps_logical_id (type n)) eqn:E; cbn [fst].
  - change (type (with_logical_id _ n)) with (type n). rewrite E.
    change (logical_id (data (with_logical_id ?l n))) with l.
    by rewrite js_or_idem, with_logical_id_twice.
  - change (type (with_logical_id _ n)) with (type n). by rewrite E.
Qed.

Lemma number_from_idem c l :
  number_from c (number_from c l).1 = number_from c l.
Proof.
  revert c. induction l as [|n l IH]; intros c; simpl; [done|].
  pose proof (assign_logical_id_idem c n) as Hn.
  destruct (assign_logical_id c n) as [n' c'] eqn:E.
  specialize (IH c'). destruct (number_from c' l) as [r c''] eqn:Er.
  simpl in *. by rewrite Hn, IH.
Qed.

(** Without start nodes the traversal starts at the first node, which then
    comes first in the output. *)
Lemma fallback_start fuel nodes edges :
  filter (λ n, ¬ has_incoming edges (id n)) nodes = [] →
  let order := visit_order (S fuel) nodes edges in
  take 1 (order ++ (id <$> filter (λ n, id n ∉ order) nodes))
  = id <$> take 1 nodes.
Proof.
  intros Hs order. destruct nodes as [|first others]; [done|].
  unfold order, visit_order, actual_starts. rewrite Hs.
  change (take 1 (first :: others)) with [first].
  change (id <$> [first]) with [id first].
  change (walks ?K ?a ?f [?x] ?s) with (walk K a f x s).
  destruct (walk_visit (dom (build_nodeMap (first :: others)))
              (build_adjacency edges) (λ _, True) (λ _ _ _ _ _, I)
              fuel (id first) [])
    as (w & -> & _); [apply not_elem_of_nil| |done].
  rewrite build_nodeMap_dom, elem_of_list_to_set.
  apply list_elem_of_fmap_2, list_elem_of_here.
Qed.

Section Twice.
Variable nodes : list Node.
Variable edges : list Edge.

Let order := visit_order (S (length nodes)) nodes edges.
Let out := renumberByFlowSequence nodes edges.
Let rest := filter (λ n, id n ∉ order) nodes.

Lemma out_ids : id <$> out = order ++ (id <$> rest).
Proof. apply renumber_ids. Qed.

Lemma rest_ids x : x ∈ id <$> rest → x ∈ id <$> nodes ∧ x ∉ order.
Proof.
  intros Hx. apply list_elem_of_fmap in Hx as (n & -> & Hn).
  apply list_elem_of_filter in Hn as [Hno Hn].
  split; [by apply list_elem_of_fmap_2|done].
Qed.

Lemma out_dom : dom (build_nodeMap out) = dom (build_nodeMap nodes).
Proof.
  rewrite !build_nodeMap_dom, out_ids. apply set_eq. intros x.
  rewrite !elem_of_list_to_set, elem_of_app. split.
  - intros [Hx|Hx]; [by apply visit_order_keys in Hx|].
    by apply rest_ids in Hx as [? _].
  - intros Hx. destruct (decide (x ∈ order)) as [Hin|Hin]; [by left|right].
    apply list_elem_of_fmap in Hx as (n & -> & Hn).
    apply list_elem_of_fmap_2. by apply list_elem_of_filter.
Qed.

Lemma roots_visited n :
  n ∈ nodes → ¬ has_incoming edges (id n) → id n ∈ order.
Proof.
  intros Hn Hroot. unfold order, visit_order.
  apply walks_visits_starts.
  - apply list_elem_of_fmap_2. unfold actual_starts.
    assert (n ∈ filter (λ node, ¬ has_incoming edges (id node)) nodes) as Hf
      by by apply list_elem_of_filter.
    revert Hf. cbv zeta.
    destruct (filter (λ node, ¬ has_incoming edges (id node)) nodes);
      intros Hf; [by apply elem_of_nil in Hf|done].
  - rewrite build_nodeMap_dom, elem_of_list_to_set.
    by apply list_elem_of_fmap_2.
Qed.

Lemma out_roots :
  id <$> filter (λ n, ¬ has_incoming edges (id n)) out
  = filter (λ x, ¬ has_incoming edges x) order.
Proof.
  transitivity (filter (λ x, ¬ has_incoming edges x) (id <$> out)).
  { exact (filter_fmap_id id (λ x, ¬ has_incoming edges x) out). }
  rewrite out_ids, filter_app.
  rewrite (filter_none (λ x, ¬ has_incoming edges x) (id <$> rest)).
  - by rewrite app_nil_r.
  - apply Forall_forall. intros x Hx Hroot.
    apply list_elem_of_fmap in Hx as (n & -> & Hn).
    apply list_elem_of_filter in Hn as [Hno Hn].
    by apply Hno, roots_visited.
Qed.

(** The start nodes of the output lead to the same order of visits. *)
Lemma out_starts :
  walks (dom (build_nodeMap nodes)) (build_adjacency edges) (S (length nodes))
        (id <$> actual_starts out edges) []
  = order.
Proof.
  pose proof out_roots as Hroots. unfold actual_starts at 1.
  destruct (filter (λ n, ¬ has_incoming edges (id n)) nodes)
    as [|n0 starts] eqn:Hstarts.
  - (* no node is free of incoming connectors *)
    assert (filter (λ node, ¬ has_incoming edges (id node)) out = []) as ->.
    { apply (fmap_nil_inv id). rewrite Hroots. apply filter_none.
      apply Forall_forall. intros x Hx Hroot.
      apply visit_order_keys in Hx.
      apply list_elem_of_fmap in Hx as (n & -> & Hn).
      exact (filter_nil_not_elem_of _ _ n Hstarts Hroot Hn). }
    rewrite fmap_take, out_ids. unfold order at 1 2.
    rewrite fallback_start by done.
    unfold order, visit_order, actual_starts. by rewrite Hstarts.
  - (* the nodes free of incoming connectors are the start nodes *)
    assert (actual_starts nodes edges = n0 :: starts) as Hact.
    { unfold actual_starts. by rewrite Hstarts. }
    destruct (walks_from_roots (dom (build_nodeMap nodes))
                (build_adjacency edges) (has_incoming edges)
                (build_adjacency_incoming edges)
                (length nodes) (id <$> n0 :: starts) [])
      as (w & Hw & Hre).
    { apply Forall_fmap, Forall_forall. intros n Hn. simpl.
      rewrite <- Hstarts in Hn. by apply list_elem_of_filter in Hn as [? _]. }
    assert (order = w) as Hord.
    { unfold order, visit_order. by rewrite Hact, Hw. }
    rewrite <- Hord in Hre. simpl in Hre.
    destruct (filter (λ n, ¬ has_incoming edges (id n)) out)
      as [|r roots] eqn:Hout.
    + (* impossible: the first start node is visited *)
      exfalso. simpl in Hroots. rewrite <- Hroots in Hre.
      assert (id n0 ∈ order) as Hin.
      { assert (n0 ∈ filter (λ n, ¬ has_incoming edges (id n)) nodes) as Hn0
          by (rewrite Hstarts; apply list_elem_of_here).
        apply list_elem_of_filter in Hn0 as [? ?]. by apply roots_visited. }
      rewrite <- Hre in Hin. by apply elem_of_nil in Hin.
    + by rewrite Hroots.
Qed.

Lemma out_visit_order : visit_order (S (length out)) out edges = order.
Proof.
  unfold visit_order at 1. rewrite out_dom.
  rewrite (walks_fuel _ _ (S (length out)) (S (length nodes))).
  - apply out_starts.
  - rewrite <- out_dom. pose proof (build_nodeMap_size out). lia.
  - pose proof (build_nodeMap_size nodes). lia.
Qed.

(** Arranging the output again leaves it as it is. *)
Lemma out_arrange : arrange (S (length out)) out edges = out.
Proof.
  unfold arrange. rewrite out_visit_order.
  assert (∃ l1 l2, out = l1 ++ l2 ∧ id <$> l1 = order
                   ∧ id <$> l2 = id <$> rest) as (l1 & l2 & Hout & H1 & H2).
  { unfold out, renumberByFlowSequence.
    rewrite renumberWithFuel_arrange. unfold arrange. fold order rest.
    rewrite number_from_app. simpl. eexists _, _. split; [done|].
    rewrite !number_from_ids. split; [|done]. apply visited_nodes_ids. }
  pose proof (visit_order_NoDup (S (length nodes)) nodes edges) as Hnd.
  fold order in Hnd.
  rewrite Hout, filter_app.
  rewrite (filter_none (λ node, id node ∉ order) l1).
  2:{ apply Forall_forall. intros n Hn Hno. apply Hno. rewrite <- H1.
      by apply list_elem_of_fmap_2. }
  rewrite (filter_all (λ node, id node ∉ order) l2).
  2:{ apply Forall_forall. intros n Hn.
      apply (list_elem_of_fmap_2 id) in Hn. rewrite H2 in Hn.
      by apply rest_ids in Hn as [_ ?]. }
  simpl. f_equal. rewrite <- H1 at 1. apply omap_lookup_own.
  apply Forall_forall. intros n Hn.
  apply list_elem_of_split in Hn as (a & b & ->).
  rewrite <- app_assoc. simpl. apply build_nodeMap_last.
  rewrite fmap_app, elem_of_app. intros [Hb|Hl2].
  - rewrite <- H1, fmap_app in Hnd. simpl in Hnd.
    apply NoDup_app in Hnd as (_ & _ & Hnd).
    by apply NoDup_cons in Hnd as [? _].
  - rewrite H2 in Hl2. apply rest_ids in Hl2 as [_ Hno]. apply Hno.
    rewrite <- H1, fmap_app. apply elem_of_app. right.
    apply list_elem_of_here.
Qed.
End Twice.

(** C8. Renumbering the output of a renumbering, with the same connectors,
    returns that output unchanged: the same nodes in the same order, each
    with the logical id the first run gave it. *)
Theorem renumber_idempotent (nodes : list Node) (edges : list Edge) :
  renumberByFlowSequence (renumberByFlowSequence nodes edges) edges
  = renumberByFlowSequence nodes edges.
Proof.
  unfold renumberByFlowSequence at 1.
  rewrite renumberWithFuel_arrange, out_arrange.
  unfold renumberByFlowSequence. rewrite renumberWithFuel_arrange.
  by rewrite number_from_idem.
Qed.

(** ** History *)

Lemma slice0_take {A} (l : list A) (stop : Z) :
  (0 ≤ stop)%Z → slice0 l stop = take (Z.to_nat stop) l.
Proof. intros H. unfold slice0. case_decide; [lia|done]. Qed.

Lemma saveToHistory_ok now ns es h :
  history_ok h → history_ok (saveToHistory now ns es h).
Proof.
  intros [Hi Hl]. unfold saveToHistory, history_ok.
  rewrite slice0_take by lia.
  case_decide as Hlen; simpl; unfold shift;
    rewrite ?length_drop, !length_app, !length_take in *; simpl in *; lia.
Qed.

Lemma restore_ok i cv :
  (0 ≤ i < Z.of_nat (length (history (hist cv))))%Z →
  history_ok (hist cv) → history_ok (hist (restore i cv)).
Proof.
  intros Hi [Hc Hl]. unfold restore.
  destruct (history (hist cv) !! Z.to_nat i) eqn:E; simpl; [|done].
  split; simpl; lia.
Qed.

Lemma history_step_ok cv op :
  history_ok (hist cv) → history_ok (hist (history_step cv op)).
Proof.
  intros H. destruct op; simpl.
  - by apply saveToHistory_ok.
  - unfold undo. case_decide; [|done]. apply restore_ok; [|done].
    destruct H as [H _]. lia.
  - unfold redo. case_decide; [|done]. apply restore_ok; [|done].
    destruct H as [H _]. lia.
Qed.

Lemma run_history_ok ops : history_ok (hist (run_history ops)).
Proof.
  unfold run_history.
  assert (history_ok (hist initial_canvas)) as H0.
  { split; simpl; lia. }
  revert H0. generalize initial_canvas.
  induction ops as [|op ops IH]; intros cv H; simpl; [done|].
  apply IH. by apply history_step_ok.
Qed.

(** C9. Whatever pushes, undos and redos were made since the canvas was
    opened, the history holds at most 50 snapshots; a further push keeps the
    snapshots up to the cursor, drops those beyond it, appends the new one,
    and when that makes 51 it removes the oldest. *)
Theorem history_never_exceeds_50 (ops : list HistoryOp) (now : Z)
    (newNodes : list Node) (newEdges : list Edge) :
  let h := hist (run_history ops) in
  let kept := take (Z.to_nat (historyIndex h + 1)) (history h) in
  let newState :=
    {| snap_nodes := newNodes; snap_edges := newEdges; timestamp := now |} in
  length (history h) ≤ 50
  ∧ history (saveToHistory now newNodes newEdges h)
    = (if decide (length kept = 50) then drop 1 kept ++ [newState]
       else kept ++ [newState])
  ∧ length (history (saveToHistory now newNodes newEdges h)) ≤ 50.
Proof.
  intros h kept newState.
  pose proof (run_history_ok ops) as Hok. fold h in Hok.
  pose proof (saveToHistory_ok now newNodes newEdges h Hok) as [_ Hnext].
  destruct Hok as [Hi Hl].
  split; [done|]. split; [|done].
  unfold saveToHistory. rewrite slice0_take by lia. fold kept newState.
  assert (length kept ≤ 50) as Hk.
  { unfold kept. rewrite length_take. lia. }
  rewrite length_app. simpl.
  case_decide as H1; case_decide as H2; simpl; try lia; [|done].
  unfold shift. destruct kept; simpl in *; [lia|done].
Qed.

(** ** Connection rules *)

Lemma existsb_bool_decide {A} (P : A → Prop) `{∀ x, Decision (P x)}
    (l : list A) x :
  x ∈ l → P x → existsb (λ y, bool_decide (P y)) l = true.
Proof.
  intros Hx HP. apply existsb_exists. exists x. split.
  - by apply list_elem_of_In.
  - by apply bool_decide_eq_true.
Qed.

Lemma onConnect_check_reuse nodes edges p e :
  e ∈ edges →
  same_anchor p e ∨ source_handle_taken p e ∨ target_handle_taken p e →
  match find_node nodes (c_source p), find_node nodes (c_target p) with
  | Some _, Some _ =>
      onConnect_check nodes edges p
      = Rejected "Connection already exists at this anchor point"
      ∨ onConnect_check nodes edges p
        = Rejected "This connector point is already in use"
  | _, _ => onConnect_check nodes edges p = NodeNotFound
  end.
Proof.
  intros He Hre. unfold onConnect_check.
  destruct (find_node nodes (c_source p)); [|done].
  destruct (find_node nodes (c_target p)); [|done].
  case_bool_decide; [by left|right].
  assert (source_handle_taken p e ∨ target_handle_taken p e) as [Hs|Ht].
  { destruct Hre as [(?&?&?&?)|[?|?]]; [left; by split|by left|by right]. }
  - rewrite (existsb_bool_decide
               (λ y, source y = c_source p ∧ sourceHandle y = c_sourceHandle p)
               edges e He Hs). done.
  - rewrite (existsb_bool_decide
               (λ y, target y = c_target p ∧ targetHandle y = c_targetHandle p)
               edges e He Ht). by destruct (existsb _ edges).
Qed.

Lemma onConnect_check_duplicate nodes edges p e sourceNode targetNode :
  find_node nodes (c_source p) = Some sourceNode →
  find_node nodes (c_target p) = Some targetNode →
  e ∈ edges → same_anchor p e →
  onConnect_check nodes edges p
  = Rejected "Connection already exists at this anchor point".
Proof.
  intros Hs Ht He Hsame. unfold onConnect_check. rewrite Hs, Ht.
  rewrite bool_decide_eq_true_2; [done|].
  destruct (list_find _ edges) eqn:E; [done|].
  apply list_find_None in E. rewrite Forall_forall in E.
  destruct (E e He Hsame).
Qed.

Lemma onConnect_not_valid addEdge now p cv :
  onConnect_check (nodes cv) (edges cv) p ≠ Valid →
  nodes (onConnect addEdge now p cv) = nodes cv
  ∧ edges (onConnect addEdge now p cv) = edges cv
  ∧ hist (onConnect addEdge now p cv) = hist cv.
Proof.
  intros H. unfold onConnect.
  by destruct (onConnect_check (nodes cv) (edges cv) p).
Qed.

(** C6. A connector that repeats the anchor points of an existing one, or
    that reuses a port already taken on its source or on its target, is not
    added: the nodes, the connectors and the history stay as they were. When
    both endpoints are nodes of the canvas the refusal carries the message of
    the check that fired, the duplicate check first. *)
Theorem onConnect_refuses_reused_ports
    (addEdge : Connection → string → list Edge → list Edge) (now : Z)
    (p : Connection) (cv : Canvas) (e : Edge)
    (He : e ∈ edges cv)
    (Hre : same_anchor p e ∨ source_handle_taken p e
           ∨ target_handle_taken p e) :
  let cv' := onConnect addEdge now p cv in
  nodes cv' = nodes cv ∧ edges cv' = edges cv ∧ hist cv' = hist cv
  ∧ (is_Some (find_node (nodes cv) (c_source p)) →
     is_Some (find_node (nodes cv) (c_target p)) →
     (same_anchor p e →
      onConnect_check (nodes cv) (edges cv) p
      = Rejected "Connection already exists at this anchor point")
     ∧ (onConnect_check (nodes cv) (edges cv) p
        = Rejected "Connection already exists at this anchor point"
        ∨ onConnect_check (nodes cv) (edges cv) p
          = Rejected "This connector point is already in use")).
Proof.
  intros cv'.
  pose proof (onConnect_check_reuse (nodes cv) (edges cv) p e He Hre) as Hc.
  assert (onConnect_check (nodes cv) (edges cv) p ≠ Valid) as Hnv.
  { destruct (find_node (nodes cv) (c_source p)),
      (find_node (nodes cv) (c_target p));
      try destruct Hc as [Hc|Hc]; by rewrite Hc. }
  destruct (onConnect_not_valid addEdge now p cv Hnv) as (Hn & Hed & Hh).
  split; [done|]. split; [done|]. split; [done|].
  intros [sn Hs] [tn Ht]. rewrite Hs, Ht in Hc. split; [|done].
  intros Hsame. by eapply onConnect_check_duplicate.
Qed.

(** A second connector out of the right exit of the decision: refused, and
    the canvas is as before. *)
Lemma onConnect_refuses_reused_ports_witness :
  let cv := {| nodes := decision_nodes; edges := decision_edges;
               hist := initial_history; errorMessage := "";
               showError := false |} in
  let cv' := onConnect (λ _ _ es, es) 0
               (connection "d" (HId "right") "p2" HNull) cv in
  nodes cv' = decision_nodes ∧ edges cv' = decision_edges
  ∧ errorMessage cv' = "This connector point is already in use".
Proof.
  pose proof (onConnect_refuses_reused_ports (λ _ _ es, es) 0
    (connection "d" (HId "right") "p2" HNull)
    {| nodes := decision_nodes; edges := decision_edges;
       hist := initial_history; errorMessage := ""; showError := false |}
    (connector "e1" "d" (HId "right") "p1" HUndefined)) as H.
  simpl in H.
  destruct H as (Hn & He & _).
  - apply list_elem_of_here.
  - right. left. by split.
  - split; [exact Hn|]. split; [exact He|]. reflexivity.
Defined.

(** The rules on the target never look at the number of incoming connectors
    when the target is an end or a merge node. *)
Lemma onConnect_target_rules_unbounded targetType inc inc' v :
  targetType = "end" ∨ targetType = "merge" →
  onConnect_target_rules targetType inc v
  = onConnect_target_rules targetType inc' v.
Proof. by intros [-> | ->]. Qed.

(** C5. With a start node as the source, [onConnect] refuses a connector into
    a merge node (and likewise into an end node) that already has an incoming
    connector, although the ports differ: the rule for the source counts the
    incoming connectors of the target. The same connector is accepted by the
    rules of [onReconnect]. *)
Theorem onConnect_start_counts_target_incoming
    (addEdge : Connection → string → list Edge → list Edge) (now : Z) :
  let p := connection "s" HNull "m" (HId "left") in
  let cv := {| nodes := merge_nodes; edges := merge_edges;
               hist := initial_history; errorMessage := "";
               showError := false |} in
  targetIncoming merge_edges "m" = 1
  ∧ onConnect_check merge_nodes merge_edges p
    = Rejected "Start node cannot have incoming connections"
  ∧ onConnect_check merge_nodes [] p = Valid
  ∧ edges (onConnect addEdge now p cv) = merge_edges
  ∧ onConnect_check
      [toolbar_node "s" "start" (Some ""); toolbar_node "p" "default" None;
       toolbar_node "e" "end" (Some "")]
      [connector "e1" "p" HUndefined "e" HUndefined]
      (connection "s" HNull "e" HNull)
    = Rejected "Start node cannot have incoming connections"
  ∧ onReconnect_check merge_nodes merge_edges
      (connector "e0" "s" HUndefined "p" HUndefined) p = Valid.
Proof. intros p cv. by vm_compute. Qed.

(** C7. Moving the second exit of a decision onto the port already used by
    its first exit passes the rules of [onReconnect] and is committed, while
    [onConnect] refuses the same connection on the connectors that remain
    once the moved one is taken out. *)
Theorem onReconnect_skips_port_checks
    (reconnectEdge : Edge → Connection → list Edge → list Edge) (now : Z) :
  let oldEdge := connector "e2" "d" (HId "top") "p2" HUndefined in
  let newConnection := connection "d" (HId "right") "p2" HNull in
  let cv := {| nodes := decision_nodes; edges := decision_edges;
               hist := initial_history; errorMessage := "";
               showError := false |} in
  onReconnect_check decision_nodes decision_edges oldEdge newConnection = Valid
  ∧ edges (onReconnect reconnectEdge now oldEdge newConnection cv)
    = reconnectEdge oldEdge newConnection decision_edges
  ∧ onConnect_check decision_nodes
      (filter (λ e, edge_id e ≠ edge_id oldEdge) decision_edges) newConnection
    = Rejected "This connector point is already in use".
Proof. intros oldEdge newConnection cv. by vm_compute. Qed.

(** ** Incremental merge *)

Lemma js_or_missing d : js_or None d = d ∧ js_or (Some "") d = d.
Proof. done. Qed.

Lemma js_or_given s d : s ≠ "" → js_or (Some s) d = s.
Proof. intros H. unfold js_or. by case_decide. Qed.

Lemma apply_changes_cons o c cs m :
  apply_changes o (c :: cs) m = apply_changes o cs (apply_change o m c).
Proof. done. Qed.

Lemma has_node_true ns i : has_node ns i = true ↔ ∃ n, n ∈ ns ∧ id n = i.
Proof.
  unfold has_node. rewrite existsb_exists. split.
  - intros (n & Hn & Hi). exists n. split; [by apply list_elem_of_In|].
    by apply bool_decide_eq_true in Hi.
  - intros (n & Hn & Hi). exists n. split; [by apply list_elem_of_In|].
    by apply bool_decide_eq_true.
Qed.

(** C1 as stated fails: a start node that already has its outgoing
    connector gets a second one from a batch, although the connection rules
    refuse that very connector, drawn by hand (ports given as [null]) or
    with the ports of the batch (left [undefined]). *)
Lemma add_edge_bypasses_connection_rules :
  let spec := {| es_id := Some "e2"; es_source := "s"; es_target := "b";
                 es_condition := None |} in
  onConnect_check start_nodes start_edges (connection "s" HNull "b" HNull)
  = Rejected "Start node can only have one outgoing connection"
  ∧ onConnect_check start_nodes start_edges
      (connection "s" HUndefined "b" HUndefined)
    = Rejected "This connector point is already in use"
  ∧ m_edges (apply_changes example_oracle [add_edge spec]
               (working start_nodes start_edges))
    = start_edges ++ [{| edge_id := "e2"; source := "s"; target := "b";
                         sourceHandle := HUndefined;
                         targetHandle := HUndefined;
                         edge_label := Some "" |}]
  ∧ m_warnings (apply_changes example_oracle [add_edge spec]
                  (working start_nodes start_edges)) = [].
Proof. by vm_compute. Qed.

(** C1, amended. An [add_edge] whose endpoints are both among the working
    nodes (those of the canvas and those added earlier in the batch) is
    appended as it is, with no connection rule consulted; one with a missing
    endpoint changes nothing and is logged as a warning. Either way the nodes
    are untouched and the rest of the batch is applied to the result. *)
Theorem add_edge_appended_or_dropped (o : Oracle) (m : Merge) (spec : EdgeSpec)
    (rest : list Change) (nspec : NodeSpec) :
  let m1 := apply_change o m (add_edge spec) in
  apply_changes o (add_edge spec :: rest) m = apply_changes o rest m1
  ∧ m_nodes m1 = m_nodes m
  ∧ (if has_node (m_nodes m) (es_source spec)
        && has_node (m_nodes m) (es_target spec)
     then ∃ e, m_edges m1 = m_edges m ++ [e]
               ∧ source e = es_source spec ∧ target e = es_target spec
               ∧ edge_id e = (id_or_uuid o (es_id spec) (m_calls m)).1
               ∧ m_warnings m1 = m_warnings m
     else m_edges m1 = m_edges m
          ∧ m_warnings m1 = m_warnings m ++
              [{| orphan_source := es_source spec;
                  orphan_target := es_target spec;
                  sourceExists := has_node (m_nodes m) (es_source spec);
                  targetExists := has_node (m_nodes m) (es_target spec) |}])
  ∧ has_node (m_nodes (apply_change o m (add_node nspec)))
             (id (new_node o nspec (m_calls m)).1) = true.
Proof.
  intros m1. split; [done|]. unfold m1. simpl.
  destruct (has_node (m_nodes m) (es_source spec)
            && has_node (m_nodes m) (es_target spec)) eqn:E.
  - destruct (id_or_uuid o (es_id spec) (m_calls m)) as [i c] eqn:Hi. simpl.
    split; [done|]. split; [eauto 10|].
    destruct (new_node o nspec (m_calls m)) as [n c'] eqn:Hn. simpl.
    apply has_node_true. exists n. split; [|done].
    apply elem_of_app. right. apply list_elem_of_here.
  - simpl. split; [done|]. split; [done|].
    destruct (new_node o nspec (m_calls m)) as [n c'] eqn:Hn. simpl.
    apply has_node_true. exists n. split; [|done].
    apply elem_of_app. right. apply list_elem_of_here.
Qed.

(** C3 as stated fails: an [add_node] that repeats the id of a node of the
    canvas is pushed as a second node with that id, and the first one keeps
    its label. *)
Lemma add_node_pushes_duplicate_id :
  let m1 := apply_changes example_oracle [add_node (bare_spec "a" "again")]
              (working start_nodes start_edges) in
  id <$> m_nodes m1 = ["s"; "a"; "b"; "a"]
  ∧ (label ∘ data) <$> m_nodes m1
    = [Some "s"; Some "a"; Some "b"; Some "again"].
Proof. by vm_compute. Qed.

(** C3, amended. An [add_node] always pushes exactly one node, whether or not
    its id is already in use, and touches nothing else; the node carries the
    id and label of the change (a generated id when none is given), ["TBD"]
    for a missing owner or system, ["manual"] for a missing automation flag,
    and [user_modified = false]. *)
Theorem add_node_always_pushes (o : Oracle) (m : Merge) (spec : NodeSpec) :
  let m1 := apply_change o m (add_node spec) in
  let n := (new_node o spec (m_calls m)).1 in
  m_nodes m1 = m_nodes m ++ [n]
  ∧ m_edges m1 = m_edges m ∧ m_warnings m1 = m_warnings m
  ∧ id n = (id_or_uuid o (ns_id spec) (m_calls m)).1
  ∧ type n = react_flow_type (ns_type spec)
  ∧ label (data n) = ns_label spec
  ∧ owner (data n) = Some (js_or (ns_owner spec) "TBD")
  ∧ system (data n) = Some (js_or (ns_system spec) "TBD")
  ∧ manualOrAutomated (data n)
    = Some (js_or (ns_manualOrAutomated spec) "manual")
  ∧ user_modified (data n) = Some false
  ∧ (ns_owner spec = None → owner (data n) = Some "TBD")
  ∧ (ns_system spec = None → system (data n) = Some "TBD")
  ∧ (ns_manualOrAutomated spec = None →
     manualOrAutomated (data n) = Some "manual").
Proof.
  intros m1 n. unfold m1, n. simpl. unfold new_node.
  destruct (id_or_uuid o (ns_id spec) (m_calls m)) as [i c1].
  destruct (ns_position spec) as [pos|];
    match goal with |- context [id_or_uuid o (ns_id spec) ?c] =>
      destruct (id_or_uuid o (ns_id spec) c) as [i2 c3] end;
    simpl; repeat split; try done; by intros ->.
Qed.

Lemma findIndex_Some ns given k :
  findIndex ns given = Some k ↔
  ∃ n, ns !! k = Some n ∧ given = Some (id n)
       ∧ ∀ j n', ns !! j = Some n' → j < k → given ≠ Some (id n').
Proof.
  unfold findIndex. destruct given as [i|].
  - split.
    + intros H. apply fmap_Some in H as ([k' n] & H & ->).
      apply list_find_Some in H as (Hk & Hi & Hlt). simpl.
      exists n. split; [done|]. split; [by rewrite Hi|].
      intros j n' Hj Hjk [= E]. by apply (Hlt j n' Hj Hjk).
    + intros (n & Hk & [= ->] & Hlt). apply fmap_Some. exists (k, n).
      split; [|done]. apply list_find_Some. split; [done|]. split; [done|].
      intros j n' Hj Hjk E. apply (Hlt j n' Hj Hjk). by rewrite E.
  - split; [done|]. by intros (n & _ & ? & _).
Qed.

Lemma findIndex_None ns given :
  findIndex ns given = None ↔ ∀ n, n ∈ ns → given ≠ Some (id n).
Proof.
  unfold findIndex. destruct given as [i|].
  - rewrite fmap_None, list_find_None, Forall_forall. split.
    + intros H n Hn [= E]. by apply (H n Hn).
    + intros H n Hn E. apply (H n Hn). by rewrite E.
  - split; [|done]. by intros _ n _.
Qed.

Lemma apply_change_keeps_locked o m c i n :
  m_nodes m !! i = Some n → truthy (user_modified (data n)) = true →
  m_nodes (apply_change o m c) !! i = Some n.
Proof.
  intros Hi Hlock. destruct c as [spec|spec|spec|]; simpl; try done.
  - destruct (new_node o spec (m_calls m)) as [n' c']. simpl.
    by apply lookup_app_l_Some.
  - destruct (findIndex (m_nodes m) (ns_id spec)) as [k|] eqn:Hk; [|done].
    destruct (m_nodes m !! k) as [node|] eqn:Hnode; [|done].
    destruct (truthy (user_modified (data node))) eqn:Ht; [done|]. simpl.
    rewrite list_lookup_insert_ne; [done|].
    intros ->. rewrite Hi in Hnode. injection Hnode as <-. congruence.
  - destruct (has_node _ _ && has_node _ _); [|done].
    by destruct (id_or_uuid o (es_id spec) (m_calls m)).
Qed.

Lemma apply_changes_keeps_locked o cs m i n :
  m_nodes m !! i = Some n → truthy (user_modified (data n)) = true →
  m_nodes (apply_changes o cs m) !! i = Some n.
Proof.
  revert m. induction cs as [|c cs IH]; intros m Hi Hlock; [done|].
  rewrite apply_changes_cons. apply IH; [|done].
  by apply apply_change_keeps_locked.
Qed.

Lemma getLayoutedElements_data dagre ns es i n :
  ns !! i = Some n →
  ∃ n', (getLayoutedElements dagre ns es).1 !! i = Some n'
        ∧ data n' = data n ∧ id n' = id n ∧ type n' = type n.
Proof.
  intros Hi. unfold getLayoutedElements. simpl.
  rewrite list_lookup_fmap, Hi. simpl.
  destruct (node_offset (type n)). eauto.
Qed.

Lemma generateIncrementalFlow_keeps_locked dagre o now cs s i n :
  nodes (canvas s) !! i = Some n → truthy (user_modified (data n)) = true →
  ∃ n', nodes (canvas (generateIncrementalFlow dagre o now cs s)) !! i = Some n'
        ∧ data n' = data n ∧ id n' = id n.
Proof.
  intros Hi Hlock. unfold generateIncrementalFlow.
  destruct cs as [|c cs]; [eauto|].
  set (m := apply_changes o (c :: cs) _).
  assert (m_nodes m !! i = Some n) as Hm.
  { unfold m. by apply apply_changes_keeps_locked. }
  destruct (getLayoutedElements_data dagre (m_nodes m) (m_edges m) i n Hm)
    as (n' & Hn' & Hd & Hid & _).
  destruct (getLayoutedElements dagre (m_nodes m) (m_edges m)) as [ln le].
  simpl in *. eauto.
Qed.

Lemma generateIncrementalFlows_keeps_locked dagre o batches s i n :
  nodes (canvas s) !! i = Some n → truthy (user_modified (data n)) = true →
  ∃ n', nodes (canvas (generateIncrementalFlows dagre o batches s)) !! i
        = Some n'
        ∧ data n' = data n ∧ id n' = id n.
Proof.
  revert s n. induction batches as [|[now cs] bs IH]; intros s n Hi Hlock.
  - simpl. eauto.
  - simpl.
    destruct (generateIncrementalFlow_keeps_locked dagre o now cs s i n
                Hi Hlock) as (n1 & H1 & Hd1 & Hid1).
    destruct (IH _ n1 H1) as (n2 & H2 & Hd2 & Hid2).
    { by rewrite Hd1. }
    exists n2. split; [done|]. split; congruence.
Qed.

(** C2. An [update_node] looks up the first working node with the given id.
    If there is none, nothing changes. If there is one and its
    [user_modified] flag is set, nothing changes either. Otherwise that node
    gets the label of the change and nothing else is touched. And a node
    whose flag is set keeps its data, label included, through any number of
    batches, whatever they contain. *)
Theorem update_node_respects_user_edits
    (dagre : list (string * (Q * Q)) → list (string * string) →
             string → Position)
    (o : Oracle) (m : Merge) (spec : NodeSpec)
    (batches : list (Z * list Change)) (s : Live) (i : nat) :
  let m1 := apply_change o m (update_node spec) in
  match findIndex (m_nodes m) (ns_id spec) with
  | Some k =>
      ∃ node, m_nodes m !! k = Some node ∧ ns_id spec = Some (id node)
        ∧ (∀ j n', m_nodes m !! j = Some n' → j < k →
                   ns_id spec ≠ Some (id n'))
        ∧ if truthy (user_modified (data node)) then m1 = m
          else m_nodes m1 = <[k := set_label (ns_label spec) node]> (m_nodes m)
               ∧ label (data (set_label (ns_label spec) node)) = ns_label spec
               ∧ m_edges m1 = m_edges m ∧ m_warnings m1 = m_warnings m
  | None => (∀ n, n ∈ m_nodes m → ns_id spec ≠ Some (id n)) ∧ m1 = m
  end
  ∧ match nodes (canvas s) !! i with
    | Some n =>
        truthy (user_modified (data n)) = true →
        ∃ n', nodes (canvas (generateIncrementalFlows dagre o batches s)) !! i
              = Some n'
              ∧ label (data n') = label (data n) ∧ data n' = data n
              ∧ id n' = id n
    | None => True
    end.
Proof.
  intros m1. split.
  - unfold m1. simpl.
    destruct (findIndex (m_nodes m) (ns_id spec)) as [k|] eqn:Hk.
    + apply findIndex_Some in Hk as (node & Hnode & Hid & Hfirst).
      exists node. rewrite Hnode. split; [done|]. split; [done|].
      split; [done|]. by destruct (truthy (user_modified (data node))).
    + split; [|done]. by apply findIndex_None.
  - destruct (nodes (canvas s) !! i) as [n|] eqn:Hi; [|done].
    intros Hlock.
    destruct (generateIncrementalFlows_keeps_locked dagre o batches s i n
                Hi Hlock) as (n' & Hn' & Hd & Hid).
    exists n'. split; [done|]. split; [by rewrite Hd|done].
Qed.

(** * Further properties *)

(** ** What the renumbering returns *)

Lemma arrange_from_nodes fuel nodes edges n :
  n ∈ arrange fuel nodes edges → n ∈ nodes.
Proof.
  unfold arrange. rewrite elem_of_app, list_elem_of_omap, list_elem_of_filter.
  intros [(x & _ & Hx)|[_ Hn]]; [|done].
  by apply build_nodeMap_lookup in Hx as [_ ?].
Qed.

(** X1. The output of the renumbering carries exactly the ids of the input,
    whatever the connectors and even when ids repeat; it is never longer
    than the input, and distinct ids stay distinct. *)
Theorem renumber_same_ids (nodes : list Node) (edges : list Edge) :
  let out := renumberByFlowSequence nodes edges in
  (∀ x, x ∈ id <$> out ↔ x ∈ id <$> nodes)
  ∧ length out ≤ length nodes
  ∧ (NoDup (id <$> nodes) → NoDup (id <$> out)).
Proof.
  intros out. split; [|split].
  - intros x. pose proof (out_dom nodes edges) as H.
    rewrite !build_nodeMap_dom in H. fold out in H.
    by rewrite <- (elem_of_list_to_set (C:=gset string) x (id <$> out)), H,
      elem_of_list_to_set.
  - unfold out, renumberByFlowSequence.
    rewrite renumberWithFuel_arrange, number_from_length. unfold arrange.
    rewrite length_app.
    rewrite <- (length_fmap id (omap _ _)), visited_nodes_ids.
    set (order := visit_order _ nodes edges).
    pose proof (filter_app_complement (λ n, id n ∈ order) nodes) as Hp.
    apply Permutation_length in Hp. rewrite length_app in Hp.
    assert (length order ≤ length (filter (λ n, id n ∈ order) nodes)); [|lia].
    rewrite <- (length_fmap id (filter _ nodes)).
    apply submseteq_length, NoDup_submseteq; [apply visit_order_NoDup|].
    intros x Hx. pose proof (visit_order_keys _ _ _ _ Hx) as Hk.
    apply list_elem_of_fmap in Hk as (n & -> & Hn).
    apply list_elem_of_fmap_2. by apply list_elem_of_filter.
  - intros Hnd. unfold out, renumberByFlowSequence.
    rewrite renumberWithFuel_arrange, number_from_ids.
    by rewrite (arrange_Permutation _ _ _ Hnd).
Qed.

(** X2. Every node of the output is a node of the input with only its
    logical id replaced: a numbered node gets ["1.1.1.k"] for some [k] from 1
    on, a start, end, decision or merge node keeps the logical id it had, or
    gets the empty string when it had none. *)
Theorem renumber_only_relabels (nodes : list Node) (edges : list Edge)
    (n' : Node) :
  n' ∈ renumberByFlowSequence nodes edges →
  ∃ n, n ∈ nodes
       ∧ n' = with_logical_id (logical_id (data n')) n
       ∧ if is_numbered n
         then ∃ k, 1 ≤ k
                   ∧ logical_id (data n') = Some ("1.1.1." +:+ pretty k)
         else logical_id (data n')
              = Some (js_or (logical_id (data n)) "").
Proof.
  unfold renumberByFlowSequence. rewrite renumberWithFuel_arrange.
  intros Hn'. apply list_elem_of_lookup in Hn' as [i Hi].
  apply number_from_lookup in Hi as (n & Hn & ->).
  apply list_elem_of_lookup_2, arrange_from_nodes in Hn.
  exists n. split; [done|]. unfold assign_logical_id, is_numbered.
  destruct (keeps_logical_id (type n)); simpl; (split; [done|]); [done|].
  eexists. split; [|done]. lia.
Qed.

(** The three nodes around the start node: each comes back relabelled. *)
Lemma renumber_only_relabels_witness :
  ∃ n, n ∈ start_nodes
       ∧ toolbar_node "s" "start" (Some "")
         = with_logical_id (Some "") n.
Proof.
  destruct (renumber_only_relabels start_nodes start_edges
              (toolbar_node "s" "start" (Some ""))) as (n & Hn & Heq & _).
  - vm_compute. apply list_elem_of_here.
  - exists n. split; [exact Hn|exact Heq].
Defined.

Lemma number_from_sequence c l :
  (λ n, logical_id (data n))
    <$> filter (λ n, is_numbered n = true) (number_from c l).1
  = (λ k, Some ("1.1.1." +:+ pretty k)) <$> seq c (count_numbered l).
Proof.
  revert c. induction l as [|n l IH]; intros c; [done|]. simpl.
  pose proof (is_numbered_assign c n) as Hnum.
  pose proof (logical_id_assign_numbered c n) as Hlid.
  pose proof (assign_logical_id_counter c n) as Hc.
  destruct (assign_logical_id c n) as [n' c'] eqn:E. simpl in *.
  specialize (IH c'). destruct (number_from c' l) as [r c''] eqn:Er.
  simpl in *. unfold count_numbered in *. rewrite !filter_cons.
  destruct (is_numbered n) eqn:En.
  - rewrite !decide_True by (by rewrite ?Hnum). csimpl.
    by rewrite Hlid, IH, Hc.
  - rewrite !decide_False by (by rewrite ?Hnum). by rewrite IH, Hc.
Qed.

Lemma renumber_sequence nodes edges :
  let numbered :=
    filter (λ n, is_numbered n = true) (renumberByFlowSequence nodes edges) in
  (λ n, logical_id (data n)) <$> numbered
  = (λ k, Some ("1.1.1." +:+ pretty k)) <$> seq 1 (length numbered).
Proof.
  intros numbered. unfold numbered, renumberByFlowSequence.
  rewrite renumberWithFuel_arrange, number_from_sequence. f_equal. f_equal.
  pose proof (f_equal length (number_from_sequence 1
                                (arrange (S (length nodes)) nodes edges))) as H.
  by rewrite !length_fmap, length_seq in H.
Qed.

Lemma renumber_relabels nodes edges n' :
  n' ∈ renumberByFlowSequence nodes edges →
  ∃ n, n ∈ nodes
       ∧ n' = with_logical_id (logical_id (data n')) n
       ∧ if is_numbered n
         then ∃ k, 1 ≤ k
                   ∧ logical_id (data n') = Some ("1.1.1." +:+ pretty k)
         else logical_id (data n')
              = Some (js_or (logical_id (data n)) "").
Proof.
  unfold renumberByFlowSequence. rewrite renumberWithFuel_arrange.
  intros Hn'. apply list_elem_of_lookup in Hn' as [i Hi].
  apply number_from_lookup in Hi as (n & Hn & ->).
  apply list_elem_of_lookup_2, arrange_from_nodes in Hn.
  exists n. split; [done|]. unfold assign_logical_id, is_numbered.
  destruct (keeps_logical_id (type n)); simpl; (split; [done|]); [done|].
  eexists. split; [|done]. lia.
Qed.

(** X3. Read in the order of the output, the logical ids of the numbered
    nodes are 1.1.1.1, 1.1.1.2, ... up to the number of such nodes, with no
    gap. *)
Theorem renumber_numbers_in_sequence (nodes : list Node) (edges : list Edge) :
  let numbered :=
    filter (λ n, is_numbered n = true) (renumberByFlowSequence nodes edges) in
  (λ n, logical_id (data n)) <$> numbered
  = (λ k, Some ("1.1.1." +:+ pretty k)) <$> seq 1 (length numbered).
Proof. exact (renumber_sequence nodes edges). Qed.

(** ** The traversal visits what can be reached *)

Section Reach.
Variable keys : gset string.
Variable adjacency : gmap string (list string).

Abbreviation walk' := (walk keys adjacency).
Abbreviation walks' := (walks keys adjacency).
Abbreviation successors x := (default [] (adjacency !! x)).

Lemma unseen_0 seen x : unseen keys seen = 0 → x ∈ keys → x ∈ seen.
Proof.
  unfold unseen. intros H0 Hx. apply size_empty_inv in H0.
  destruct (decide (x ∈ seen)) as [|Hno]; [done|].
  assert (x ∈ keys ∖ list_to_set seen) as Hin.
  { apply elem_of_difference. by rewrite elem_of_list_to_set. }
  apply H0 in Hin. by apply elem_of_empty in Hin.
Qed.

Lemma walk_prefix fuel x seen y : y ∈ seen → y ∈ walk' fuel x seen.
Proof.
  intros Hy. destruct (walk_extends keys adjacency fuel x seen) as (w & -> & _).
  apply elem_of_app. by left.
Qed.

Lemma walk_unseen fuel x seen :
  unseen keys (walk' fuel x seen) ≤ unseen keys seen.
Proof.
  destruct (walk_extends keys adjacency fuel x seen) as (w & -> & _).
  apply unseen_app.
Qed.

Lemma walks_closed_from fuel :
  (∀ x seen, unseen keys seen ≤ fuel →
     (x ∈ keys → x ∈ walk' fuel x seen)
     ∧ closed_from keys adjacency seen (walk' fuel x seen)) →
  ∀ starts seen, unseen keys seen ≤ fuel →
    (∀ y, y ∈ starts → y ∈ keys → y ∈ walks' fuel starts seen)
    ∧ closed_from keys adjacency seen (walks' fuel starts seen).
Proof.
  intros Hone starts. induction starts as [|x starts IH]; intros seen Hfuel.
  - split; [by intros y Hy%elem_of_nil|]. by intros z y Hz Hno.
  - rewrite walks_cons. destruct (Hone x seen Hfuel) as [Hx Hcl].
    pose proof (walk_unseen fuel x seen) as Hle.
    destruct (IH (walk' fuel x seen)) as [Hst Hcl']; [lia|]. split.
    + intros y Hy Hk. apply elem_of_cons in Hy as [->|Hy]; [|by apply Hst].
      apply walks_prefix. by apply Hx.
    + intros z y Hz Hno Hy Hk.
      destruct (decide (z ∈ walk' fuel x seen)) as [Hin|Hout].
      * apply walks_prefix. by apply (Hcl z y).
      * by apply (Hcl' z y).
Qed.

Lemma walk_closed_from fuel x seen :
  unseen keys seen ≤ fuel →
  (x ∈ keys → x ∈ walk' fuel x seen)
  ∧ closed_from keys adjacency seen (walk' fuel x seen).
Proof.
  revert x seen. induction fuel as [|fuel IH]; intros x seen Hfuel.
  - split; [|by intros z y Hz Hno]. apply unseen_0. simpl. lia.
  - rewrite walk_S. destruct (decide (x ∈ seen)) as [Hin|Hin].
    { split; [done|]. by intros z y Hz Hno. }
    destruct (decide (x ∈ keys)) as [Hk|Hk].
    2:{ split; [done|]. by intros z y Hz Hno. }
    pose proof (unseen_visit keys seen x Hk Hin) as Hlt.
    destruct (walks_closed_from fuel IH (successors x) (seen ++ [x]))
      as [Hsucc Hcl]; [lia|].
    assert (x ∈ walks' fuel (successors x) (seen ++ [x])) as Hx.
    { apply walks_prefix, elem_of_app. right. apply list_elem_of_here. }
    split; [done|]. intros z y Hz Hno Hy Hky.
    destruct (decide (z = x)) as [->|Hne]; [by apply Hsucc|].
    apply (Hcl z y); [done| |done|done].
    rewrite elem_of_app, list_elem_of_singleton. tauto.
Qed.

(** A property that passes from a key to its successors holds of everything
    a call visits, when it holds of the node the call starts from. *)
Lemma walk_extends_closed fuel (P : string → Prop) :
  (∀ x y, P x → x ∈ keys → y ∈ successors x → P y) →
  ∀ x seen, P x →
    ∃ w, walk' fuel x seen = seen ++ w
         ∧ Forall (λ y, P y ∧ fresh keys seen y) w ∧ NoDup w.
Proof.
  intros HP.
  assert (∀ seen : list string,
            ∃ w, seen = seen ++ w
                 ∧ Forall (λ y, P y ∧ fresh keys seen y) w ∧ NoDup w) as Hnone.
  { intros seen. exists []. rewrite app_nil_r.
    split; [done|]. split; constructor. }
  induction fuel as [|fuel IH]; intros x seen Hx; [apply Hnone|].
  rewrite walk_S.
  destruct (decide (x ∈ seen)) as [Hin|Hin]; [apply Hnone|].
  destruct (decide (x ∈ keys)) as [Hk|Hk]; [|apply Hnone].
  assert (Forall P (successors x)) as Hsucc.
  { apply Forall_forall. intros y Hy. by apply (HP x). }
  destruct (walks_extends_from keys adjacency fuel P IH _ (seen ++ [x]) Hsucc)
    as (w & -> & Hw & Hnd).
  exists (x :: w). rewrite <- app_assoc. split; [done|].
  rewrite Forall_forall in Hw. split.
  - apply Forall_cons. split; [done|]. apply Forall_forall.
    intros y Hy. destruct (Hw y Hy) as (? & ? & Hy').
    split; [done|]. split; [done|]. rewrite elem_of_app in Hy'. tauto.
  - apply NoDup_cons. split; [|done]. intros Hy.
    destruct (Hw x Hy) as (_ & _ & Hy'). apply Hy'.
    rewrite elem_of_app, list_elem_of_singleton. tauto.
Qed.
End Reach.

Lemma edge_step_successor nodes edges x y :
  edge_step nodes edges x y ↔
  x ∈ id <$> nodes ∧ y ∈ default [] (build_adjacency edges !! x).
Proof.
  unfold edge_step. rewrite build_adjacency_successors.
  split; intros [Hx H]; (split; [done|]).
  - destruct H as (e & He & <- & <-). apply list_elem_of_fmap.
    exists e. split; [done|]. by apply list_elem_of_filter.
  - apply list_elem_of_fmap in H as (e & -> & He).
    apply list_elem_of_filter in He as [<- He]. eauto.
Qed.

Lemma visit_order_reachable nodes edges x :
  x ∈ visit_order (S (length nodes)) nodes edges ↔ reachable nodes edges x.
Proof.
  set (order := visit_order (S (length nodes)) nodes edges).
  set (keys := dom (build_nodeMap nodes)).
  set (adjacency := build_adjacency edges).
  assert (∀ x, x ∈ keys ↔ x ∈ id <$> nodes) as Hkeys.
  { intros z. unfold keys. by rewrite build_nodeMap_dom, elem_of_list_to_set. }
  split.
  - (* what is visited can be reached *)
    intros Hx. split; [by eapply visit_order_keys|].
    set (P := λ y, ∃ s, s ∈ id <$> actual_starts nodes edges
                        ∧ rtc (edge_step nodes edges) s y).
    assert (∀ a b, P a → a ∈ keys → b ∈ default [] (adjacency !! a) → P b)
      as HP.
    { intros a b (s & Hs & Hrtc) Ha Hb. exists s. split; [done|].
      eapply rtc_r; [exact Hrtc|]. apply edge_step_successor.
      split; [by apply Hkeys|done]. }
    destruct (walks_extends_from keys adjacency (S (length nodes)) P
                (walk_extends_closed keys adjacency _ P HP)
                (id <$> actual_starts nodes edges) []) as (w & Hw & HPw & _).
    { apply Forall_forall. intros s Hs. exists s. by split. }
    unfold order, visit_order in Hx. fold keys adjacency in Hx.
    rewrite Hw in Hx. simpl in Hx. rewrite Forall_forall in HPw.
    by destruct (HPw x Hx) as [? _].
  - (* what can be reached is visited *)
    intros (Hnode & s & Hs & Hrtc).
    destruct (walks_closed_from keys adjacency (S (length nodes))
                (walk_closed_from keys adjacency (S (length nodes)))
                (id <$> actual_starts nodes edges) []) as [Hst Hcl].
    { pose proof (unseen_le keys []). pose proof (build_nodeMap_size nodes).
      unfold keys in *. lia. }
    assert (walks keys adjacency (S (length nodes))
              (id <$> actual_starts nodes edges) [] = order) as Horder by done.
    rewrite Horder in Hst, Hcl. revert Hnode.
    apply (rtc_ind_r (R:=edge_step nodes edges)
             (λ y, y ∈ id <$> nodes → y ∈ order) s); [| |exact Hrtc].
    + intros Hnode. apply Hst; [done|]. by apply Hkeys.
    + intros y z _ Hstep IH Hnode.
      apply edge_step_successor in Hstep as [Hy Hz].
      apply (Hcl y z); [by apply IH|apply not_elem_of_nil|done|].
      by apply Hkeys.
Qed.

(** X4. The traversal visits exactly the nodes that can be reached from a
    start node along connectors through nodes; in the output these come
    first, each once, and the nodes that cannot be reached follow in their
    stored order. *)
Theorem renumber_visits_reachable (nodes : list Node) (edges : list Edge) :
  let order := visit_order (S (length nodes)) nodes edges in
  (∀ x, x ∈ order ↔ reachable nodes edges x)
  ∧ NoDup order
  ∧ id <$> renumberByFlowSequence nodes edges
    = order ++ (id <$> filter (λ n, id n ∉ order) nodes).
Proof.
  intros order. split; [|split].
  - intros x. apply visit_order_reachable.
  - apply visit_order_NoDup.
  - apply renumber_ids.
Qed.

(** ** Connecting and reconnecting keep the limits *)

Lemma renumber_elem_of_ids nodes edges x :
  x ∈ id <$> renumberByFlowSequence nodes edges ↔ x ∈ id <$> nodes.
Proof.
  pose proof (out_dom nodes edges) as H. rewrite !build_nodeMap_dom in H.
  by rewrite <- (elem_of_list_to_set (C:=gset string) x
                   (id <$> renumberByFlowSequence nodes edges)), H,
    elem_of_list_to_set.
Qed.

Lemma find_node_Some nodes i n :
  find_node nodes i = Some n → n ∈ nodes ∧ id n = i.
Proof.
  unfold find_node. intros H. apply fmap_Some in H as ([k n'] & Hf & ->).
  apply list_find_Some in Hf as (Hk & Hi & _). split; [|done].
  by eapply list_elem_of_lookup_2.
Qed.

Lemma find_node_None nodes i : find_node nodes i = None ↔ i ∉ id <$> nodes.
Proof.
  unfold find_node. rewrite fmap_None, list_find_None, Forall_forall.
  rewrite list_elem_of_fmap. split.
  - intros H (n & -> & Hn). by apply (H n).
  - intros H n Hn E. apply H. by exists n.
Qed.

Lemma find_node_NoDup nodes n :
  NoDup (id <$> nodes) → n ∈ nodes → find_node nodes (id n) = Some n.
Proof.
  intros Hnd Hn. destruct (find_node nodes (id n)) as [n'|] eqn:E.
  - apply find_node_Some in E as [Hn' Hid]. f_equal.
    apply list_elem_of_lookup in Hn as [i Hi].
    apply list_elem_of_lookup in Hn' as [j Hj].
    assert (i = j) as ->; [|congruence].
    apply (NoDup_lookup (id <$> nodes) i j (id n)); [done| |].
    + by rewrite list_lookup_fmap, Hi.
    + by rewrite list_lookup_fmap, Hj, <- Hid.
  - apply find_node_None in E. destruct E. by apply list_elem_of_fmap_2.
Qed.

Lemma sourceOutgoing_app es es' i :
  sourceOutgoing (es ++ es') i = sourceOutgoing es i + sourceOutgoing es' i.
Proof. unfold sourceOutgoing. by rewrite filter_app, length_app. Qed.

Lemma targetIncoming_app es es' i :
  targetIncoming (es ++ es') i = targetIncoming es i + targetIncoming es' i.
Proof. unfold targetIncoming. by rewrite filter_app, length_app. Qed.

Lemma sourceOutgoing_one e i :
  sourceOutgoing [e] i = if decide (source e = i) then 1 else 0.
Proof.
  unfold sourceOutgoing. rewrite filter_cons, filter_nil. by case_decide.
Qed.

Lemma targetIncoming_one e i :
  targetIncoming [e] i = if decide (target e = i) then 1 else 0.
Proof.
  unfold targetIncoming. rewrite filter_cons, filter_nil. by case_decide.
Qed.

Lemma length_filter_filter_le {A} (P Q : A → Prop)
    `{!∀ x, Decision (P x)} `{!∀ x, Decision (Q x)} (l : list A) :
  length (filter P (filter Q l)) ≤ length (filter P l).
Proof.
  induction l as [|x l IH]; [done|].
  rewrite !filter_cons. destruct (decide (Q x)), (decide (P x));
    rewrite ?filter_cons; try case_decide; simpl; try done; lia.
Qed.

Lemma sourceOutgoing_filter (P : Edge → Prop) `{!∀ e, Decision (P e)} es i :
  sourceOutgoing (filter P es) i ≤ sourceOutgoing es i.
Proof. apply length_filter_filter_le. Qed.

Lemma targetIncoming_filter (P : Edge → Prop) `{!∀ e, Decision (P e)} es i :
  targetIncoming (filter P es) i ≤ targetIncoming es i.
Proof. apply length_filter_filter_le. Qed.

Lemma within_le k k' limit : k ≤ k' → within k' limit → within k limit.
Proof. destruct limit; simpl; [lia|done]. Qed.

Lemma degree_ok_filter (P : Edge → Prop) `{!∀ e, Decision (P e)} nodes edges :
  degree_ok nodes edges → degree_ok nodes (filter P edges).
Proof.
  intros Hok n Hn. destruct (Hok n Hn) as [Ho Hi]. split.
  - eapply within_le; [|exact Ho]. apply sourceOutgoing_filter.
  - eapply within_le; [|exact Hi]. apply targetIncoming_filter.
Qed.

Lemma flag_None cond message v :
  flag cond message v = None ↔ cond = false ∧ v = None.
Proof. unfold flag. destruct cond; split; try done; by intros [? ?]. Qed.

Lemma onConnect_source_rules_None sourceType out inc :
  onConnect_source_rules sourceType out inc None = None →
  within (S out) (max_outgoing sourceType).
Proof.
  unfold onConnect_source_rules, max_outgoing.
  repeat case_decide; rewrite ?flag_None, ?bool_decide_eq_false; simpl;
    try done; intros; destruct_and?; try congruence; lia.
Qed.

Lemma onConnect_target_rules_None targetType inc v :
  onConnect_target_rules targetType inc v = None →
  v = None ∧ within (S inc) (max_incoming targetType).
Proof.
  unfold onConnect_target_rules, max_incoming.
  repeat case_decide; rewrite ?flag_None, ?bool_decide_eq_false; simpl;
    try done; intros; destruct_and?; split; try done; try congruence; lia.
Qed.

Lemma onReconnect_source_rules_None sourceType out :
  onReconnect_source_rules sourceType out None = None →
  within (S out) (max_outgoing sourceType).
Proof.
  unfold onReconnect_source_rules, max_outgoing.
  repeat case_decide; rewrite ?flag_None, ?bool_decide_eq_false; simpl;
    try done; intros; destruct_and?; try congruence; lia.
Qed.

Lemma onReconnect_target_rules_None targetType inc v :
  onReconnect_target_rules targetType inc v = None →
  v = None ∧ within (S inc) (max_incoming targetType).
Proof.
  unfold onReconnect_target_rules, max_incoming.
  repeat case_decide; rewrite ?flag_None, ?bool_decide_eq_false; simpl;
    try done; intros; destruct_and?; split; try done; try congruence; lia.
Qed.

(** Adding one connector between two nodes that have room for it. *)
Lemma degree_ok_add nodes edges e sourceNode targetNode :
  NoDup (id <$> nodes) → degree_ok nodes edges →
  find_node nodes (source e) = Some sourceNode →
  find_node nodes (target e) = Some targetNode →
  within (S (sourceOutgoing edges (source e))) (max_outgoing (type sourceNode)) →
  within (S (targetIncoming edges (target e))) (max_incoming (type targetNode)) →
  degree_ok nodes (edges ++ [e]).
Proof.
  intros Hnd Hok Hs Ht Hout Hin n Hn. destruct (Hok n Hn) as [Ho Hi].
  pose proof (find_node_NoDup nodes n Hnd Hn) as Hfind.
  rewrite sourceOutgoing_app, targetIncoming_app.
  rewrite sourceOutgoing_one, targetIncoming_one. split.
  - case_decide as E; [|by rewrite Nat.add_0_r].
    rewrite <- E in Hfind. rewrite Hfind in Hs. injection Hs as ->.
    by rewrite <- E, Nat.add_1_r.
  - case_decide as E; [|by rewrite Nat.add_0_r].
    rewrite <- E in Hfind. rewrite Hfind in Ht. injection Ht as ->.
    by rewrite <- E, Nat.add_1_r.
Qed.

Lemma onConnect_valid_limits (nodes : list Node) (edges : list Edge)
    (params : Connection) (e : Edge) :
  NoDup (id <$> nodes) → degree_ok nodes edges →
  onConnect_check nodes edges params = Valid →
  source e = c_source params → target e = c_target params →
  source e ∈ id <$> nodes ∧ target e ∈ id <$> nodes
  ∧ degree_ok nodes (edges ++ [e]).
Proof.
  intros Hnd Hok Hv Hs Ht. unfold onConnect_check in Hv.
  rewrite <- Hs, <- Ht in Hv.
  destruct (find_node nodes (source e)) as [sourceNode|] eqn:Es; [|done].
  destruct (find_node nodes (target e)) as [targetNode|] eqn:Et; [|done].
  simpl in Hv. case_bool_decide; [done|].
  destruct (existsb _ edges); [done|]. destruct (existsb _ edges); [done|].
  destruct (onConnect_target_rules _ _ _) eqn:Er; [done|].
  apply onConnect_target_rules_None in Er as [Er Hin].
  apply onConnect_source_rules_None in Er.
  destruct (find_node_Some _ _ _ Es) as [Hsn Hsi].
  destruct (find_node_Some _ _ _ Et) as [Htn Hti].
  split; [rewrite <- Hsi; by apply list_elem_of_fmap_2|].
  split; [rewrite <- Hti; by apply list_elem_of_fmap_2|].
  by eapply degree_ok_add.
Qed.


(** X5. On a canvas whose node ids are distinct and whose nodes all respect
    the limits of their types, a connector that [onConnect] accepts joins two
    nodes of the canvas, and the canvas with that connector added still
    respects every limit. *)
Theorem onConnect_keeps_limits (nodes : list Node) (edges : list Edge)
    (params : Connection) (e : Edge) :
  NoDup (id <$> nodes) → degree_ok nodes edges →
  onConnect_check nodes edges params = Valid →
  source e = c_source params → target e = c_target params →
  source e ∈ id <$> nodes ∧ target e ∈ id <$> nodes
  ∧ degree_ok nodes (edges ++ [e]).
Proof. exact (onConnect_valid_limits nodes edges params e). Qed.

Lemma onConnect_keeps_limits_witness :
  let e := connector "e2" "a" HUndefined "b" HUndefined in
  source e ∈ id <$> start_nodes ∧ target e ∈ id <$> start_nodes
  ∧ degree_ok start_nodes (start_edges ++ [e]).
Proof.
  intros e.
  apply (onConnect_keeps_limits start_nodes start_edges
           (connection "a" HNull "b" HNull) e); try reflexivity.
  - refine (bool_decide_unpack _ _). vm_compute. exact I.
  - intros n Hn. repeat (apply elem_of_cons in Hn as [->|Hn]);
      [| | |by apply elem_of_nil in Hn]; vm_compute; split; lia.
Defined.

Lemma onReconnect_valid_limits (nodes : list Node) (edges : list Edge)
    (oldEdge : Edge) (newConnection : Connection) (e : Edge) :
  NoDup (id <$> nodes) → degree_ok nodes edges →
  onReconnect_check nodes edges oldEdge newConnection = Valid →
  source e = c_source newConnection → target e = c_target newConnection →
  source e ∈ id <$> nodes ∧ target e ∈ id <$> nodes
  ∧ degree_ok nodes (filter (λ e', edge_id e' ≠ edge_id oldEdge) edges ++ [e]).
Proof.
  intros Hnd Hok Hv Hs Ht. unfold onReconnect_check in Hv.
  rewrite <- Hs, <- Ht in Hv.
  destruct (find_node nodes (source e)) as [sourceNode|] eqn:Es; [|done].
  destruct (find_node nodes (target e)) as [targetNode|] eqn:Et; [|done].
  simpl in Hv.
  destruct (onReconnect_target_rules _ _ _) eqn:Er; [done|].
  apply onReconnect_target_rules_None in Er as [Er Hin].
  apply onReconnect_source_rules_None in Er.
  destruct (find_node_Some _ _ _ Es) as [Hsn Hsi].
  destruct (find_node_Some _ _ _ Et) as [Htn Hti].
  split; [rewrite <- Hsi; by apply list_elem_of_fmap_2|].
  split; [rewrite <- Hti; by apply list_elem_of_fmap_2|].
  eapply degree_ok_add; [done|by apply degree_ok_filter|done..].
Qed.


(** X6. On such a canvas, a reconnection that [onReconnect] accepts leaves
    every limit respected once the moved connector is taken out and the
    connector with the new end points is put in. *)
Theorem onReconnect_keeps_limits (nodes : list Node) (edges : list Edge)
    (oldEdge : Edge) (newConnection : Connection) (e : Edge) :
  NoDup (id <$> nodes) → degree_ok nodes edges →
  onReconnect_check nodes edges oldEdge newConnection = Valid →
  source e = c_source newConnection → target e = c_target newConnection →
  source e ∈ id <$> nodes ∧ target e ∈ id <$> nodes
  ∧ degree_ok nodes (filter (λ e', edge_id e' ≠ edge_id oldEdge) edges ++ [e]).
Proof.
  exact (onReconnect_valid_limits nodes edges oldEdge newConnection e).
Qed.

Lemma onReconnect_keeps_limits_witness :
  let e := connector "e1" "s" HUndefined "b" HUndefined in
  source e ∈ id <$> start_nodes ∧ target e ∈ id <$> start_nodes
  ∧ degree_ok start_nodes
      (filter (λ e', edge_id e' ≠ "e1") start_edges ++ [e]).
Proof.
  intros e.
  apply (onReconnect_keeps_limits start_nodes start_edges
           (connector "e1" "s" HUndefined "a" HUndefined)
           (connection "s" HNull "b" HNull) e); try reflexivity.
  - refine (bool_decide_unpack _ _). vm_compute. exact I.
  - intros n Hn. repeat (apply elem_of_cons in Hn as [->|Hn]);
      [| | |by apply elem_of_nil in Hn]; vm_compute; split; lia.
Defined.

(** ** Deleting nodes and connectors *)

Lemma renumber_node_from nodes edges n' :
  n' ∈ renumberByFlowSequence nodes edges →
  ∃ n, n ∈ nodes ∧ id n' = id n ∧ type n' = type n
       ∧ position n' = position n.
Proof.
  unfold renumberByFlowSequence. rewrite renumberWithFuel_arrange.
  intros Hn'. apply list_elem_of_lookup in Hn' as [i Hi].
  apply number_from_lookup in Hi as (n & Hn & ->).
  apply list_elem_of_lookup_2, arrange_from_nodes in Hn.
  exists n. split; [done|]. unfold assign_logical_id.
  by destruct (keeps_logical_id (type n)).
Qed.

Lemma degree_ok_renumber nodes edges edges' :
  degree_ok nodes edges → degree_ok (renumberByFlowSequence nodes edges') edges.
Proof.
  intros Hok n' Hn'.
  apply renumber_node_from in Hn' as (n & Hn & -> & -> & _). by apply Hok.
Qed.

Lemma no_dangling_renumber nodes edges edges' :
  no_dangling nodes edges →
  no_dangling (renumberByFlowSequence nodes edges') edges.
Proof.
  intros Hnd e He. rewrite !renumber_elem_of_ids. by apply Hnd.
Qed.



(** X8. The three ways of deleting one connector (the delete tool, the
    delete button of the label editor, the multi-selection with that one
    connector) give the same canvas; the nodes keep their ids, every
    connector with another id stays, and the limits of the node types and
    the absence of dangling connectors are kept. *)
Theorem delete_edge_agrees (now : Z) (edge : Edge) (cv : Canvas) :
  let cv' := handleEdgeClick now "delete" edge cv in
  handleEdgeDelete now (Some edge) cv = cv'
  ∧ deleteSelectedEdges now [edge_id edge] cv = cv'
  ∧ (∀ x, x ∈ id <$> nodes cv' ↔ x ∈ id <$> nodes cv)
  ∧ (∀ e, e ∈ edges cv' ↔ e ∈ edges cv ∧ edge_id e ≠ edge_id edge)
  ∧ (no_dangling (nodes cv) (edges cv) → no_dangling (nodes cv') (edges cv'))
  ∧ (degree_ok (nodes cv) (edges cv) → degree_ok (nodes cv') (edges cv')).
Proof.
  intros cv'. unfold cv', handleEdgeClick, handleEdgeDelete,
    deleteSelectedEdges. rewrite decide_True by done.
  rewrite decide_True by (simpl; lia).
  split; [done|]. split.
  { rewrite (list_filter_iff (λ e, edge_id e ∉ [edge_id edge])
               (λ e, edge_id e ≠ edge_id edge)); [done|].
    intros e. by rewrite list_elem_of_singleton. }
  unfold commit. simpl. split; [|split; [|split]].
  - intros x. by rewrite renumber_elem_of_ids.
  - intros e. rewrite list_elem_of_filter. tauto.
  - intros Hnd. apply no_dangling_renumber. intros e He.
    apply list_elem_of_filter in He as [_ He]. by apply Hnd.
  - intros Hok. by apply degree_ok_renumber, degree_ok_filter.
Qed.

(** ** Undo and redo around a new snapshot *)

Lemma commit_cursor now ns es h :
  history_ok h →
  let h' := saveToHistory now ns es h in
  historyIndex h' = (Z.of_nat (length (history h')) - 1)%Z
  ∧ history h' !! Z.to_nat (historyIndex h')
    = Some {| snap_nodes := ns; snap_edges := es; timestamp := now |}
  ∧ ∀ s, (0 ≤ historyIndex h)%Z →
         history h !! Z.to_nat (historyIndex h) = Some s →
         (0 < historyIndex h')%Z
         ∧ history h' !! Z.to_nat (historyIndex h' - 1) = Some s.
Proof.
  intros [Hi Hl]. unfold saveToHistory. rewrite slice0_take by lia.
  set (kept := take (Z.to_nat (historyIndex h + 1)) (history h)).
  assert (length kept = Z.to_nat (historyIndex h + 1)) as Hk.
  { unfold kept. rewrite length_take. lia. }
  assert (∀ s, (0 ≤ historyIndex h)%Z →
               history h !! Z.to_nat (historyIndex h) = Some s →
               kept !! Z.to_nat (historyIndex h) = Some s) as Hprev.
  { intros s H0 Hs. unfold kept. rewrite lookup_take_lt; [done|lia]. }
  case_decide as Hlen; rewrite length_app in Hlen; simpl in Hlen; simpl.
  - unfold shift. rewrite length_drop, length_app. simpl.
    split; [lia|]. split.
    + rewrite lookup_drop, lookup_app_r by lia.
      replace (1 + Z.to_nat (historyIndex h) - length kept) with 0 by lia.
      done.
    + intros s H0 Hs. split; [lia|].
      rewrite lookup_drop, lookup_app_l by lia.
      replace (1 + Z.to_nat (historyIndex h - 1))
        with (Z.to_nat (historyIndex h)) by lia.
      by apply Hprev.
  - rewrite length_app. simpl. split; [lia|]. split.
    + rewrite lookup_app_r by lia.
      replace (Z.to_nat (historyIndex h + 1) - length kept) with 0 by lia.
      done.
    + intros s H0 Hs. split; [lia|].
      replace (historyIndex h + 1 - 1)%Z with (historyIndex h) by lia.
      rewrite lookup_app_l by lia. by apply Hprev.
Qed.

(** X9. Right after an edit has pushed its snapshot, redo does nothing;
    undo puts back the nodes and connectors of the snapshot that was under
    the cursor before the edit, when there was one, and redo then brings the
    edited canvas back as it was. *)
Theorem undo_redo_after_edit (now : Z) (newNodes : list Node)
    (newEdges : list Edge) (cv : Canvas) :
  history_ok (hist cv) →
  let cv' := commit now newNodes newEdges cv in
  redo cv' = cv'
  ∧ redo (undo cv') = cv'
  ∧ ∀ s, (0 ≤ historyIndex (hist cv))%Z →
         history (hist cv) !! Z.to_nat (historyIndex (hist cv)) = Some s →
         nodes (undo cv') = snap_nodes s ∧ edges (undo cv') = snap_edges s.
Proof.
  intros Hok cv'.
  destruct (commit_cursor now newNodes newEdges (hist cv) Hok)
    as (Htip & Hnew & Hprev).
  pose proof (saveToHistory_ok now newNodes newEdges (hist cv) Hok) as [Hi' _].
  set (h' := saveToHistory now newNodes newEdges (hist cv)) in *.
  assert (redo cv' = cv') as Hredo.
  { unfold redo. rewrite decide_False; [done|]. simpl. fold h'. lia. }
  split; [done|]. split.
  - unfold undo. case_decide as Hpos; [|done]. simpl in Hpos. fold h' in Hpos.
    unfold restore. simpl. fold h'.
    destruct (history h' !! Z.to_nat (historyIndex h' - 1)) as [s|] eqn:Es.
    2:{ apply lookup_ge_None in Es. lia. }
    unfold redo. simpl. rewrite decide_True by lia.
    unfold restore. simpl.
    replace (historyIndex h' - 1 + 1)%Z with (historyIndex h') by lia.
    rewrite Hnew. simpl. unfold cv', commit. fold h'. f_equal.
    by destruct h'.
  - intros s H0 Hs. destruct (Hprev s H0 Hs) as [Hpos Hlook].
    unfold undo. rewrite decide_True by done.
    unfold restore. simpl. fold h'. by rewrite Hlook.
Qed.

Lemma undo_redo_after_edit_witness :
  let cv := commit 0 start_nodes [] initial_canvas in
  let cv' := commit 1 start_nodes start_edges cv in
  redo cv' = cv' ∧ redo (undo cv') = cv'
  ∧ nodes (undo cv') = start_nodes ∧ edges (undo cv') = [].
Proof.
  intros cv cv'.
  destruct (undo_redo_after_edit 1 start_nodes start_edges cv)
    as (H1 & H2 & H3).
  - vm_compute. split; [split; congruence|lia].
  - split; [exact H1|]. split; [exact H2|].
    apply (H3 {| snap_nodes := start_nodes; snap_edges := [];
                 timestamp := 0 |}); [vm_compute; congruence|reflexivity].
Defined.

(** X10. An accepted reconnection pushes a snapshot with the connectors as
    they were before it: when the history already held a snapshot, undo
    followed by redo does not bring the moved connector back but puts the
    earlier connectors on the canvas, whatever the library made of the
    connectors. *)
Theorem onReconnect_snapshot_is_stale
    (reconnectEdge : Edge → Connection → list Edge → list Edge) (now : Z)
    (oldEdge : Edge) (newConnection : Connection) (cv : Canvas) :
  history_ok (hist cv) → (0 ≤ historyIndex (hist cv))%Z →
  onReconnect_check (nodes cv) (edges cv) oldEdge newConnection = Valid →
  let cv' := onReconnect reconnectEdge now oldEdge newConnection cv in
  edges cv' = reconnectEdge oldEdge newConnection (edges cv)
  ∧ edges (redo (undo cv')) = edges cv
  ∧ nodes (redo (undo cv')) = nodes cv'.
Proof.
  intros Hok H0 Hv cv'. unfold cv', onReconnect. rewrite Hv.
  set (ns := renumberByFlowSequence (nodes cv) (edges cv)).
  destruct (commit_cursor now ns (edges cv) (hist cv) Hok)
    as (Htip & Hnew & Hprev).
  pose proof (saveToHistory_ok now ns (edges cv) (hist cv) Hok) as [Hi' _].
  set (h' := saveToHistory now ns (edges cv) (hist cv)) in *.
  split; [done|].
  destruct (history (hist cv) !! Z.to_nat (historyIndex (hist cv)))
    as [s|] eqn:Es.
  2:{ apply lookup_ge_None in Es. destruct Hok. lia. }
  destruct (Hprev s H0 eq_refl) as [Hpos Hlook].
  unfold undo. simpl. rewrite decide_True by done.
  unfold restore. simpl. rewrite Hlook.
  unfold redo. simpl. rewrite decide_True by lia.
  unfold restore. simpl.
  replace (historyIndex h' - 1 + 1)%Z with (historyIndex h') by lia.
  by rewrite Hnew.
Qed.

Lemma onReconnect_snapshot_is_stale_witness :
  let cv := commit 0 start_nodes start_edges initial_canvas in
  let moved := [connector "e1" "s" HUndefined "b" HUndefined] in
  let cv' := onReconnect (λ _ _ _, moved) 1
               (connector "e1" "s" HUndefined "a" HUndefined)
               (connection "s" HNull "b" HNull) cv in
  edges cv' = moved
  ∧ edges (redo (undo cv')) = start_edges
  ∧ nodes (redo (undo cv')) = nodes cv'.
Proof.
  intros cv moved cv'.
  apply (onReconnect_snapshot_is_stale (λ _ _ _, moved) 1
           (connector "e1" "s" HUndefined "a" HUndefined)
           (connection "s" HNull "b" HNull) cv).
  - vm_compute. split; [split; congruence|lia].
  - vm_compute. congruence.
  - reflexivity.
Defined.

(** ** Inserting a node into a connector *)

Lemma filter_other_ids te edges :
  NoDup (edge_id <$> edges) → te ∈ edges →
  edges ≡ₚ te :: filter (λ e, edge_id e ≠ edge_id te) edges.
Proof.
  intros Hnd Hte. induction edges as [|e edges IH]; [by apply elem_of_nil in Hte|].
  rewrite fmap_cons in Hnd. apply NoDup_cons in Hnd as [Hfresh Hnd].
  rewrite filter_cons. apply elem_of_cons in Hte as [->|Hte].
  - rewrite decide_False by (intros H; by apply H).
    rewrite filter_all; [done|]. apply Forall_forall. intros e' He' Heq.
    apply Hfresh. rewrite <- Heq. by apply list_elem_of_fmap_2.
  - rewrite decide_True.
    + rewrite (IH Hnd Hte) at 1. apply Permutation_swap.
    + intros Heq. apply Hfresh. rewrite Heq. by apply list_elem_of_fmap_2.
Qed.

Lemma sourceOutgoing_Permutation es es' i :
  es ≡ₚ es' → sourceOutgoing es i = sourceOutgoing es' i.
Proof. intros H. unfold sourceOutgoing. by rewrite H. Qed.

Lemma targetIncoming_Permutation es es' i :
  es ≡ₚ es' → targetIncoming es i = targetIncoming es' i.
Proof. intros H. unfold targetIncoming. by rewrite H. Qed.

Lemma sourceOutgoing_0 es i : i ∉ source <$> es → sourceOutgoing es i = 0.
Proof.
  intros H. unfold sourceOutgoing. rewrite filter_none; [done|].
  apply Forall_forall. intros e He Hs. apply H. rewrite <- Hs.
  by apply list_elem_of_fmap_2.
Qed.

Lemma targetIncoming_0 es i : i ∉ target <$> es → targetIncoming es i = 0.
Proof.
  intros H. unfold targetIncoming. rewrite filter_none; [done|].
  apply Forall_forall. intros e He Hs. apply H. rewrite <- Hs.
  by apply list_elem_of_fmap_2.
Qed.

(** X11. Inserting a node into a connector of the canvas, when the canvas
    has no dangling connector, its connectors have distinct ids and the id
    of the new node is not in use: the canvas gets exactly one more node
    id; every old node has as many outgoing and as many incoming connectors
    as before; the new node has one of each; no connector dangles; and the
    limits of the node types stay respected when the type of the new node
    allows one connector in and one out. *)
Theorem insertion_keeps_degrees (now1 now2 : Z) (newNode : Node)
    (targetEdge : Edge) (nodes : list Node) (edges : list Edge) :
  targetEdge ∈ edges → no_dangling nodes edges →
  NoDup (edge_id <$> edges) → id newNode ∉ id <$> nodes →
  let out :=
    handleMidStepInsertion now1 now2 newNode (Some targetEdge) nodes edges in
  (∀ x, x ∈ id <$> out.1 ↔ x ∈ id <$> nodes ∨ x = id newNode)
  ∧ (∀ x, x ≠ id newNode →
          sourceOutgoing out.2 x = sourceOutgoing edges x
          ∧ targetIncoming out.2 x = targetIncoming edges x)
  ∧ sourceOutgoing out.2 (id newNode) = 1
  ∧ targetIncoming out.2 (id newNode) = 1
  ∧ no_dangling out.1 out.2
  ∧ (degree_ok nodes edges →
     within 1 (max_outgoing (type newNode)) →
     within 1 (max_incoming (type newNode)) → degree_ok out.1 out.2).
Proof.
  intros Hte Hnd Hids Hfresh out.
  destruct (Hnd _ Hte) as [Hs Ht].
  destruct (find_node nodes (source targetEdge)) as [sourceNode|] eqn:Es.
  2:{ by apply find_node_None in Es. }
  destruct (find_node nodes (target targetEdge)) as [targetNode|] eqn:Et.
  2:{ by apply find_node_None in Et. }
  unfold out, handleMidStepInsertion. rewrite Es, Et. simpl.
  set (new := set_position _ newNode).
  set (filteredEdges := filter _ edges).
  set (edge1 := step_edge _ (source targetEdge) (id newNode)).
  set (edge2 := step_edge _ (id newNode) (target targetEdge)).
  pose proof (filter_other_ids targetEdge edges Hids Hte) as Hperm.
  fold filteredEdges in Hperm.
  assert (id newNode ∉ source <$> edges) as Hns.
  { intros H. apply list_elem_of_fmap in H as (e & Heq & He).
    rewrite Heq in Hfresh. by destruct (Hnd e He). }
  assert (id newNode ∉ target <$> edges) as Hnt.
  { intros H. apply list_elem_of_fmap in H as (e & Heq & He).
    rewrite Heq in Hfresh. by destruct (Hnd e He). }
  assert (source targetEdge ≠ id newNode) as Hsn by congruence.
  assert (target targetEdge ≠ id newNode) as Htn by congruence.
  assert (∀ x, sourceOutgoing (filteredEdges ++ [edge1; edge2]) x
               + (if decide (source targetEdge = x) then 1 else 0)
               = sourceOutgoing edges x
                 + (if decide (source targetEdge = x) then 1 else 0)
                 + (if decide (id newNode = x) then 1 else 0)) as Hout.
  { intros x. rewrite (sourceOutgoing_Permutation edges _ x Hperm).
    change (targetEdge :: filteredEdges) with ([targetEdge] ++ filteredEdges).
    change [edge1; edge2] with ([edge1] ++ [edge2]).
    rewrite !sourceOutgoing_app, !sourceOutgoing_one. simpl. lia. }
  assert (∀ x, targetIncoming (filteredEdges ++ [edge1; edge2]) x
               + (if decide (target targetEdge = x) then 1 else 0)
               = targetIncoming edges x
                 + (if decide (id newNode = x) then 1 else 0)
                 + (if decide (target targetEdge = x) then 1 else 0)) as Hin.
  { intros x. rewrite (targetIncoming_Permutation edges _ x Hperm).
    change (targetEdge :: filteredEdges) with ([targetEdge] ++ filteredEdges).
    change [edge1; edge2] with ([edge1] ++ [edge2]).
    rewrite !targetIncoming_app, !targetIncoming_one. simpl. lia. }
  assert (∀ x, x ≠ id newNode →
               sourceOutgoing (filteredEdges ++ [edge1; edge2]) x
               = sourceOutgoing edges x
               ∧ targetIncoming (filteredEdges ++ [edge1; edge2]) x
                 = targetIncoming edges x) as Hold.
  { intros x Hx. specialize (Hout x). specialize (Hin x).
    rewrite (decide_False (P := id newNode = x)) in Hout, Hin by done. lia. }
  assert (sourceOutgoing (filteredEdges ++ [edge1; edge2]) (id newNode) = 1
          ∧ targetIncoming (filteredEdges ++ [edge1; edge2]) (id newNode) = 1)
    as [Hnew1 Hnew2].
  { specialize (Hout (id newNode)). specialize (Hin (id newNode)).
    rewrite (decide_True (P := id newNode = id newNode)) in Hout, Hin by done.
    rewrite (sourceOutgoing_0 edges) in Hout by done.
    rewrite (targetIncoming_0 edges) in Hin by done. lia. }
  assert (∀ x, x ∈ id <$> renumberByFlowSequence (nodes ++ [new])
                             (filteredEdges ++ [edge1; edge2])
               ↔ x ∈ id <$> nodes ∨ x = id newNode) as Hnodes.
  { intros x. rewrite renumber_elem_of_ids, fmap_app, elem_of_app.
    change (id <$> [new]) with [id newNode].
    by rewrite list_elem_of_singleton. }
  split; [done|]. split; [done|]. split; [done|]. split; [done|]. split.
  - intros e He. rewrite !Hnodes.
    apply elem_of_app in He as [He|He].
    + apply list_elem_of_filter in He as [_ He].
      destruct (Hnd e He). tauto.
    + apply elem_of_cons in He as [->|He]; [simpl; tauto|].
      apply list_elem_of_singleton in He as ->. simpl. tauto.
  - intros Hok Hmo Hmi n' Hn'.
    apply renumber_node_from in Hn' as (n & Hn & -> & -> & _).
    apply elem_of_app in Hn as [Hn|Hn].
    + assert (id n ≠ id newNode) as Hne.
      { intros Heq. apply Hfresh. rewrite <- Heq. by apply list_elem_of_fmap_2. }
      destruct (Hold (id n) Hne) as [-> ->]. by apply Hok.
    + apply list_elem_of_singleton in Hn as ->.
      change (id new) with (id newNode). change (type new) with (type newNode).
      by rewrite Hnew1, Hnew2.
Qed.

Lemma insertion_keeps_degrees_witness :
  let out :=
    handleMidStepInsertion 5 6 (toolbar_node "n" "default" (Some ""))
      (Some (connector "e1" "s" HUndefined "a" HUndefined))
      start_nodes start_edges in
  sourceOutgoing out.2 "n" = 1 ∧ targetIncoming out.2 "n" = 1
  ∧ no_dangling out.1 out.2.
Proof.
  intros out.
  destruct (insertion_keeps_degrees 5 6 (toolbar_node "n" "default" (Some ""))
              (connector "e1" "s" HUndefined "a" HUndefined)
              start_nodes start_edges) as (_ & _ & H1 & H2 & H3 & _).
  - apply list_elem_of_here.
  - intros e He. apply list_elem_of_singleton in He as ->.
    split; refine (bool_decide_unpack _ _); vm_compute; exact I.
  - refine (bool_decide_unpack _ _). vm_compute. exact I.
  - refine (bool_decide_unpack _ _). vm_compute. exact I.
  - split; [exact H1|]. split; [exact H2|exact H3].
Defined.

(** The renumbered nodes are reached exactly as the nodes they come from. *)
Lemma reachable_renumber nodes edges y :
  reachable (renumberByFlowSequence nodes edges) edges y
  ↔ reachable nodes edges y.
Proof.
  by rewrite <- !visit_order_reachable, out_visit_order.
Qed.

Lemma filter_ext_in {A} (P Q : A → Prop) `{!∀ x, Decision (P x)}
    `{!∀ x, Decision (Q x)} (l : list A) :
  (∀ x, x ∈ l → P x ↔ Q x) → filter P l = filter Q l.
Proof.
  induction l as [|x l IH]; intros Hext; [done|].
  rewrite !filter_cons, IH.
  - pose proof (Hext x (list_elem_of_here x l)).
    destruct (decide (P x)), (decide (Q x)); tauto.
  - intros z Hz. apply Hext. by apply list_elem_of_further.
Qed.

Lemma same_edge_id edges e e' :
  NoDup (edge_id <$> edges) → e ∈ edges → e' ∈ edges →
  edge_id e = edge_id e' → e = e'.
Proof.
  intros Hnd He He' Heq.
  apply list_elem_of_lookup in He as [i Hi].
  apply list_elem_of_lookup in He' as [j Hj].
  assert (i = j) as ->; [|congruence].
  apply (NoDup_lookup (edge_id <$> edges) i j (edge_id e)); [done| |].
  - by rewrite list_lookup_fmap, Hi.
  - by rewrite list_lookup_fmap, Hj, Heq.
Qed.

Section Insertion.
Variable nodes : list Node.
Variable edges : list Edge.
Variable te : Edge.
Variable new : Node.
Variable i1 i2 : string.
Hypothesis te_on_canvas : te ∈ edges.
Hypothesis canvas_no_dangling : no_dangling nodes edges.
Hypothesis edge_ids_distinct : NoDup (edge_id <$> edges).
Hypothesis new_id_fresh : id new ∉ id <$> nodes.

Let edge1 := step_edge i1 (source te) (id new).
Let edge2 := step_edge i2 (id new) (target te).
Let newNodes := nodes ++ [new].
Let newEdges := filter (λ e, edge_id e ≠ edge_id te) edges ++ [edge1; edge2].

Lemma newEdges_elem_of e :
  e ∈ newEdges ↔
  (e ∈ edges ∧ edge_id e ≠ edge_id te) ∨ e = edge1 ∨ e = edge2.
Proof.
  unfold newEdges.
  rewrite elem_of_app, list_elem_of_filter, elem_of_cons,
    list_elem_of_singleton. tauto.
Qed.

Lemma newNodes_ids x : x ∈ id <$> newNodes ↔ x ∈ id <$> nodes ∨ x = id new.
Proof.
  unfold newNodes. rewrite fmap_app, elem_of_app.
  change (id <$> [new]) with [id new]. by rewrite list_elem_of_singleton.
Qed.

Lemma new_has_incoming x :
  has_incoming newEdges x ↔ has_incoming edges x ∨ x = id new.
Proof.
  unfold has_incoming. rewrite !list_elem_of_fmap. split.
  - intros (e & -> & He). apply newEdges_elem_of in He as [[He _]|[->| ->]].
    + left. by exists e.
    + by right.
    + left. by exists te.
  - intros [(e & -> & He)| ->].
    + destruct (decide (edge_id e = edge_id te)) as [Heq|Hne].
      * apply (same_edge_id edges e te edge_ids_distinct He te_on_canvas)
          in Heq as ->.
        exists edge2. split; [done|]. apply newEdges_elem_of. tauto.
      * exists e. split; [done|]. apply newEdges_elem_of. tauto.
    + exists edge1. split; [done|]. apply newEdges_elem_of. tauto.
Qed.

Lemma new_actual_starts : actual_starts newNodes newEdges = actual_starts nodes edges.
Proof.
  unfold actual_starts, newNodes. rewrite filter_app.
  rewrite (filter_none _ [new]).
  2:{ apply Forall_singleton. intros H. apply H, new_has_incoming. by right. }
  rewrite app_nil_r.
  rewrite (filter_ext_in (λ node, ¬ has_incoming newEdges (id node))
             (λ node, ¬ has_incoming edges (id node)) nodes).
  2:{ intros n Hn. rewrite new_has_incoming.
      assert (id n ≠ id new); [|tauto].
      intros Heq. apply new_id_fresh. rewrite <- Heq.
      by apply list_elem_of_fmap_2. }
  destruct (filter _ nodes); [|done].
  destruct nodes as [|first others]; [|done].
  destruct (canvas_no_dangling te te_on_canvas) as [H _].
  by apply elem_of_nil in H.
Qed.

Lemma old_step_new x y :
  edge_step nodes edges x y → rtc (edge_step newNodes newEdges) x y.
Proof.
  intros (Hx & e & He & <- & <-).
  destruct (decide (edge_id e = edge_id te)) as [Heq|Hne].
  - apply (same_edge_id edges e te edge_ids_distinct He te_on_canvas)
      in Heq as ->.
    apply (rtc_l _ _ (id new)); [|apply rtc_once].
    + split; [apply newNodes_ids; by left|].
      exists edge1. split; [|done]. apply newEdges_elem_of. tauto.
    + split; [apply newNodes_ids; by right|].
      exists edge2. split; [|done]. apply newEdges_elem_of. tauto.
  - apply rtc_once. split; [apply newNodes_ids; by left|].
    exists e. split; [|done]. apply newEdges_elem_of. tauto.
Qed.

Lemma old_path_new x y :
  rtc (edge_step nodes edges) x y → rtc (edge_step newNodes newEdges) x y.
Proof.
  induction 1 as [|x y z Hstep _ IH]; [done|].
  etrans; [by apply old_step_new|done].
Qed.

Lemma new_path_old s y :
  s ≠ id new → rtc (edge_step newNodes newEdges) s y →
  if decide (y = id new) then rtc (edge_step nodes edges) s (source te)
  else rtc (edge_step nodes edges) s y.
Proof.
  intros Hs. revert y.
  apply (rtc_ind_r (R:=edge_step newNodes newEdges)
           (λ z, if decide (z = id new)
                 then rtc (edge_step nodes edges) s (source te)
                 else rtc (edge_step nodes edges) s z) s).
  { by rewrite decide_False. }
  intros y z _ (Hy & e & He & <- & <-) IH.
  destruct (canvas_no_dangling te te_on_canvas) as [Hts Htt].
  apply newEdges_elem_of in He as [[He _]|[->| ->]].
  - destruct (canvas_no_dangling e He) as [Hes Het].
    rewrite decide_False in IH by congruence.
    rewrite decide_False by congruence.
    eapply rtc_r; [exact IH|]. split; [done|]. by exists e.
  - simpl in *. rewrite decide_False in IH by congruence.
    by rewrite decide_True.
  - simpl in *. rewrite decide_True in IH by done.
    rewrite decide_False by congruence.
    eapply rtc_r; [exact IH|]. split; [done|]. by exists te.
Qed.

Lemma insertion_reachable y :
  reachable newNodes newEdges y ↔
  reachable nodes edges y ∨ (y = id new ∧ reachable nodes edges (source te)).
Proof.
  unfold reachable. rewrite new_actual_starts, newNodes_ids.
  destruct (canvas_no_dangling te te_on_canvas) as [Hts Htt].
  assert (∀ s, s ∈ id <$> actual_starts nodes edges → s ≠ id new) as Hstart.
  { intros s Hs Heq. apply new_id_fresh. rewrite <- Heq.
    apply list_elem_of_fmap in Hs as (n & -> & Hn).
    apply list_elem_of_fmap_2. unfold actual_starts in Hn.
    destruct (filter _ nodes) eqn:E.
    - apply list_elem_of_lookup in Hn as [k Hk].
      apply lookup_take_Some in Hk as [Hk _].
      by eapply list_elem_of_lookup_2.
    - rewrite <- E in Hn. by apply list_elem_of_filter in Hn as [_ ?]. }
  split.
  - intros (Hy & s & Hs & Hrtc).
    pose proof (new_path_old s y (Hstart s Hs) Hrtc) as Hold.
    destruct (decide (y = id new)) as [->|Hne].
    + right. split; [done|]. split; [done|]. by exists s.
    + left. split; [tauto|]. by exists s.
  - intros [(Hy & s & Hs & Hrtc)|(-> & _ & s & Hs & Hrtc)].
    + split; [by left|]. exists s. split; [done|]. by apply old_path_new.
    + split; [by right|]. exists s. split; [done|].
      eapply rtc_r; [by apply old_path_new|].
      split; [apply newNodes_ids; by left|].
      exists edge1. split; [|done]. apply newEdges_elem_of. tauto.
Qed.
End Insertion.

(** X12. Under the same conditions the insertion cuts no node off: a node of
    the old canvas can be reached from a start node after the insertion
    exactly when it could before, and the new node can be reached exactly
    when the source of the connector it was put into could. *)
Theorem insertion_keeps_reachability (now1 now2 : Z) (newNode : Node)
    (targetEdge : Edge) (nodes : list Node) (edges : list Edge) :
  targetEdge ∈ edges → no_dangling nodes edges →
  NoDup (edge_id <$> edges) → id newNode ∉ id <$> nodes →
  let out :=
    handleMidStepInsertion now1 now2 newNode (Some targetEdge) nodes edges in
  ∀ y, reachable out.1 out.2 y ↔
       reachable nodes edges y
       ∨ (y = id newNode ∧ reachable nodes edges (source targetEdge)).
Proof.
  intros Hte Hnd Hids Hfresh out y.
  destruct (Hnd _ Hte) as [Hs Ht].
  destruct (find_node nodes (source targetEdge)) as [sourceNode|] eqn:Es.
  2:{ by apply find_node_None in Es. }
  destruct (find_node nodes (target targetEdge)) as [targetNode|] eqn:Et.
  2:{ by apply find_node_None in Et. }
  unfold out, handleMidStepInsertion. rewrite Es, Et. simpl.
  rewrite reachable_renumber.
  set (new := set_position _ newNode).
  by apply (insertion_reachable nodes edges targetEdge new).
Qed.

Lemma insertion_keeps_reachability_witness :
  let out :=
    handleMidStepInsertion 5 6 (toolbar_node "n" "default" (Some ""))
      (Some (connector "e1" "s" HUndefined "a" HUndefined))
      start_nodes start_edges in
  reachable out.1 out.2 "n" ↔
  reachable start_nodes start_edges "n"
  ∨ ("n" = "n" ∧ reachable start_nodes start_edges "s").
Proof.
  intros out.
  apply (insertion_keeps_reachability 5 6
           (toolbar_node "n" "default" (Some ""))
           (connector "e1" "s" HUndefined "a" HUndefined)
           start_nodes start_edges).
  - apply list_elem_of_here.
  - intros e He. apply list_elem_of_singleton in He as ->.
    split; refine (bool_decide_unpack _ _); vm_compute; exact I.
  - refine (bool_decide_unpack _ _). vm_compute. exact I.
  - refine (bool_decide_unpack _ _). vm_compute. exact I.
Defined.

(** ** The layout *)

Section LayoutFacts.
Variable dagre : list (string * (Q * Q)) → list (string * string) →
                 string → Position.

Lemma edgesWithHandles_lookup nodes edges i e :
  edges !! i = Some e →
  ∃ e', edgesWithHandles nodes edges !! i = Some e'
        ∧ edge_id e' = edge_id e ∧ source e' = source e
        ∧ target e' = target e ∧ targetHandle e' = targetHandle e
        ∧ edge_label e' = edge_label e.
Proof.
  intros Hi. unfold edgesWithHandles. rewrite list_lookup_imap, Hi. simpl.
  eexists. split; [done|].
  destruct (find_node nodes (source e)); [|done]. by case_decide.
Qed.

Lemma edgesWithHandles_fields {A} (f : Edge → A) nodes edges :
  (∀ e h, f {| edge_id := edge_id e; source := source e; target := target e;
               sourceHandle := h; targetHandle := targetHandle e;
               edge_label := edge_label e |} = f e) →
  f <$> edgesWithHandles nodes edges = f <$> edges.
Proof.
  intros Hf. apply list_eq. intros i. unfold edgesWithHandles.
  rewrite !list_lookup_fmap, list_lookup_imap.
  destruct (edges !! i) as [e|]; [|done]. simpl. f_equal.
  destruct (find_node nodes (source e)); [|done]. by case_decide.
Qed.

Lemma layout_node_fields nodes edges :
  (λ n, (id n, type n, data n)) <$> (getLayoutedElements dagre nodes edges).1
  = (λ n, (id n, type n, data n)) <$> nodes.
Proof.
  unfold getLayoutedElements. simpl. rewrite <- list_fmap_compose.
  apply list_fmap_ext. intros i n _. simpl.
  by destruct (node_offset (type n)).
Qed.

Lemma layout_ids nodes edges :
  id <$> (getLayoutedElements dagre nodes edges).1 = id <$> nodes.
Proof.
  pose proof (f_equal (fmap (λ p : string * string * NodeData, p.1.1))
                (layout_node_fields nodes edges)) as H.
  by rewrite <- !list_fmap_compose in H.
Qed.

Lemma layout_edge_fields nodes edges :
  (λ e, (edge_id e, source e, target e, targetHandle e, edge_label e))
    <$> (getLayoutedElements dagre nodes edges).2
  = (λ e, (edge_id e, source e, target e, targetHandle e, edge_label e))
      <$> edges.
Proof. by apply edgesWithHandles_fields. Qed.

Lemma sourceOutgoing_sources es i :
  sourceOutgoing es i = length (filter (λ x, x = i) (source <$> es)).
Proof.
  unfold sourceOutgoing. rewrite <- (length_fmap source). f_equal.
  exact (filter_fmap_id source (λ x, x = i) es).
Qed.

Lemma targetIncoming_targets es i :
  targetIncoming es i = length (filter (λ x, x = i) (target <$> es)).
Proof.
  unfold targetIncoming. rewrite <- (length_fmap target). f_equal.
  exact (filter_fmap_id target (λ x, x = i) es).
Qed.

Lemma layout_sourceOutgoing nodes edges i :
  sourceOutgoing (getLayoutedElements dagre nodes edges).2 i
  = sourceOutgoing edges i.
Proof.
  rewrite !sourceOutgoing_sources. do 2 f_equal.
  by apply edgesWithHandles_fields.
Qed.

Lemma layout_targetIncoming nodes edges i :
  targetIncoming (getLayoutedElements dagre nodes edges).2 i
  = targetIncoming edges i.
Proof.
  rewrite !targetIncoming_targets. do 2 f_equal.
  by apply edgesWithHandles_fields.
Qed.

Lemma layout_no_dangling nodes edges :
  no_dangling nodes edges →
  no_dangling (getLayoutedElements dagre nodes edges).1
              (getLayoutedElements dagre nodes edges).2.
Proof.
  intros Hnd e' He'. rewrite layout_ids.
  apply list_elem_of_lookup in He' as [i Hi]. simpl in Hi.
  destruct (edges !! i) as [e|] eqn:Ee.
  - destruct (edgesWithHandles_lookup nodes edges i e Ee)
      as (e'' & He'' & _ & Hs & Ht & _).
    rewrite Hi in He''. injection He'' as <-. rewrite Hs, Ht.
    apply Hnd. by eapply list_elem_of_lookup_2.
  - unfold edgesWithHandles in Hi. by rewrite list_lookup_imap, Ee in Hi.
Qed.

Lemma layout_degree_ok nodes edges :
  degree_ok nodes edges →
  degree_ok (getLayoutedElements dagre nodes edges).1
            (getLayoutedElements dagre nodes edges).2.
Proof.
  intros Hok n' Hn'.
  rewrite layout_sourceOutgoing, layout_targetIncoming.
  apply (list_elem_of_fmap_2 (λ n, (id n, type n, data n))) in Hn'.
  rewrite layout_node_fields in Hn'.
  apply list_elem_of_fmap in Hn' as (n & [= -> -> _] & Hn). by apply Hok.
Qed.

(** The ports given to the connectors that leave [s], from the [k]-th
    on. *)
Lemma edgesWithHandles_ports nodes all d s pre l :
  find_node nodes s = Some d → type d = "decision" →
  sourceOutgoing all s ≤ 3 → all = pre ++ l →
  sourceHandle <$>
    filter (λ e, source e = s)
      (imap (λ i edge,
               match find_node nodes (source edge) with
               | Some sourceNode =>
                   if decide (type sourceNode = "decision"
                              ∧ sourceOutgoing all (source edge) ≤ 3)
                   then {| edge_id := edge_id edge; source := source edge;
                           target := target edge;
                           sourceHandle :=
                             HId (decision_handle
                                    (sourceOutgoing (take (length pre + i) all)
                                                    (source edge)));
                           targetHandle := targetHandle edge;
                           edge_label := edge_label edge |}
                   else edge
               | None => edge
               end) l)
  = (λ k, HId (decision_handle k))
      <$> seq (sourceOutgoing pre s) (sourceOutgoing l s).
Proof.
  intros Hd Ht H3. revert pre.
  induction l as [|e l IH]; intros pre Hall; [done|].
  rewrite imap_cons.
  assert (all = (pre ++ [e]) ++ l) as Hall' by by rewrite <- app_assoc.
  specialize (IH (pre ++ [e]) Hall').
  rewrite (imap_ext _
             (λ i edge,
               match find_node nodes (source edge) with
               | Some sourceNode =>
                   if decide (type sourceNode = "decision"
                              ∧ sourceOutgoing all (source edge) ≤ 3)
                   then {| edge_id := edge_id edge; source := source edge;
                           target := target edge;
                           sourceHandle :=
                             HId (decision_handle
                                    (sourceOutgoing
                                       (take (length (pre ++ [e]) + i) all)
                                       (source edge)));
                           targetHandle := targetHandle edge;
                           edge_label := edge_label edge |}
                   else edge
               | None => edge
               end) l).
  2:{ intros i x _. simpl. rewrite length_app. simpl.
      by replace (length pre + S i) with (length pre + 1 + i) by lia. }
  change (sourceOutgoing (e :: l) s) with (sourceOutgoing ([e] ++ l) s).
  rewrite sourceOutgoing_app, sourceOutgoing_one, filter_cons.
  destruct (decide (source e = s)) as [Hs|Hs].
  - subst s. rewrite Hd.
    rewrite (decide_True (P := type d = "decision" ∧ _)) by done. simpl.
    rewrite decide_True by done. rewrite fmap_cons. simpl.
    rewrite sourceOutgoing_app, sourceOutgoing_one, decide_True in IH by done.
    rewrite IH, Nat.add_0_r, Hall, take_app_length.
    by rewrite Nat.add_1_r.
  - rewrite decide_False.
    2:{ destruct (find_node nodes (source e)); [|done]. by case_decide. }
    rewrite sourceOutgoing_app, sourceOutgoing_one, decide_False in IH by done.
    by rewrite IH, Nat.add_0_r.
Qed.

(** X13. The layout gives the connectors that leave a decision node with at
    most three exits the ports right, top and bottom, in the order in which
    the connectors are stored and whatever ports they had: no two of them
    share a port. *)
Theorem layout_decision_ports (nodes : list Node) (edges : list Edge)
    (d : Node) (s : string) :
  find_node nodes s = Some d → type d = "decision" →
  sourceOutgoing edges s ≤ 3 →
  let exits := filter (λ e, source e = s)
                      (getLayoutedElements dagre nodes edges).2 in
  sourceHandle <$> exits
  = HId <$> take (sourceOutgoing edges s) ["right"; "top"; "bottom"]
  ∧ NoDup (sourceHandle <$> exits).
Proof.
  intros Hd Ht H3 exits.
  assert (sourceHandle <$> exits
          = HId <$> take (sourceOutgoing edges s) ["right"; "top"; "bottom"])
    as Hexits.
  { etrans;
      [exact (edgesWithHandles_ports nodes edges d s [] edges Hd Ht H3 eq_refl)|].
    change (sourceOutgoing [] s) with 0.
    destruct (sourceOutgoing edges s) as [|[|[|[|k]]]]; try done. lia. }
  split; [done|]. rewrite Hexits.
  assert (Inj (=) (=) HId) as Hinj by (by intros x y [= ->]).
  apply (NoDup_fmap_2 HId).
  eapply sublist_NoDup; [|apply sublist_take].
  refine (bool_decide_unpack _ _). vm_compute. exact I.
Qed.

(** X14. The layout changes nothing but positions and source ports: the
    nodes keep their order, ids, types and data, the connectors their
    order, ids, end points, target ports and labels; so every node has the
    connectors it had, no connector starts to dangle, and the limits of
    the node types stay respected. *)
Theorem layout_keeps_structure (nodes : list Node) (edges : list Edge) :
  let out := getLayoutedElements dagre nodes edges in
  (λ n, (id n, type n, data n)) <$> out.1
  = (λ n, (id n, type n, data n)) <$> nodes
  ∧ (λ e, (edge_id e, source e, target e, targetHandle e, edge_label e))
      <$> out.2
    = (λ e, (edge_id e, source e, target e, targetHandle e, edge_label e))
        <$> edges
  ∧ (∀ i, sourceOutgoing out.2 i = sourceOutgoing edges i
          ∧ targetIncoming out.2 i = targetIncoming edges i)
  ∧ (no_dangling nodes edges → no_dangling out.1 out.2)
  ∧ (degree_ok nodes edges → degree_ok out.1 out.2).
Proof.
  intros out. split; [apply layout_node_fields|].
  split; [apply layout_edge_fields|]. split; [|split].
  - intros i. split; [apply layout_sourceOutgoing|apply layout_targetIncoming].
  - apply layout_no_dangling.
  - apply layout_degree_ok.
Qed.
End LayoutFacts.

Lemma layout_decision_ports_witness :
  let exits := filter (λ e, source e = "d")
                 (getLayoutedElements example_dagre gateway_nodes
                    gateway_edges).2 in
  sourceHandle <$> exits = [HId "right"; HId "top"]
  ∧ NoDup (sourceHandle <$> exits).
Proof.
  intros exits.
  apply (layout_decision_ports example_dagre gateway_nodes gateway_edges
           (toolbar_node "d" "decision" (Some "1.1.1.2")) "d").
  - reflexivity.
  - reflexivity.
  - vm_compute. lia.
Defined.

(** ** A batch of proposed changes only adds *)

Lemma apply_change_only_adds o m c :
  id <$> m_nodes m `prefix_of` id <$> m_nodes (apply_change o m c)
  ∧ m_edges m `prefix_of` m_edges (apply_change o m c)
  ∧ m_warnings m `prefix_of` m_warnings (apply_change o m c)
  ∧ (no_dangling (m_nodes m) (m_edges m) →
     no_dangling (m_nodes (apply_change o m c)) (m_edges (apply_change o m c))).
Proof.
  assert (id <$> m_nodes m `prefix_of` id <$> m_nodes m
          ∧ m_edges m `prefix_of` m_edges m
          ∧ m_warnings m `prefix_of` m_warnings m
          ∧ (no_dangling (m_nodes m) (m_edges m) →
             no_dangling (m_nodes m) (m_edges m))) as Hsame.
  { split; [reflexivity|]. split; [reflexivity|]. split; [reflexivity|done]. }
  destruct c as [spec|spec|spec|]; simpl; [| | |done].
  - destruct (new_node o spec (m_calls m)) as [n' c']. simpl.
    split; [rewrite fmap_app; by apply prefix_app_r|].
    split; [reflexivity|]. split; [reflexivity|].
    intros Hnd e He. destruct (Hnd e He).
    rewrite fmap_app, !elem_of_app. tauto.
  - destruct (findIndex (m_nodes m) (ns_id spec)) as [k|]; [|done].
    destruct (m_nodes m !! k) as [n|] eqn:Ek; [|done].
    destruct (truthy (user_modified (data n))); [done|]. simpl.
    assert (id <$> <[k:=set_label (ns_label spec) n]> (m_nodes m)
            = id <$> m_nodes m) as Hids.
    { rewrite list_fmap_insert. apply list_insert_id.
      by rewrite list_lookup_fmap, Ek. }
    unfold no_dangling. by rewrite Hids.
  - destruct (has_node (m_nodes m) (es_source spec)) eqn:Hs;
      destruct (has_node (m_nodes m) (es_target spec)) eqn:Ht; simpl;
      try (split; [reflexivity|]; split; [reflexivity|]; split;
           [by apply prefix_app_r|done]).
    destruct (id_or_uuid o (es_id spec) (m_calls m)) as [new_id c']. simpl.
    split; [reflexivity|]. split; [by apply prefix_app_r|].
    split; [reflexivity|].
    intros Hnd e He. apply elem_of_app in He as [He|He]; [by apply Hnd|].
    apply list_elem_of_singleton in He as ->. simpl.
    apply has_node_true in Hs as (n1 & Hn1 & <-).
    apply has_node_true in Ht as (n2 & Hn2 & <-).
    split; by apply list_elem_of_fmap_2.
Qed.

Lemma apply_changes_only_adds o cs m :
  id <$> m_nodes m `prefix_of` id <$> m_nodes (apply_changes o cs m)
  ∧ m_edges m `prefix_of` m_edges (apply_changes o cs m)
  ∧ m_warnings m `prefix_of` m_warnings (apply_changes o cs m)
  ∧ (no_dangling (m_nodes m) (m_edges m) →
     no_dangling (m_nodes (apply_changes o cs m))
                 (m_edges (apply_changes o cs m))).
Proof.
  revert m. induction cs as [|c cs IH]; intros m.
  { split; [reflexivity|]. split; [reflexivity|]. split; [reflexivity|done]. }
  rewrite apply_changes_cons.
  destruct (apply_change_only_adds o m c) as (Hn & He & Hw & Hd).
  destruct (IH (apply_change o m c)) as (Hn' & He' & Hw' & Hd').
  split; [by etrans|]. split; [by etrans|]. split; [by etrans|]. tauto.
Qed.

(** X15. A batch of proposed changes never takes anything away from the
    canvas: the nodes of before come first in the result and keep their ids
    and order, the connectors of before come first and keep their ids, end
    points, target ports and labels, the warnings logged before stay; and
    when no connector dangled before, none dangles after, whatever the
    changes propose. *)
Theorem incremental_flow_only_adds
    (dagre : list (string * (Q * Q)) → list (string * string) →
             string → Position)
    (o : Oracle) (now : Z) (changes : list Change) (s : Live) :
  let s' := generateIncrementalFlow dagre o now changes s in
  let fields := λ e, (edge_id e, source e, target e, targetHandle e,
                      edge_label e) in
  id <$> nodes (canvas s) `prefix_of` id <$> nodes (canvas s')
  ∧ fields <$> edges (canvas s) `prefix_of` fields <$> edges (canvas s')
  ∧ logged s `prefix_of` logged s'
  ∧ (no_dangling (nodes (canvas s)) (edges (canvas s)) →
     no_dangling (nodes (canvas s')) (edges (canvas s'))).
Proof.
  intros s' fields. unfold s', generateIncrementalFlow.
  destruct changes as [|c cs].
  { split; [reflexivity|]. split; [reflexivity|]. split; [reflexivity|done]. }
  set (m0 := {| m_nodes := nodes (canvas s); m_edges := edges (canvas s);
                m_warnings := logged s; m_calls := calls s |}).
  set (m := apply_changes o (c :: cs) m0).
  destruct (apply_changes_only_adds o (c :: cs) m0) as (Hn & He & Hw & Hd).
  fold m in Hn, He, Hw, Hd. simpl in Hn, He, Hw, Hd.
  pose proof (layout_ids dagre (m_nodes m) (m_edges m)) as Hids.
  pose proof (layout_edge_fields dagre (m_nodes m) (m_edges m)) as Hfields.
  pose proof (layout_no_dangling dagre (m_nodes m) (m_edges m)) as Hlayout.
  destruct (getLayoutedElements dagre (m_nodes m) (m_edges m)) as [ln le].
  simpl in *. split; [by rewrite Hids|]. split.
  - unfold fields. rewrite Hfields. destruct He as [k ->].
    rewrite fmap_app. by apply prefix_app_r.
  - split; [done|]. tauto.
Qed.

(** ** The logical id proposed for a new step *)

Lemma bounded_check (P : nat → bool) (bound : nat) :
  forallb P (seq 0 bound) = true → ∀ k, k < bound → P k = true.
Proof.
  intros H k Hk. rewrite forallb_forall in H. apply H, in_seq. lia.
Qed.

Lemma ltb_single_digits j k :
  j ≤ 9 → k ≤ 9 →
  String.ltb ("1.1.1." +:+ pretty j) ("1.1.1." +:+ pretty k)
  = bool_decide (j < k).
Proof.
  intros Hj Hk.
  do 10 (destruct j as [|j];
         [do 10 (destruct k as [|k]; [by vm_compute|]); lia|]).
  lia.
Qed.

Lemma nothing_above_nine k :
  k ≤ 89 → String.ltb "1.1.1.9" ("1.1.1." +:+ pretty k) = false.
Proof.
  intros Hk.
  pose proof (bounded_check
    (λ k : nat, negb (String.ltb "1.1.1.9" ("1.1.1." +:+ pretty k)))
    90 eq_refl
    k ltac:(lia)) as H.
  by apply negb_true_iff in H.
Qed.

Lemma only_nine_reaches_nine k :
  k ≤ 89 → String.ltb ("1.1.1." +:+ pretty k) "1.1.1.9" = false → k = 9.
Proof.
  intros Hk Hlt.
  pose proof (bounded_check
    (λ k : nat,
       String.ltb ("1.1.1." +:+ pretty k) "1.1.1.9" || bool_decide (k = 9))
    90 eq_refl k ltac:(lia)) as H.
  simpl in H. rewrite Hlt in H. by apply bool_decide_eq_true in H.
Qed.

Lemma logical_number_prefix (k : nat) :
  String.prefix "1.1.1." ("1.1.1." +:+ pretty k) = true.
Proof. simpl. by destruct (pretty k). Qed.

Lemma higher_id_cases maxId n :
  higher_id maxId n = maxId
  ∨ ∃ l, logical_id (data n) = Some l ∧ String.prefix "1.1.1." l = true
         ∧ String.ltb maxId l = true ∧ higher_id maxId n = l.
Proof.
  unfold higher_id. destruct (logical_id (data n)) as [l|]; [|by left].
  destruct (bool_decide (l ≠ "")); simpl; [|by left].
  destruct (String.prefix "1.1.1." l) eqn:Hp; simpl; [|by left].
  destruct (String.ltb maxId l) eqn:Hl; [|by left].
  right. by exists l.
Qed.

Lemma higher_id_takes maxId n (k : nat) :
  logical_id (data n) = Some ("1.1.1." +:+ pretty k) →
  higher_id maxId n
  = if String.ltb maxId ("1.1.1." +:+ pretty k)
    then "1.1.1." +:+ pretty k else maxId.
Proof.
  intros Hl. unfold higher_id. rewrite Hl, logical_number_prefix.
  rewrite bool_decide_eq_true_2; [done|]. simpl. by destruct (pretty k).
Qed.

Section NextLogicalIdFacts.
Variable parseInt : string → option Z.

Lemma numbers_below_cons bound n nodes :
  numbers_below bound (n :: nodes) → numbers_below bound nodes.
Proof. intros H n' l Hn'. apply H. by apply list_elem_of_further. Qed.

Lemma highest_single_digit nodes j0 :
  numbers_below 9 nodes → j0 ≤ 9 →
  ∃ j, j ≤ 9 ∧ j0 ≤ j
       ∧ foldl higher_id ("1.1.1." +:+ pretty j0) nodes = "1.1.1." +:+ pretty j
       ∧ (∀ n k, n ∈ nodes →
                 logical_id (data n) = Some ("1.1.1." +:+ pretty k) → k ≤ j)
       ∧ (j = j0 ∨ ∃ n, n ∈ nodes
                        ∧ logical_id (data n) = Some ("1.1.1." +:+ pretty j)).
Proof.
  revert j0. induction nodes as [|n nodes IH]; intros j0 Hb Hj0.
  { exists j0. split; [done|]. split; [done|]. split; [done|].
    split; [|by left]. by intros n k Hn%elem_of_nil. }
  simpl.
  assert (∃ j1, j1 ≤ 9 ∧ j0 ≤ j1
                ∧ higher_id ("1.1.1." +:+ pretty j0) n = "1.1.1." +:+ pretty j1
                ∧ (∀ k, logical_id (data n) = Some ("1.1.1." +:+ pretty k) →
                        k ≤ j1)
                ∧ (j1 = j0 ∨ logical_id (data n)
                             = Some ("1.1.1." +:+ pretty j1)))
    as (j1 & Hj1 & Hle & -> & Hmax & Hfrom).
  { destruct (higher_id_cases ("1.1.1." +:+ pretty j0) n)
      as [Hsame|(l & Hl & Hp & Hlt & Hhigher)].
    - exists j0. split; [done|]. split; [done|]. split; [done|].
      split; [|by left]. intros k Hk.
      rewrite (higher_id_takes _ n k Hk) in Hsame.
      destruct (Hb n _ (list_elem_of_here _ _) Hk (logical_number_prefix k))
        as (k' & Hk' & Heq).
      apply (f_equal Some), logical_number_inj in Heq as ->.
      rewrite ltb_single_digits in Hsame by done.
      case_bool_decide as Hlt; [|lia].
      apply (f_equal Some), logical_number_inj in Hsame. lia.
    - destruct (Hb n l (list_elem_of_here _ _) Hl Hp) as (k & Hk & ->).
      rewrite ltb_single_digits in Hlt by done.
      apply bool_decide_eq_true in Hlt.
      exists k. split; [done|]. split; [lia|]. split; [done|].
      split; [|by right]. intros k' Hk'. rewrite Hl in Hk'.
      apply logical_number_inj in Hk'. lia. }
  destruct (IH j1 (numbers_below_cons _ _ _ Hb) Hj1)
    as (j & Hj & Hle' & Hfold & Hmax' & Hfrom').
  exists j. split; [done|]. split; [lia|]. split; [done|]. split.
  - intros n' k Hn' Hk. apply elem_of_cons in Hn' as [->|Hn'].
    + specialize (Hmax k Hk). lia.
    + by apply (Hmax' n').
  - destruct Hfrom' as [->|(n' & Hn' & Hl')].
    + destruct Hfrom as [->|Hl]; [by left|].
      right. exists n. split; [apply list_elem_of_here|done].
    + right. exists n'. split; [by apply list_elem_of_further|done].
Qed.

Lemma highest_stays_nine nodes :
  numbers_below 89 nodes → foldl higher_id "1.1.1.9" nodes = "1.1.1.9".
Proof.
  induction nodes as [|n nodes IH]; intros Hb; [done|]. simpl.
  destruct (higher_id_cases "1.1.1.9" n) as [->|(l & Hl & Hp & Hlt & _)].
  { apply IH. by eapply numbers_below_cons. }
  destruct (Hb n l (list_elem_of_here _ _) Hl Hp) as (k & Hk & ->).
  by rewrite nothing_above_nine in Hlt.
Qed.

Lemma highest_is_nine nodes n9 j0 :
  numbers_below 89 nodes → j0 ≤ 89 →
  n9 ∈ nodes → logical_id (data n9) = Some "1.1.1.9" →
  foldl higher_id ("1.1.1." +:+ pretty j0) nodes = "1.1.1.9".
Proof.
  revert j0. induction nodes as [|n nodes IH]; intros j0 Hb Hj0 Hn9 Hl9.
  { by apply elem_of_nil in Hn9. }
  simpl. apply elem_of_cons in Hn9 as [<-|Hn9].
  - rewrite (higher_id_takes _ n9 9 Hl9).
    destruct (String.ltb _ _) eqn:Hlt.
    + apply highest_stays_nine. by eapply numbers_below_cons.
    + apply only_nine_reaches_nine in Hlt as ->; [|done].
      apply highest_stays_nine. by eapply numbers_below_cons.
  - destruct (higher_id_cases ("1.1.1." +:+ pretty j0) n)
      as [->|(l & Hl & Hp & _ & ->)].
    + apply IH; [by eapply numbers_below_cons|done..].
    + destruct (Hb n l (list_elem_of_here _ _) Hl Hp) as (k & Hk & ->).
      apply IH; [by eapply numbers_below_cons|done..].
Qed.

Lemma increment_last_single_digit j :
  j ≤ 9 → parseInt (pretty j) = Some (Z.of_nat j) →
  increment_last parseInt ("1.1.1." +:+ pretty j)
  = "1.1.1." +:+ pretty (S j).
Proof.
  intros Hj Hp. unfold increment_last.
  do 10 (destruct j as [|j];
         [vm_compute in Hp; vm_compute; rewrite Hp; reflexivity|]).
  lia.
Qed.

Lemma next_id_single_digits nodes :
  (∀ k, k ≤ 9 → parseInt (pretty k) = Some (Z.of_nat k)) →
  numbers_below 9 nodes →
  ∃ j, j ≤ 9
       ∧ getNextLogicalId parseInt nodes = "1.1.1." +:+ pretty (S j)
       ∧ (∀ n k, n ∈ nodes →
                 logical_id (data n) = Some ("1.1.1." +:+ pretty k) → k ≤ j)
       ∧ (j = 0 ∨ ∃ n, n ∈ nodes
                       ∧ logical_id (data n) = Some ("1.1.1." +:+ pretty j)).
Proof.
  intros Hparse Hb. unfold getNextLogicalId. case_decide as Hlen.
  { apply length_zero_iff_nil in Hlen as ->. exists 0.
    split; [lia|]. split; [done|]. split; [|by left].
    by intros n k Hn%elem_of_nil. }
  destruct (highest_single_digit nodes 0 Hb ltac:(lia))
    as (j & Hj & _ & Hfold & Hmax & Hfrom).
  change ("1.1.1." +:+ pretty 0) with "1.1.1.0" in Hfold. rewrite Hfold.
  exists j. split; [done|].
  split; [by apply increment_last_single_digit, Hparse|done].
Qed.

Lemma next_id_collides nodes n9 :
  parseInt "9" = Some 9%Z → numbers_below 89 nodes →
  n9 ∈ nodes → logical_id (data n9) = Some "1.1.1.9" →
  getNextLogicalId parseInt nodes = "1.1.1.10".
Proof.
  intros Hparse Hb Hn9 Hl9. unfold getNextLogicalId.
  rewrite decide_False.
  2:{ intros Hlen. apply length_zero_iff_nil in Hlen. subst nodes.
      by apply elem_of_nil in Hn9. }
  change "1.1.1.0" with ("1.1.1." +:+ pretty 0).
  rewrite (highest_is_nine nodes n9 0 Hb ltac:(lia) Hn9 Hl9).
  by apply (increment_last_single_digit 9).
Qed.

(** X16. While every logical id under [1.1.1.] has a single digit as its
    number, [getNextLogicalId] proposes the number after the highest one in
    use (1 on a canvas without any), and no node carries the proposed
    id. *)
Theorem getNextLogicalId_single_digits (nodes : list Node) :
  (∀ k, k ≤ 9 → parseInt (pretty k) = Some (Z.of_nat k)) →
  numbers_below 9 nodes →
  ∃ j, j ≤ 9
       ∧ getNextLogicalId parseInt nodes = "1.1.1." +:+ pretty (S j)
       ∧ (∀ n k, n ∈ nodes →
                 logical_id (data n) = Some ("1.1.1." +:+ pretty k) → k ≤ j)
       ∧ (j = 0 ∨ ∃ n, n ∈ nodes
                       ∧ logical_id (data n) = Some ("1.1.1." +:+ pretty j))
       ∧ ∀ n, n ∈ nodes →
              logical_id (data n) ≠ Some (getNextLogicalId parseInt nodes).
Proof.
  intros Hparse Hb.
  destruct (next_id_single_digits nodes Hparse Hb)
    as (j & Hj & Hnext & Hmax & Hfrom).
  exists j. split; [done|]. split; [done|]. split; [done|]. split; [done|].
  intros n Hn Hl. rewrite Hnext in Hl. specialize (Hmax n (S j) Hn Hl). lia.
Qed.

(** X17. Once a node carries [1.1.1.9], and while the numbers in use stay
    below 90, [getNextLogicalId] proposes [1.1.1.10] whatever other ids are
    in use: the strings are compared character by character, and none of
    [1.1.1.10] to [1.1.1.89] comes after [1.1.1.9]. From the tenth step on
    the proposed id is therefore one that a node already carries. *)
Theorem getNextLogicalId_repeats_ten (nodes : list Node) (n9 : Node) :
  parseInt "9" = Some 9%Z → numbers_below 89 nodes →
  n9 ∈ nodes → logical_id (data n9) = Some "1.1.1.9" →
  getNextLogicalId parseInt nodes = "1.1.1.10"
  ∧ ∀ n10, n10 ∈ nodes → logical_id (data n10) = Some "1.1.1.10" →
           logical_id (data n10) = Some (getNextLogicalId parseInt nodes).
Proof.
  intros Hparse Hb Hn9 Hl9.
  pose proof (next_id_collides nodes n9 Hparse Hb Hn9 Hl9) as Hnext.
  split; [done|]. intros n10 _ Hl. by rewrite Hnext.
Qed.
End NextLogicalIdFacts.

Lemma getNextLogicalId_single_digits_witness :
  ∃ j, j ≤ 9
       ∧ getNextLogicalId decimal_parseInt start_nodes
         = "1.1.1." +:+ pretty (S j).
Proof.
  destruct (getNextLogicalId_single_digits decimal_parseInt start_nodes)
    as (j & Hj & Hnext & _).
  - intros k Hk. do 10 (destruct k as [|k]; [reflexivity|]). lia.
  - intros n l Hn Hl Hp.
    repeat (apply elem_of_cons in Hn as [->|Hn]);
      [| | |by apply elem_of_nil in Hn]; injection Hl as <-.
    + discriminate Hp.
    + exists 1. split; [lia|reflexivity].
    + exists 2. split; [lia|reflexivity].
  - exists j. split; [exact Hj|exact Hnext].
Defined.

Lemma ten_steps_numbers : numbers_below 89 ten_steps.
Proof.
  intros n l Hn Hl _. apply list_elem_of_fmap in Hn as (k & -> & Hk).
  injection Hl as <-. exists k. split; [|done].
  apply elem_of_seq in Hk. lia.
Qed.

Lemma getNextLogicalId_repeats_ten_witness :
  getNextLogicalId decimal_parseInt ten_steps = "1.1.1.10"
  ∧ ∃ n10, n10 ∈ ten_steps ∧ logical_id (data n10) = Some "1.1.1.10".
Proof.
  destruct (getNextLogicalId_repeats_ten decimal_parseInt ten_steps
              (toolbar_node "n9" "default" (Some "1.1.1.9")))
    as [Hnext _].
  - reflexivity.
  - exact ten_steps_numbers.
  - apply (list_elem_of_lookup_2 _ 8). reflexivity.
  - reflexivity.
  - split; [exact Hnext|].
    exists (toolbar_node "n10" "default" (Some "1.1.1.10")).
    split; [apply (list_elem_of_lookup_2 _ 9)|]; reflexivity.
Defined.

(** ** New steps on a renumbered canvas *)

Lemma numbers_below_le a b nodes :
  a ≤ b → numbers_below a nodes → numbers_below b nodes.
Proof.
  intros Hab H n l Hn Hl Hp. destruct (H n l Hn Hl Hp) as (k & Hk & ->).
  exists k. split; [lia|done].
Qed.

Section Renumbered.
Variable nodes : list Node.
Variable edges : list Edge.
Hypothesis others_unnumbered :
  ∀ n l, n ∈ nodes → is_numbered n = false →
         logical_id (data n) = Some l → String.prefix "1.1.1." l = false.

Let out := renumberByFlowSequence nodes edges.
Let steps := length (filter (λ n, is_numbered n = true) out).

Lemma renumbered_numbers n k :
  n ∈ out → logical_id (data n) = Some ("1.1.1." +:+ pretty k) →
  1 ≤ k ≤ steps.
Proof.
  intros Hn Hl.
  destruct (renumber_relabels nodes edges n Hn) as (n0 & Hn0 & Heq & Hcase).
  assert (is_numbered n = is_numbered n0) as Hsame.
  { rewrite Heq. by unfold is_numbered. }
  destruct (is_numbered n0) eqn:En0.
  - assert (Some ("1.1.1." +:+ pretty k)
            ∈ (λ n, logical_id (data n))
                <$> filter (λ n, is_numbered n = true) out) as Hin.
    { rewrite <- Hl. apply (list_elem_of_fmap_2 (λ n, logical_id (data n))).
      by apply list_elem_of_filter. }
    unfold out in Hin. rewrite renumber_sequence in Hin.
    apply list_elem_of_fmap in Hin as (k' & Hk' & Hseq).
    apply logical_number_inj in Hk' as ->.
    apply elem_of_seq in Hseq. fold out steps in Hseq. lia.
  - rewrite Hl in Hcase. injection Hcase as Hcase.
    pose proof (logical_number_prefix k) as Hp. rewrite Hcase in Hp.
    destruct (logical_id (data n0)) as [l0|] eqn:El0; [|done].
    simpl in Hp. case_decide; [done|].
    by rewrite (others_unnumbered n0 l0 Hn0 En0 El0) in Hp.
Qed.

Lemma renumbered_numbers_below : numbers_below steps out.
Proof.
  intros n l Hn Hl Hp.
  destruct (renumber_relabels nodes edges n Hn) as (n0 & Hn0 & Heq & Hcase).
  destruct (is_numbered n0) eqn:En0.
  - destruct Hcase as (k & Hk & Hlk). rewrite Hl in Hlk.
    injection Hlk as ->. exists k. split; [|done].
    apply (renumbered_numbers n k Hn) in Hl. lia.
  - rewrite Hl in Hcase. injection Hcase as ->.
    destruct (logical_id (data n0)) as [l0|] eqn:El0; [|done].
    simpl in Hp. case_decide; [done|].
    by rewrite (others_unnumbered n0 l0 Hn0 En0 El0) in Hp.
Qed.

Lemma renumbered_step k :
  1 ≤ k ≤ steps →
  ∃ n, n ∈ out ∧ logical_id (data n) = Some ("1.1.1." +:+ pretty k).
Proof.
  intros Hk.
  assert (Some ("1.1.1." +:+ pretty k)
          ∈ (λ n, logical_id (data n))
              <$> filter (λ n, is_numbered n = true) out) as Hin.
  { unfold out. rewrite renumber_sequence.
    apply (list_elem_of_fmap_2 (λ k, Some ("1.1.1." +:+ pretty k))).
    apply elem_of_seq. fold out steps. lia. }
  apply list_elem_of_fmap in Hin as (n & Hl & Hn).
  apply list_elem_of_filter in Hn as [_ Hn]. by exists n.
Qed.
End Renumbered.

(** X18. On a canvas as the renumbering leaves it, where the nodes that are
    not numbered carry no logical id under [1.1.1.]: with up to nine
    numbered steps [getNextLogicalId] proposes the next number, which is
    free; with ten to eighty-nine numbered steps it proposes [1.1.1.10],
    the id of the tenth step. *)
Theorem next_id_after_renumbering (parseInt : string → option Z)
    (nodes : list Node) (edges : list Edge) :
  (∀ k, k ≤ 9 → parseInt (pretty k) = Some (Z.of_nat k)) →
  (∀ n l, n ∈ nodes → is_numbered n = false →
          logical_id (data n) = Some l → String.prefix "1.1.1." l = false) →
  let out := renumberByFlowSequence nodes edges in
  let steps := length (filter (λ n, is_numbered n = true) out) in
  (steps ≤ 9 →
   getNextLogicalId parseInt out = "1.1.1." +:+ pretty (S steps)
   ∧ ∀ n, n ∈ out →
          logical_id (data n) ≠ Some (getNextLogicalId parseInt out))
  ∧ (10 ≤ steps ≤ 89 →
     getNextLogicalId parseInt out = "1.1.1.10"
     ∧ ∃ n, n ∈ out
            ∧ logical_id (data n) = Some (getNextLogicalId parseInt out)).
Proof.
  intros Hparse Hothers out steps.
  pose proof (renumbered_numbers_below nodes edges Hothers) as Hb.
  fold out steps in Hb. split.
  - intros Hsteps.
    destruct (next_id_single_digits parseInt out Hparse)
      as (j & Hj & Hnext & Hmax & Hfrom).
    { by apply (numbers_below_le steps). }
    assert (j = steps) as ->.
    { assert (j ≤ steps).
      { destruct Hfrom as [->|(n & Hn & Hl)]; [lia|].
        apply (renumbered_numbers nodes edges Hothers n j Hn) in Hl.
        fold out steps in Hl. lia. }
      destruct (decide (steps = 0)) as [|Hpos]; [lia|].
      destruct (renumbered_step nodes edges steps) as (n & Hn & Hl).
      { fold out steps. lia. }
      specialize (Hmax n steps Hn Hl). lia. }
    split; [done|]. intros n Hn Hl. rewrite Hnext in Hl.
    specialize (Hmax n (S steps) Hn Hl). lia.
  - intros Hsteps.
    destruct (renumbered_step nodes edges 9) as (n9 & Hn9 & Hl9).
    { fold out steps. lia. }
    destruct (renumbered_step nodes edges 10) as (n10 & Hn10 & Hl10).
    { fold out steps. lia. }
    assert (getNextLogicalId parseInt out = "1.1.1.10") as Hnext.
    { apply (next_id_collides parseInt out n9); [by apply (Hparse 9)| |done..].
      by apply (numbers_below_le steps); [lia|]. }
    split; [done|]. exists n10. split; [done|]. by rewrite Hnext.
Qed.

Lemma next_id_after_renumbering_witness :
  getNextLogicalId decimal_parseInt
    (renumberByFlowSequence start_nodes start_edges) = "1.1.1.3".
Proof.
  destruct (next_id_after_renumbering decimal_parseInt start_nodes start_edges)
    as [Hfew _].
  - intros k Hk. do 10 (destruct k as [|k]; [reflexivity|]). lia.
  - intros n l Hn Hnum Hl.
    repeat (apply elem_of_cons in Hn as [->|Hn]);
      [| | |by apply elem_of_nil in Hn]; try discriminate Hnum.
    by injection Hl as <-.
  - apply Hfew. vm_compute. lia.
Defined.

(** ** Drawing a connector keeps the canvas well formed *)

Lemma renumber_NoDup nodes edges :
  NoDup (id <$> nodes) → NoDup (id <$> renumberByFlowSequence nodes edges).
Proof.
  intros Hnd. unfold renumberByFlowSequence.
  rewrite renumberWithFuel_arrange, number_from_ids.
  by rewrite (arrange_Permutation _ _ _ Hnd).
Qed.

Lemma well_formed_renumber nodes edges :
  well_formed nodes edges →
  well_formed (renumberByFlowSequence nodes edges) edges.
Proof.
  intros (Hnd & Hdang & Hok). split; [by apply renumber_NoDup|].
  split; [by apply no_dangling_renumber|by apply degree_ok_renumber].
Qed.

(** X19. Whatever [onConnect] decides, a well formed canvas stays well
    formed and keeps its node ids, as long as [addEdge] does what the
    canvas relies on. *)
Theorem onConnect_keeps_well_formed
    (addEdge : Connection → string → list Edge → list Edge) (now : Z)
    (params : Connection) (cv : Canvas) :
  appends_connection addEdge →
  well_formed (nodes cv) (edges cv) →
  let cv' := onConnect addEdge now params cv in
  well_formed (nodes cv') (edges cv')
  ∧ ∀ x, x ∈ id <$> nodes cv' ↔ x ∈ id <$> nodes cv.
Proof.
  intros Hlib Hwf cv'. unfold cv', onConnect.
  destruct (onConnect_check (nodes cv) (edges cv) params) eqn:Hv;
    [done|done|]. simpl.
  split; [|intros x; by rewrite renumber_elem_of_ids].
  apply well_formed_renumber.
  destruct (Hlib params
              (onConnect_label
                 (from_option type "" (find_node (nodes cv) (c_source params)))
                 params) (edges cv)) as [->|(e & -> & Hs & Ht)]; [done|].
  destruct Hwf as (Hnd & Hdang & Hok).
  destruct (onConnect_valid_limits (nodes cv) (edges cv) params e
              Hnd Hok Hv Hs Ht) as (Hsn & Htn & Hok').
  split; [done|]. split; [|done].
  intros e' He'. apply elem_of_app in He' as [He'|He']; [by apply Hdang|].
  by apply list_elem_of_singleton in He' as ->.
Qed.

Lemma onConnect_keeps_well_formed_witness :
  let cv := commit 0 start_nodes start_edges initial_canvas in
  let cv' := onConnect plain_addEdge 1 (connection "a" HNull "b" HNull) cv in
  well_formed (nodes cv') (edges cv') ∧ length (edges cv') = 2.
Proof.
  intros cv cv'.
  destruct (onConnect_keeps_well_formed plain_addEdge 1
              (connection "a" HNull "b" HNull) cv) as [Hwf _].
  - intros params l es. right. eexists. split; [reflexivity|]. by split.
  - split; [refine (bool_decide_unpack _ _); vm_compute; exact I|]. split.
    + intros e He. apply list_elem_of_singleton in He as ->.
      split; refine (bool_decide_unpack _ _); vm_compute; exact I.
    + intros n Hn. repeat (apply elem_of_cons in Hn as [->|Hn]);
        [| | |by apply elem_of_nil in Hn]; vm_compute; split; lia.
  - split; [exact Hwf|reflexivity].
Defined.

(** ** Deleting the selection *)



(** ** Worked examples *)

(** The calls made on the graph with the decision node: a start, then the
    decision from the start, then both steps from the decision. *)
Example traversal_calls_gateway :
  traversal_calls gateway_nodes gateway_edges
  = [(None, "s"); (Some "s", "d"); (Some "d", "b"); (Some "d", "a")].
Proof. by vm_compute. Qed.

(** A start node, a step and a connector between them, merged into an empty
    canvas and then renumbered: the step is ["1.1.1.1"], the start node has
    no logical id. *)
Example merge_then_renumber :
  let changes :=
    [add_node {| ns_id := Some "n1"; ns_type := Some "start";
                 ns_position := None; ns_label := Some "Start";
                 ns_logical_id := None; ns_owner := None; ns_system := None;
                 ns_manualOrAutomated := None |};
     add_node (bare_spec "n2" "Receive Order");
     add_edge {| es_id := None; es_source := "n1"; es_target := "n2";
                 es_condition := None |};
     add_edge {| es_id := None; es_source := "missing"; es_target := "n2";
                 es_condition := None |}] in
  let m := apply_changes example_oracle changes (working [] []) in
  (λ n, (id n, logical_id (data n)))
    <$> renumberByFlowSequence (m_nodes m) (m_edges m)
  = [("n1", Some ""); ("n2", Some "1.1.1.1")]
  ∧ (λ e, (source e, target e)) <$> m_edges m = [("n1", "n2")]
  ∧ m_warnings m = [{| orphan_source := "missing"; orphan_target := "n2";
                       sourceExists := false; targetExists := true |}].
Proof. by vm_compute. Qed.

(** Renumbering twice, on nodes that share an id and on a cycle without a
    start node. *)
Example renumber_twice_examples :
  renumberByFlowSequence (renumberByFlowSequence twin_nodes []) []
  = renumberByFlowSequence twin_nodes []
  ∧ (λ n, (id n, logical_id (data n)))
      <$> renumberByFlowSequence
            [toolbar_node "x" "default" None; toolbar_node "y" "default" None;
             toolbar_node "z" "default" None]
            [connector "e1" "y" HUndefined "x" HUndefined;
             connector "e2" "x" HUndefined "y" HUndefined;
             connector "e3" "z" HUndefined "z" HUndefined]
    = [("x", Some "1.1.1.1"); ("y", Some "1.1.1.2"); ("z", Some "1.1.1.3")].
Proof. by vm_compute. Qed.

(** Fifty-one pushes leave fifty snapshots, the first one gone. *)
Example history_after_51_pushes :
  let cv := run_history ((λ k, Push (Z.of_nat k) [] []) <$> seq 0 51) in
  length (history (hist cv)) = 50
  ∧ historyIndex (hist cv) = 49%Z
  ∧ timestamp <$> head (history (hist cv)) = Some 1%Z.
Proof. by vm_compute. Qed.
